(** * The JIT's IR node model (src/coreclr/jit/gentree.h), embedded in Rocq.

    The development follows the header: the [GenTreeFlags] bit set and the
    side-effect predicates built on it, the [GenTree] node header with its
    value-number pair and register field, the unary/binary node constructors,
    copy/reload nodes with their register array, the field-sequence store,
    and the use-edge iterator.

    Conventions.  A C++ [unsigned int] or [uintptr_t] is a [Z] with the
    wrap-around written where the code can overflow; a pointer is an
    [option] of an arena address ([None] is [nullptr]); objects that are
    mutated in place or reached through pointers live in a finite map from
    addresses to records. *)

From Stdlib Require Import ZArith Lia Bool List Sorted.
From stdpp Require Import base option list gmap.

#[local] Open Scope Z_scope.

(** ** Flags *)

Module GTF.

Abbreviation GenTreeFlags := (Z) (only parsing).

(** [unsigned int] is 32 bits wide. *)
Definition UINT_BITS : Z := 32.
Definition UINT_MAX : Z := 0xFFFFFFFF.

Definition GTF_EMPTY : GenTreeFlags := 0.

Definition GTF_ASG : GenTreeFlags := 0x00000001.
Definition GTF_CALL : GenTreeFlags := 0x00000002.
Definition GTF_EXCEPT : GenTreeFlags := 0x00000004.
Definition GTF_GLOB_REF : GenTreeFlags := 0x00000008.
Definition GTF_ORDER_SIDEEFF : GenTreeFlags := 0x00000010.

Definition GTF_PERSISTENT_SIDE_EFFECTS : GenTreeFlags := Z.lor GTF_ASG GTF_CALL.
Definition GTF_SIDE_EFFECT : GenTreeFlags := Z.lor GTF_PERSISTENT_SIDE_EFFECTS GTF_EXCEPT.
Definition GTF_GLOB_EFFECT : GenTreeFlags := Z.lor GTF_SIDE_EFFECT GTF_GLOB_REF.
Definition GTF_ALL_EFFECT : GenTreeFlags := Z.lor GTF_GLOB_EFFECT GTF_ORDER_SIDEEFF.

Definition GTF_REVERSE_OPS : GenTreeFlags := 0x00000020.
Definition GTF_CONTAINED : GenTreeFlags := 0x00000040.
Definition GTF_SPILLED : GenTreeFlags := 0x00000080.
Definition GTF_DONT_CSE : GenTreeFlags := 0x00001000.
Definition GTF_COMMON_MASK : GenTreeFlags := 0x0003FFFF.

(** [operator ~] on [GenTreeFlags]: complement of the 32-bit value. *)
Definition flags_not (a : GenTreeFlags) : GenTreeFlags := Z.land (Z.lnot a) UINT_MAX.

(** [operator |] and [operator &]. *)
Definition flags_or (a b : GenTreeFlags) : GenTreeFlags := Z.lor a b.
Definition flags_and (a b : GenTreeFlags) : GenTreeFlags := Z.land a b.

(** A value that fits the flag word. *)
Definition is_flags (f : Z) : Prop := 0 <= f < 2 ^ UINT_BITS.

(** The macro [GTF_GLOBALLY_VISIBLE_SIDE_EFFECTS(flags)]: a non-zero
    masked value is true in the left disjunct. *)
Definition GTF_GLOBALLY_VISIBLE_SIDE_EFFECTS (flags : GenTreeFlags) : bool :=
  negb (flags_and flags (flags_or GTF_CALL GTF_EXCEPT) =? 0)
  || (flags_and flags (flags_or GTF_ASG GTF_GLOB_REF) =? flags_or GTF_ASG GTF_GLOB_REF).

(** The individual effect bits, by position. *)
Definition may_assign (f : GenTreeFlags) : bool := Z.testbit f 0.
Definition may_call (f : GenTreeFlags) : bool := Z.testbit f 1.
Definition may_throw (f : GenTreeFlags) : bool := Z.testbit f 2.
Definition reads_global (f : GenTreeFlags) : bool := Z.testbit f 3.
Definition has_ordering_effect (f : GenTreeFlags) : bool := Z.testbit f 4.

End GTF.

(** ** The node header and the operations on it *)

Module Node.
Import GTF.

(** [genTreeOps] and [var_types] are byte-sized enumerations declared in
    other headers; a value is its enumerator's number. *)
Abbreviation genTreeOps := (Z) (only parsing).
Abbreviation var_types := (Z) (only parsing).
Abbreviation regNumber := (Z) (only parsing).
Abbreviation ValueNum := (Z) (only parsing).

(** Arena addresses; [GenTree*] is [option addr]. *)
Abbreviation addr := N (only parsing).
Abbreviation GenTreePtr := (option addr) (only parsing).

Record ValueNumPair := mkVNPair { m_liberal : ValueNum; m_conservative : ValueNum }.

(** [enum gtCallTypes : BYTE]. *)
Inductive gtCallTypes := CT_USER_FUNC | CT_HELPER | CT_INDIRECT | CT_COUNT.

(** [CallArg*] is an optional address in the arena of call arguments. *)
Abbreviation CallArgPtr := (option addr) (only parsing).

(** The link and node fields of [class CallArg]. *)
Record CallArg := mkCallArg {
  m_earlyNode : GenTreePtr;
  m_lateNode : GenTreePtr;
  m_next : CallArgPtr;
  m_lateNext : CallArgPtr
}.

(** The list heads of [class CallArgs]. *)
Record CallArgs := mkCallArgs { m_head : CallArgPtr; m_lateHead : CallArgPtr }.

(** The variant payload layered on the header.  [GenTreeOp] derives from
    [GenTreeUnOp]: a unary node is a [GenTreeOp] with a null [gtOp2].  In
    [GenTreeCall], [gtCallAddr] shares its storage with the method handle
    and is an expression only for [CT_INDIRECT] calls. *)
Inductive Payload :=
| LeafPayload
| OpPayload (gtOp1 gtOp2 : GenTreePtr)
| CopyOrReloadPayload (gtOp1 : GenTreePtr) (gtOtherRegs : list Z)
| CallPayload (gtArgs : CallArgs) (gtCallType : gtCallTypes)
    (gtCallCookie gtControlExpr gtCallAddr : GenTreePtr).

Record GenTree := mkGenTree {
  gtOper : genTreeOps;
  gtType : var_types;
  gtFlags : GenTreeFlags;
  gtVNPair : ValueNumPair;
  _gtRegNum : Z;
  payload : Payload
}.

Abbreviation Heap := (gmap addr GenTree) (only parsing).

Definition deref (h : Heap) (p : GenTreePtr) : option GenTree :=
  match p with
  | None => None
  | Some a => h !! a
  end.

Definition with_flags (f : GenTreeFlags) (n : GenTree) : GenTree :=
  mkGenTree (gtOper n) (gtType n) f (gtVNPair n) (_gtRegNum n) (payload n).
Definition with_oper (o : genTreeOps) (n : GenTree) : GenTree :=
  mkGenTree o (gtType n) (gtFlags n) (gtVNPair n) (_gtRegNum n) (payload n).
Definition with_vnpair (v : ValueNumPair) (n : GenTree) : GenTree :=
  mkGenTree (gtOper n) (gtType n) (gtFlags n) v (_gtRegNum n) (payload n).
Definition with_regnum (r : Z) (n : GenTree) : GenTree :=
  mkGenTree (gtOper n) (gtType n) (gtFlags n) (gtVNPair n) r (payload n).
Definition with_payload (p : Payload) (n : GenTree) : GenTree :=
  mkGenTree (gtOper n) (gtType n) (gtFlags n) (gtVNPair n) (_gtRegNum n) p.

(** The composite side-effect flags of a node. *)
Definition effects (n : GenTree) : GenTreeFlags := flags_and (gtFlags n) GTF_ALL_EFFECT.

(** [IsReverseOp], [SetReverseOp] and [ClearReverseOp]. *)
Definition IsReverseOp (this : GenTree) : bool :=
  negb (flags_and (gtFlags this) GTF_REVERSE_OPS =? 0).
Definition SetReverseOp (this : GenTree) : GenTree :=
  with_flags (flags_or (gtFlags this) GTF_REVERSE_OPS) this.
Definition ClearReverseOp (this : GenTree) : GenTree :=
  with_flags (flags_and (gtFlags this) (flags_not GTF_REVERSE_OPS)) this.

(** *** SetAllEffectsFlags *)

(** [SetAllEffectsFlags(GenTreeFlags sourceFlags)]; the assertion is a
    debug-only check and does not change the result. *)
Definition SetAllEffectsFlags (sourceFlags : GenTreeFlags) (this : GenTree) : GenTree :=
  let f := flags_and (gtFlags this) (flags_not GTF_ALL_EFFECT) in
  with_flags (flags_or f sourceFlags) this.

(** The overloads taking one, two or three source nodes. *)
Inductive Sources :=
| OneSource (source : GenTreePtr)
| TwoSources (firstSource secondSource : GenTreePtr)
| ThreeSources (firstSource secondSource thirdSource : GenTreePtr).

(** The union of the sources' flag words, read through the pointers. *)
Definition sources_flags (h : Heap) (s : Sources) : option GenTreeFlags :=
  match s with
  | OneSource a =>
      n1 ← deref h a; Some (gtFlags n1)
  | TwoSources a b =>
      n1 ← deref h a; n2 ← deref h b;
      Some (flags_or (gtFlags n1) (gtFlags n2))
  | ThreeSources a b c =>
      n1 ← deref h a; n2 ← deref h b; n3 ← deref h c;
      Some (flags_or (flags_or (gtFlags n1) (gtFlags n2)) (gtFlags n3))
  end.

(** [this->SetAllEffectsFlags(sources...)] on the node at address [this];
    a source may be the node itself. *)
Definition SetAllEffectsFlags_nodes (h : Heap) (this : addr) (s : Sources) : option Heap :=
  n ← h !! this;
  f ← sources_flags h s;
  Some (<[this := SetAllEffectsFlags (flags_and f GTF_ALL_EFFECT) n]> h).

(** *** Value numbers and operator changes *)

Inductive ValueNumberUpdate := CLEAR_VN | PRESERVE_VN.

Section ValueNumbers.
(** [ValueNumStore::NoVN], declared with the value-number store. *)
Variable NoVN : ValueNum.

(** [ValueNumPair()] "initializes both elements to NoVN". *)
Definition ValueNumPair_default : ValueNumPair := mkVNPair NoVN NoVN.

Inductive ValueNumKind := VNK_Liberal | VNK_Conservative.

Definition GetVN (vnk : ValueNumKind) (this : GenTree) : ValueNum :=
  match vnk with
  | VNK_Liberal => m_liberal (gtVNPair this)
  | VNK_Conservative => m_conservative (gtVNPair this)
  end.

Definition SetVNs (vnp : ValueNumPair) (this : GenTree) : GenTree := with_vnpair vnp this.
Definition ClearVN (this : GenTree) : GenTree := with_vnpair ValueNumPair_default this.

(** Modelled from the spec: the body of [GenTree::SetOperRaw], which the
    header only declares; it stores the new operator code. *)
Definition SetOperRaw (oper : genTreeOps) (this : GenTree) : GenTree := with_oper oper this.

(** Modelled from the spec: the body of [GenTree::SetOper], which the
    header only declares.  The operator is changed in place; the
    [CLEAR_VN] variant also clears the value number, the [PRESERVE_VN]
    variant keeps it. *)
Definition SetOper (oper : genTreeOps) (vnUpdate : ValueNumberUpdate) (this : GenTree) : GenTree :=
  let this := SetOperRaw oper this in
  match vnUpdate with
  | CLEAR_VN => ClearVN this
  | PRESERVE_VN => this
  end.

(** The default argument [vnUpdate = CLEAR_VN] of the declaration. *)
Definition SetOper_default (oper : genTreeOps) (this : GenTree) : GenTree :=
  SetOper oper CLEAR_VN this.
End ValueNumbers.

(** *** Constructors of unary and binary nodes *)

Section Constructors.
(** The base-class constructor [GenTree::GenTree(oper, type)] is declared
    [inline] in the header and defined elsewhere: the header it builds is
    a parameter here. *)
Variable GenTree_ctor : genTreeOps -> var_types -> GenTree.

(** The effect bits the base constructor gives a node of this operator. *)
Definition operatorIntrinsicEffects (oper : genTreeOps) (type : var_types) : GenTreeFlags :=
  effects (GenTree_ctor oper type).

(** [GenTreeUnOp(oper, type, op1)]: effects flags are propagated from a
    non-null child. *)
Definition GenTreeUnOp_ctor (h : Heap) (oper : genTreeOps) (type : var_types)
    (op1 : GenTreePtr) : option GenTree :=
  let this := with_payload (OpPayload op1 None) (GenTree_ctor oper type) in
  match op1 with
  | None => Some this
  | Some _ =>
      n1 ← deref h op1;
      Some (with_flags (flags_or (gtFlags this) (flags_and (gtFlags n1) GTF_ALL_EFFECT)) this)
  end.

(** [GenTreeOp(oper, type, op1, op2)]. *)
Definition GenTreeOp_ctor (h : Heap) (oper : genTreeOps) (type : var_types)
    (op1 op2 : GenTreePtr) : option GenTree :=
  this ← GenTreeUnOp_ctor h oper type op1;
  let this := with_payload (OpPayload op1 op2) this in
  match op2 with
  | None => Some this
  | Some _ =>
      n2 ← deref h op2;
      Some (with_flags (flags_or (gtFlags this) (flags_and (gtFlags n2) GTF_ALL_EFFECT)) this)
  end.
End Constructors.

(** *** Copy/reload nodes and their register array *)

Section CopyOrReload.
Variable GenTree_ctor : genTreeOps -> var_types -> GenTree.
(** [MAX_RET_REG_COUNT] and [REG_NA] come from the target headers; the
    multi-register return feature ([FEATURE_MULTIREG_RET]) is on. *)
Variable MAX_RET_REG_COUNT : nat.
Variable REG_NA : regNumber.

(** The cast to [regNumberSmall], an 8-bit unsigned storage type. *)
Definition to_regNumberSmall (reg : Z) : Z := reg mod 256.

Definition GetRegNum (this : GenTree) : regNumber := _gtRegNum this.
Definition SetRegNum (reg : regNumber) (this : GenTree) : GenTree :=
  with_regnum (to_regNumberSmall reg) this.

Definition gtOtherRegs_of (this : GenTree) : option (list Z) :=
  match payload this with
  | CopyOrReloadPayload _ regs => Some regs
  | _ => None
  end.

Definition with_otherRegs (regs : list Z) (this : GenTree) : GenTree :=
  match payload this with
  | CopyOrReloadPayload op1 _ => with_payload (CopyOrReloadPayload op1 regs) this
  | _ => this
  end.

(** [ClearOtherRegs]: the loop [for (i = 0; i < MAX_RET_REG_COUNT - 1; ++i)]. *)
Definition ClearOtherRegs (this : GenTree) : GenTree :=
  match gtOtherRegs_of this with
  | Some regs =>
      with_otherRegs
        (foldl (fun rs i => <[i := to_regNumberSmall REG_NA]> rs) regs
           (seq 0 (MAX_RET_REG_COUNT - 1)))
        this
  | None => this
  end.

(** [GetRegNumByIdx]; [None] is the failed assertion [idx < MAX_RET_REG_COUNT]
    (or a node of another shape). *)
Definition GetRegNumByIdx (idx : nat) (this : GenTree) : option regNumber :=
  if decide (idx < MAX_RET_REG_COUNT)%nat then
    if decide (idx = 0%nat) then Some (GetRegNum this)
    else regs ← gtOtherRegs_of this; regs !! (idx - 1)%nat
  else None.

(** [SetRegNumByIdx]. *)
Definition SetRegNumByIdx (reg : regNumber) (idx : nat) (this : GenTree) : option GenTree :=
  if decide (idx < MAX_RET_REG_COUNT)%nat then
    if decide (idx = 0%nat) then Some (SetRegNum reg this)
    else
      regs ← gtOtherRegs_of this;
      Some (with_otherRegs (<[(idx - 1)%nat := to_regNumberSmall reg]> regs) this)
  else None.

(** The loop of [GetRegCount], [for (i = MAX_RET_REG_COUNT; i > 1; i--)],
    started at [i]; it falls out to [return 1].  A read outside the
    array gives [None]. *)
Fixpoint GetRegCount_from (regs : list Z) (i : nat) : option nat :=
  match i with
  | O => Some 1%nat
  | S i' =>
      match i' with
      | O => Some 1%nat
      | S j =>
          r ← regs !! j;
          if decide (r ≠ REG_NA) then Some i else GetRegCount_from regs i'
      end
  end.

Definition GetRegCount (this : GenTree) : option nat :=
  regs ← gtOtherRegs_of this;
  GetRegCount_from regs MAX_RET_REG_COUNT.

(** [GenTreeCopyOrReload(oper, type, op1)]: the unary constructor, then
    [SetRegNum(REG_NA)] and [ClearOtherRegs()].  The array has
    [MAX_RET_REG_COUNT - 1] slots, whose contents before the clearing
    loop are [uninit]. *)
Definition GenTreeCopyOrReload_ctor (uninit : Z) (h : Heap) (oper : genTreeOps)
    (type : var_types) (op1 : GenTreePtr) : option GenTree :=
  this ← GenTreeUnOp_ctor GenTree_ctor h oper type op1;
  let this :=
    with_payload (CopyOrReloadPayload op1 (replicate (MAX_RET_REG_COUNT - 1) uninit)) this in
  Some (ClearOtherRegs (SetRegNum REG_NA this)).

(** The number of positions that hold a register. *)
Definition assigned_count (this : GenTree) : nat :=
  length (filter (fun idx => GetRegNumByIdx idx this ≠ Some REG_NA
                             ∧ GetRegNumByIdx idx this ≠ None)
            (seq 0 MAX_RET_REG_COUNT)).
End CopyOrReload.

End Node.

(** ** Field sequences and the canonicalizing store *)

Module FieldSeq.

(** [uintptr_t] and [CORINFO_FIELD_HANDLE] have the same size (the
    header's static assertion); 64 bits here. *)
Definition UINTPTR_BITS : Z := 64.
Definition UINTPTR_MAX : Z := 2 ^ UINTPTR_BITS - 1.
Definition to_uintptr (x : Z) : Z := x mod 2 ^ UINTPTR_BITS.

(** [enum class FieldKind : uintptr_t], as its underlying value. *)
Abbreviation FieldKind := (Z) (only parsing).
Definition Instance : FieldKind := 0.
Definition SimpleStatic : FieldKind := 1.
Definition SharedStatic : FieldKind := 2.

Abbreviation CORINFO_FIELD_HANDLE := (Z) (only parsing).

Definition FIELD_KIND_MASK : Z := 3.

(** A [FieldSeqNode*]: null, the address of the static [s_notAField], or
    the address of a node allocated by a store. *)
Inductive FieldSeqPtr :=
| nullptr
| notAField_ptr
| arena_ptr (a : nat).

Record FieldSeqNode := mkFieldSeqNode {
  m_fieldHandleAndKind : Z;
  m_next : FieldSeqPtr
}.

Definition FieldSeqPtr_eqb (p q : FieldSeqPtr) : bool :=
  match p, q with
  | nullptr, nullptr => true
  | notAField_ptr, notAField_ptr => true
  | arena_ptr a, arena_ptr b => Nat.eqb a b
  | _, _ => false
  end.

Definition GetKind (this : FieldSeqNode) : FieldKind :=
  Z.land (m_fieldHandleAndKind this) FIELD_KIND_MASK.

(** [~FIELD_KIND_MASK] is taken in [uintptr_t]. *)
Definition GetFieldHandleValue (this : FieldSeqNode) : CORINFO_FIELD_HANDLE :=
  Z.land (m_fieldHandleAndKind this) (Z.land (Z.lnot FIELD_KIND_MASK) UINTPTR_MAX).

Definition GetNext (this : FieldSeqNode) : FieldSeqPtr := m_next this.

Definition IsStaticField (this : FieldSeqNode) : bool :=
  (GetKind this =? SimpleStatic) || (GetKind this =? SharedStatic).

(** [FieldSeqNode::Equals], the key equality of the canon map. *)
Definition Equals (fsn1 fsn2 : FieldSeqNode) : bool :=
  (m_fieldHandleAndKind fsn1 =? m_fieldHandleAndKind fsn2)
  && FieldSeqPtr_eqb (m_next fsn1) (m_next fsn2).

(** Modelled from the spec: the constructor [FieldSeqNode(fieldHnd, next,
    fieldKind)], defined outside the header.  The handle and the kind
    share one word: the kind sits in the two low bits that [GetKind]
    reads, the handle in the bits that [GetFieldHandleValue] keeps. *)
Definition FieldSeqNode_ctor (fieldHnd : CORINFO_FIELD_HANDLE) (next : FieldSeqPtr)
    (fieldKind : FieldKind) : FieldSeqNode :=
  mkFieldSeqNode (to_uintptr (Z.lor fieldHnd fieldKind)) next.

(** Modelled from the spec: [JitHashTable<FieldSeqNode, FieldSeqNode,
    FieldSeqNode*>], the table behind the store, with keys compared by
    [Equals]; the newest binding of a key shadows older ones. *)
Abbreviation FieldSeqNodeCanonMap := (list (FieldSeqNode * FieldSeqPtr)) (only parsing).

(** Modelled from the spec: the table's [Lookup], by key equality. *)
Fixpoint Lookup (m : FieldSeqNodeCanonMap) (k : FieldSeqNode) : option FieldSeqPtr :=
  match m with
  | [] => None
  | (k', v) :: m' => if Equals k k' then Some v else Lookup m' k
  end.

(** Modelled from the spec: the table's [Set]. *)
Definition Set_ (m : FieldSeqNodeCanonMap) (k : FieldSeqNode) (v : FieldSeqPtr)
    : FieldSeqNodeCanonMap :=
  (k, v) :: m.

(** The store: the nodes it has allocated ([m_alloc]; the node at index
    [a] has address [arena_ptr a]) and the canon map. *)
Record FieldSeqStore := mkStore {
  m_alloc : list FieldSeqNode;
  m_canonMap : FieldSeqNodeCanonMap
}.

(** [FieldSeqStore(alloc)]: an empty store. *)
Definition FieldSeqStore_ctor : FieldSeqStore := mkStore [] [].

(** [s_notAField]: "no value, just exists to provide an address". *)
Definition s_notAField : FieldSeqNode := mkFieldSeqNode 0 nullptr.
Definition NotAField : FieldSeqPtr := notAField_ptr.

Definition load (st : FieldSeqStore) (p : FieldSeqPtr) : option FieldSeqNode :=
  match p with
  | nullptr => None
  | notAField_ptr => Some s_notAField
  | arena_ptr a => m_alloc st !! a
  end.

(** Modelled from the spec: the canonical handle of a node value, the
    step shared by [CreateSingleton] and [Append].  A key already in the
    table resolves to its handle; otherwise a node is allocated and
    entered under (field identifier, kind, tail pointer). *)
Definition canonical (st : FieldSeqStore) (fsn : FieldSeqNode) : FieldSeqStore * FieldSeqPtr :=
  match Lookup (m_canonMap st) fsn with
  | Some res => (st, res)
  | None =>
      let res := arena_ptr (length (m_alloc st)) in
      (mkStore (m_alloc st ++ [fsn]) (Set_ (m_canonMap st) fsn res), res)
  end.

(** Modelled from the spec: [FieldSeqStore::CreateSingleton], declared in
    the header and defined elsewhere: the canonical one-element
    sequence. *)
Definition CreateSingleton (st : FieldSeqStore) (fieldHnd : CORINFO_FIELD_HANDLE)
    (fieldKind : FieldKind) : FieldSeqStore * FieldSeqPtr :=
  canonical st (FieldSeqNode_ctor fieldHnd nullptr fieldKind).

(** Modelled from the spec: [FieldSeqStore::Append], declared in the
    header and defined elsewhere: the canonical concatenation,
    short-circuiting to the sentinel if either input is the sentinel.
    The null pointer is the empty sequence.  The nodes of [a] are
    re-created in front of [b], last node first; [fuel] bounds the walk
    along [a]. *)
Fixpoint Append_walk (fuel : nat) (st : FieldSeqStore) (a b : FieldSeqPtr)
    : option (FieldSeqStore * FieldSeqPtr) :=
  if FieldSeqPtr_eqb a NotAField || FieldSeqPtr_eqb b NotAField then Some (st, NotAField)
  else if FieldSeqPtr_eqb a nullptr then Some (st, b)
  else if FieldSeqPtr_eqb b nullptr then Some (st, a)
  else
    match fuel with
    | O => None
    | S fuel' =>
        na ← load st a;
        '(st1, tmp) ← Append_walk fuel' st (GetNext na) b;
        Some (canonical st1 (FieldSeqNode_ctor (GetFieldHandleValue na) tmp (GetKind na)))
    end.

(** Modelled from the spec: [FieldSeqStore::Append] itself.  A sequence in
    the store has at most as many nodes as the arena, which bounds the
    walk. *)
Definition Append (st : FieldSeqStore) (a b : FieldSeqPtr)
    : option (FieldSeqStore * FieldSeqPtr) :=
  Append_walk (S (length (m_alloc st))) st a b.

(** Equality of two sequence handles is identity of pointers. *)
Definition handle_eq (p q : FieldSeqPtr) : bool := FieldSeqPtr_eqb p q.

(** *** Building a sequence from a chain of fields *)

(** A way of building a sequence with the store's two operations. *)
Inductive Build :=
| Singleton (fieldHnd : CORINFO_FIELD_HANDLE) (fieldKind : FieldKind)
| Concat (first second : Build).

(** The chain of (field identifier, field kind) pairs a build denotes. *)
Fixpoint chain (e : Build) : list (CORINFO_FIELD_HANDLE * FieldKind) :=
  match e with
  | Singleton f k => [(f, k)]
  | Concat e1 e2 => chain e1 ++ chain e2
  end.

Fixpoint build (e : Build) (st : FieldSeqStore) : option (FieldSeqStore * FieldSeqPtr) :=
  match e with
  | Singleton f k => Some (CreateSingleton st f k)
  | Concat e1 e2 =>
      '(st1, a) ← build e1 st;
      '(st2, b) ← build e2 st1;
      Append st2 a b
  end.

(** Any further use of the store: a series of builds. *)
Fixpoint build_all (es : list Build) (st : FieldSeqStore) : option FieldSeqStore :=
  match es with
  | [] => Some st
  | e :: es' => '(st1, _) ← build e st; build_all es' st1
  end.

(** *** The invariant of the store *)

(** The words a handle's nodes hold, front to back. *)
Fixpoint represents (st : FieldSeqStore) (p : FieldSeqPtr) (l : list Z) : Prop :=
  match l with
  | [] => p = nullptr
  | x :: l' =>
      ∃ a n, p = arena_ptr a ∧ m_alloc st !! a = Some n
             ∧ m_fieldHandleAndKind n = x ∧ represents st (m_next n) l'
  end.

Record store_ok (st : FieldSeqStore) : Prop := {
  (** a key of the table is the contents of the node it maps to *)
  ok_lookup : ∀ k v, Lookup (m_canonMap st) k = Some v →
                     ∃ a, v = arena_ptr a ∧ m_alloc st !! a = Some k;
  (** every allocated node is the canonical one for its contents *)
  ok_canon : ∀ a n, m_alloc st !! a = Some n → Lookup (m_canonMap st) n = Some (arena_ptr a);
  (** node words fit [uintptr_t] *)
  ok_word : ∀ a n, m_alloc st !! a = Some n → 0 <= m_fieldHandleAndKind n < 2 ^ UINTPTR_BITS;
  (** a tail is null or an older node *)
  ok_next : ∀ a n, m_alloc st !! a = Some n →
                   m_next n = nullptr ∨ ∃ a', m_next n = arena_ptr a' ∧ (a' < a)%nat
}.

(** The second store has every node of the first, at the same address. *)
Definition extends (st st' : FieldSeqStore) : Prop := m_alloc st `prefix_of` m_alloc st'.

Definition pack (fk : CORINFO_FIELD_HANDLE * FieldKind) : Z :=
  to_uintptr (Z.lor (fst fk) (snd fk)).

End FieldSeq.

(** ** The use-edge iterator *)

Module UseEdges.
Import GTF Node.

(** The states of a call node's iteration (the iterator's anonymous enum). *)
Inductive CallState :=
| CALL_ARGS
| CALL_LATE_ARGS
| CALL_CONTROL_EXPR
| CALL_COOKIE
| CALL_ADDRESS
| CALL_TERMINAL.

(** The member functions an [AdvanceFn] can point to, for the shapes
    modelled here; the templates are indexed by their argument. *)
Inductive AdvanceFn :=
| AdvanceBinOp (ReverseOperands : bool)
| AdvanceCall (state : CallState)
| Terminate.

(** A use edge, [GenTree**]: the address of a child slot, named by the
    object that holds the slot and the field. *)
Inductive UseEdge :=
| gtOp1_slot (node : addr)
| gtOp2_slot (node : addr)
| EarlyNodeRef (arg : addr)
| LateNodeRef (arg : addr)
| gtControlExpr_slot (node : addr)
| gtCallCookie_slot (node : addr)
| gtCallAddr_slot (node : addr).

#[global] Instance UseEdge_eq_dec : EqDecision UseEdge.
Proof. intros x y. unfold Decision. decide equality; apply N.eq_dec. Defined.

Record GenTreeUseEdgeIterator := mkIter {
  m_advance : option AdvanceFn;
  m_node : GenTreePtr;
  m_edge : option UseEdge;
  m_statePtr : option addr;
  m_state : Z
}.

(** [operator==]. *)
Definition iter_eq (this other : GenTreeUseEdgeIterator) : bool :=
  if (m_state this =? -1) || (m_state other =? -1) then
    m_state this =? m_state other
  else
    bool_decide (m_node this = m_node other)
    && bool_decide (m_edge this = m_edge other)
    && bool_decide (m_statePtr this = m_statePtr other)
    && (m_state this =? m_state other).

(** [operator!=]. *)
Definition iter_neq (this other : GenTreeUseEdgeIterator) : bool := negb (iter_eq this other).

(** The exhausted state: the one in which [operator*] may not be used. *)
Definition exhausted (it : GenTreeUseEdgeIterator) : bool := m_state it =? -1.

(** The memory an iterator walks: the nodes and the call arguments. *)
Record Memory := mkMemory { nodes : gmap addr GenTree; callArgs : gmap addr CallArg }.

Definition with_edge (e : UseEdge) (it : GenTreeUseEdgeIterator) : GenTreeUseEdgeIterator :=
  mkIter (m_advance it) (m_node it) (Some e) (m_statePtr it) (m_state it).
Definition with_advance (f : AdvanceFn) (it : GenTreeUseEdgeIterator) : GenTreeUseEdgeIterator :=
  mkIter (Some f) (m_node it) (m_edge it) (m_statePtr it) (m_state it).
Definition with_statePtr (p : option addr) (it : GenTreeUseEdgeIterator)
    : GenTreeUseEdgeIterator :=
  mkIter (m_advance it) (m_node it) (m_edge it) p (m_state it).

(** Modelled from the spec: the default constructor, declared in the
    header and defined elsewhere; it is the exhausted iterator that
    [UseEdgesEnd] returns. *)
Definition GenTreeUseEdgeIterator_default : GenTreeUseEdgeIterator :=
  mkIter None None None None (-1).

(** Modelled from the spec: [Terminate], declared in the header and
    defined elsewhere; it enters the exhausted state. *)
Definition do_Terminate (it : GenTreeUseEdgeIterator) : GenTreeUseEdgeIterator :=
  mkIter (m_advance it) (m_node it) (m_edge it) (m_statePtr it) (-1).

(** Modelled from the spec: [AdvanceBinOp<ReverseOperands>], declared in
    the header and defined elsewhere.  It moves from the first operand
    visited to the second: with the operands reversed that is [gtOp1],
    otherwise [gtOp2]. *)
Definition do_AdvanceBinOp (ReverseOperands : bool) (node : addr)
    (it : GenTreeUseEdgeIterator) : GenTreeUseEdgeIterator :=
  with_advance Terminate
    (with_edge (if ReverseOperands then gtOp1_slot node else gtOp2_slot node) it).

(** Modelled from the spec: [SetEntryStateForBinOp], declared in the
    header and defined elsewhere.  Only live (non-null) slots are
    produced; with both operands present the reverse-evaluation flag
    chooses which one comes first. *)
Definition SetEntryStateForBinOp (node : addr) (gtFlags : GenTreeFlags)
    (gtOp1 gtOp2 : GenTreePtr) (it : GenTreeUseEdgeIterator) : GenTreeUseEdgeIterator :=
  match gtOp1, gtOp2 with
  | None, None => do_Terminate it
  | Some _, None => with_advance Terminate (with_edge (gtOp1_slot node) it)
  | None, Some _ => with_advance Terminate (with_edge (gtOp2_slot node) it)
  | Some _, Some _ =>
      if negb (flags_and gtFlags GTF_REVERSE_OPS =? 0) then
        with_advance (AdvanceBinOp true) (with_edge (gtOp2_slot node) it)
      else
        with_advance (AdvanceBinOp false) (with_edge (gtOp1_slot node) it)
  end.

(** Modelled from the spec: the search that [AdvanceCall<CALL_ARGS>] makes
    for the next live slot.  The next argument at or after [p] on the
    evaluation-order list whose early node is live, with the argument that follows it; [Some None]
    at the end of the list, [None] when the links leave the arena or
    [fuel] runs out. *)
Fixpoint next_early (fuel : nat) (args : gmap addr CallArg) (p : CallArgPtr)
    : option (option (addr * CallArgPtr)) :=
  match p with
  | None => Some None
  | Some a =>
      match fuel with
      | O => None
      | S fuel' =>
          arg ← args !! a;
          match m_earlyNode arg with
          | Some _ => Some (Some (a, m_next arg))
          | None => next_early fuel' args (m_next arg)
          end
      end
  end.

(** Modelled from the spec: the same search along the late list, for live
    late nodes, made by [AdvanceCall<CALL_LATE_ARGS>]. *)
Fixpoint next_late (fuel : nat) (args : gmap addr CallArg) (p : CallArgPtr)
    : option (option (addr * CallArgPtr)) :=
  match p with
  | None => Some None
  | Some a =>
      match fuel with
      | O => None
      | S fuel' =>
          arg ← args !! a;
          match m_lateNode arg with
          | Some _ => Some (Some (a, m_lateNext arg))
          | None => next_late fuel' args (m_lateNext arg)
          end
      end
  end.

Section AdvanceCall.
Variable fuel : nat.
Variable mem : Memory.
Variable node : addr.
Variables (gtArgs : CallArgs) (gtCallType : gtCallTypes).
Variables gtCallCookie gtControlExpr gtCallAddr : GenTreePtr.

(** Modelled from the spec: [AdvanceCall<state>], declared in the header
    and defined elsewhere, one definition per state of the header's
    enumeration, in its order; a state with nothing left to produce falls
    through to the next one.  A call yields its evaluation-order
    arguments, then its late arguments, then the control-target
    expression if present, then the indirect-call-target expression if
    present.  Between the last two the header has the state
    [CALL_COOKIE], for the operand slot [gtCallCookie] of indirect
    calls. *)
Definition AdvanceCall_ADDRESS (it : GenTreeUseEdgeIterator) : GenTreeUseEdgeIterator :=
  match gtCallType, gtCallAddr with
  | CT_INDIRECT, Some _ => with_advance Terminate (with_edge (gtCallAddr_slot node) it)
  | _, _ => do_Terminate it
  end.

(** Modelled from the spec: [AdvanceCall<CALL_COOKIE>].  The spec names no
    operand for this state; the header does: [GenTree* gtCallCookie],
    "only used for CALLI unmanaged calls (CT_INDIRECT)", which shares its
    storage with inlining data on other calls.  An indirect call yields
    its cookie if present; any other call has none. *)
Definition AdvanceCall_COOKIE (it : GenTreeUseEdgeIterator) : GenTreeUseEdgeIterator :=
  match gtCallType, gtCallCookie with
  | CT_INDIRECT, Some _ =>
      with_advance (AdvanceCall CALL_ADDRESS) (with_edge (gtCallCookie_slot node) it)
  | _, _ => AdvanceCall_ADDRESS (with_advance (AdvanceCall CALL_ADDRESS) it)
  end.

(** Modelled from the spec: [AdvanceCall<CALL_CONTROL_EXPR>]; the control
    expression if present. *)
Definition AdvanceCall_CONTROL_EXPR (it : GenTreeUseEdgeIterator) : GenTreeUseEdgeIterator :=
  match gtControlExpr with
  | Some _ => with_advance (AdvanceCall CALL_COOKIE) (with_edge (gtControlExpr_slot node) it)
  | None => AdvanceCall_COOKIE (with_advance (AdvanceCall CALL_COOKIE) it)
  end.

(** Modelled from the spec: [AdvanceCall<CALL_LATE_ARGS>]; the next live
    late node, else on to the control expression. *)
Definition AdvanceCall_LATE_ARGS (it : GenTreeUseEdgeIterator)
    : option GenTreeUseEdgeIterator :=
  r ← next_late fuel (callArgs mem) (m_statePtr it);
  match r with
  | Some (arg, nxt) => Some (with_statePtr nxt (with_edge (LateNodeRef arg) it))
  | None =>
      Some (AdvanceCall_CONTROL_EXPR
              (with_advance (AdvanceCall CALL_CONTROL_EXPR) (with_statePtr None it)))
  end.

(** Modelled from the spec: [AdvanceCall<CALL_ARGS>]; the next live early
    node, else on to the late list from its head. *)
Definition AdvanceCall_ARGS (it : GenTreeUseEdgeIterator) : option GenTreeUseEdgeIterator :=
  r ← next_early fuel (callArgs mem) (m_statePtr it);
  match r with
  | Some (arg, nxt) => Some (with_statePtr nxt (with_edge (EarlyNodeRef arg) it))
  | None =>
      AdvanceCall_LATE_ARGS
        (with_advance (AdvanceCall CALL_LATE_ARGS) (with_statePtr (m_lateHead gtArgs) it))
  end.

(** Modelled from the spec: the instance of the template for each state. *)
Definition do_AdvanceCall (state : CallState) (it : GenTreeUseEdgeIterator)
    : option GenTreeUseEdgeIterator :=
  match state with
  | CALL_ARGS => AdvanceCall_ARGS it
  | CALL_LATE_ARGS => AdvanceCall_LATE_ARGS it
  | CALL_CONTROL_EXPR => Some (AdvanceCall_CONTROL_EXPR it)
  | CALL_COOKIE => Some (AdvanceCall_COOKIE it)
  | CALL_ADDRESS => Some (AdvanceCall_ADDRESS it)
  | CALL_TERMINAL => Some (do_Terminate it)
  end.
End AdvanceCall.

(** Modelled from the spec: the constructor [GenTreeUseEdgeIterator(node)],
    declared in the header and defined elsewhere.  It starts in state 0 on
    the node's first live slot, or exhausted when there is none. *)
Definition GenTreeUseEdgeIterator_ctor (fuel : nat) (mem : Memory) (node : addr)
    : option GenTreeUseEdgeIterator :=
  n ← nodes mem !! node;
  let it := mkIter None (Some node) None None 0 in
  match payload n with
  | LeafPayload => Some (do_Terminate it)
  | OpPayload op1 op2 => Some (SetEntryStateForBinOp node (gtFlags n) op1 op2 it)
  | CopyOrReloadPayload op1 _ =>
      match op1 with
      | Some _ => Some (with_advance Terminate (with_edge (gtOp1_slot node) it))
      | None => Some (do_Terminate it)
      end
  | CallPayload args ct cookie control target =>
      AdvanceCall_ARGS fuel mem node args ct cookie control target
        (with_advance (AdvanceCall CALL_ARGS) (with_statePtr (m_head args) it))
  end.

(** Modelled from the spec: [GenTree::UseEdgesBegin] and
    [GenTree::UseEdgesEnd], declared in the header and defined elsewhere;
    the iterator on the node and the exhausted iterator. *)
Definition UseEdgesBegin (fuel : nat) (mem : Memory) (node : addr)
    : option GenTreeUseEdgeIterator :=
  GenTreeUseEdgeIterator_ctor fuel mem node.
Definition UseEdgesEnd : GenTreeUseEdgeIterator := GenTreeUseEdgeIterator_default.

(** Modelled from the spec: [operator++], declared in the header and
    defined elsewhere.  Past the last operand it stays exhausted;
    otherwise it calls the advance function the iterator holds. *)
Definition iter_incr (fuel : nat) (mem : Memory) (it : GenTreeUseEdgeIterator)
    : option GenTreeUseEdgeIterator :=
  if m_state it =? -1 then Some it
  else
    node ← m_node it;
    n ← nodes mem !! node;
    f ← m_advance it;
    match f with
    | Terminate => Some (do_Terminate it)
    | AdvanceBinOp rev => Some (do_AdvanceBinOp rev node it)
    | AdvanceCall state =>
        match payload n with
        | CallPayload args ct cookie control target =>
            do_AdvanceCall fuel mem node args ct cookie control target state it
        | _ => None
        end
    end.

(** The edges produced by [for (it = begin; it != end; ++it)], in order. *)
Fixpoint edges_from (fuel : nat) (mem : Memory) (it : GenTreeUseEdgeIterator)
    : option (list UseEdge) :=
  if iter_eq it UseEdgesEnd then Some []
  else
    match fuel with
    | O => None
    | S fuel' =>
        e ← m_edge it;
        it' ← iter_incr fuel mem it;
        l ← edges_from fuel' mem it';
        Some (e :: l)
    end.

Definition UseEdges (fuel : nat) (mem : Memory) (node : addr) : option (list UseEdge) :=
  it ← UseEdgesBegin fuel mem node;
  edges_from fuel mem it.

(** *** What a call's edges should be *)

(** [p] heads a null-terminated list of the arguments at [l], linked by
    [next]. *)
Fixpoint linked (next : CallArg -> CallArgPtr) (args : gmap addr CallArg)
    (p : CallArgPtr) (l : list addr) : Prop :=
  match l with
  | [] => p = None
  | a :: l' => p = Some a ∧ ∃ arg, args !! a = Some arg ∧ linked next args (next arg) l'
  end.

Definition live_early (args : gmap addr CallArg) (a : addr) : bool :=
  match args !! a with
  | Some arg => bool_decide (m_earlyNode arg ≠ None)
  | None => false
  end.

Definition live_late (args : gmap addr CallArg) (a : addr) : bool :=
  match args !! a with
  | Some arg => bool_decide (m_lateNode arg ≠ None)
  | None => false
  end.

Definition optional_edge (p : GenTreePtr) (e : UseEdge) : list UseEdge :=
  match p with
  | Some _ => [e]
  | None => []
  end.

Definition indirect_target (ct : gtCallTypes) (gtCallAddr : GenTreePtr) : GenTreePtr :=
  match ct with
  | CT_INDIRECT => gtCallAddr
  | _ => None
  end.

(** The cookie of a call: an operand of indirect calls only. *)
Definition cookie_operand (ct : gtCallTypes) (gtCallCookie : GenTreePtr) : GenTreePtr :=
  match ct with
  | CT_INDIRECT => gtCallCookie
  | _ => None
  end.

(** The edges after the argument lists, in the order of the iterator's
    states. *)
Definition after_args (node : addr) (ct : gtCallTypes)
    (gtCallCookie gtControlExpr gtCallAddr : GenTreePtr) : list UseEdge :=
  optional_edge gtControlExpr (gtControlExpr_slot node)
  ++ optional_edge (cookie_operand ct gtCallCookie) (gtCallCookie_slot node)
  ++ optional_edge (indirect_target ct gtCallAddr) (gtCallAddr_slot node).

(** The live slots of a call in the order of the iterator's states. *)
Definition call_edges (args : gmap addr CallArg) (node : addr) (early late : list addr)
    (ct : gtCallTypes) (gtCallCookie gtControlExpr gtCallAddr : GenTreePtr) : list UseEdge :=
  (EarlyNodeRef <$> List.filter (live_early args) early)
  ++ (LateNodeRef <$> List.filter (live_late args) late)
  ++ after_args node ct gtCallCookie gtControlExpr gtCallAddr.

(** The live slots of a call as the specification lists them: the two
    argument lists, the control-target expression, the
    indirect-call-target expression, "and no others". *)
Definition listed_call_edges (args : gmap addr CallArg) (node : addr) (early late : list addr)
    (ct : gtCallTypes) (gtControlExpr gtCallAddr : GenTreePtr) : list UseEdge :=
  (EarlyNodeRef <$> List.filter (live_early args) early)
  ++ (LateNodeRef <$> List.filter (live_late args) late)
  ++ optional_edge gtControlExpr (gtControlExpr_slot node)
  ++ optional_edge (indirect_target ct gtCallAddr) (gtCallAddr_slot node).

End UseEdges.

(** ** Sample nodes, stores and iterators *)

Module Samples.
Import GTF Node FieldSeq UseEdges.

(** A base constructor that gives a node no flags. *)
Definition plain_ctor (oper : genTreeOps) (type : var_types) : GenTree :=
  mkGenTree oper type GTF_EMPTY (mkVNPair 0 0) 0 LeafPayload.

(** A leaf that may call and one that may throw. *)
Definition calling_leaf : GenTree :=
  mkGenTree 7 3 (flags_or GTF_CALL GTF_DONT_CSE) (mkVNPair 11 12) 0 LeafPayload.
Definition throwing_leaf : GenTree :=
  mkGenTree 8 3 (flags_or GTF_EXCEPT GTF_GLOB_REF) (mkVNPair 13 14) 0 LeafPayload.

(** A binary node over the two leaves with stale flags: assign and call
    bits, and [GTF_REVERSE_OPS]. *)
Definition stale_parent : GenTree :=
  mkGenTree 9 3 (flags_or (flags_or GTF_ASG GTF_CALL) GTF_REVERSE_OPS) (mkVNPair 15 16) 0
    (OpPayload (Some 1%N) (Some 2%N)).

Definition sample_heap : gmap N GenTree :=
  <[3%N := stale_parent]> (<[2%N := throwing_leaf]> (<[1%N := calling_leaf]> ∅)).

(** A call with three arguments: the first and the third have early
    nodes, the second and the third are on the late list. *)
Definition sample_args : gmap N CallArg :=
  <[1%N := mkCallArg (Some 21%N) None (Some 2%N) None]>
    (<[2%N := mkCallArg None (Some 22%N) (Some 3%N) (Some 3%N)]>
       (<[3%N := mkCallArg (Some 23%N) (Some 24%N) None None]> ∅)).

Definition sample_call : GenTree :=
  mkGenTree 50 3 GTF_CALL (mkVNPair 0 0) 0
    (CallPayload (mkCallArgs (Some 1%N) (Some 2%N)) CT_INDIRECT
       (Some 30%N) (Some 31%N) (Some 32%N)).

Definition sample_memory : Memory :=
  mkMemory (<[10%N := sample_call]> sample_heap) sample_args.

(** A fresh copy of the calling leaf, on a target with four return
    registers and [REG_NA = 64]. *)
Definition fresh_copy : GenTree :=
  mkGenTree 60 3 GTF_CALL (mkVNPair 0 0) 64 (CopyOrReloadPayload (Some 1%N) [64; 64; 64]).

(** Two groupings of the chain [a.b.c]. *)
Definition left_nested : Build :=
  Concat (Concat (Singleton 8 Instance) (Singleton 16 SimpleStatic)) (Singleton 24 Instance).
Definition right_nested : Build :=
  Concat (Singleton 8 Instance) (Concat (Singleton 16 SimpleStatic) (Singleton 24 Instance)).

(** Iterators on two different nodes, in state 0. *)
Definition iter_on (node : N) : GenTreeUseEdgeIterator :=
  mkIter (Some Terminate) (Some node) (Some (gtOp1_slot node)) None 0.

End Samples.

(** ** Flag bits of single nodes: last uses, spill state, toggles *)

Module NodeBits.
Import GTF Node.

Definition GTF_NOREG_AT_USE : Z := 0x00000100.
Definition GTF_SPILL : Z := 0x00020000.

Definition GTF_VAR_MULTIREG_DEATH0 : Z := 0x04000000.
Definition GTF_VAR_DEATH : Z := GTF_VAR_MULTIREG_DEATH0.
Definition GTF_VAR_MULTIREG_DEATH1 : Z := 0x08000000.
Definition GTF_VAR_MULTIREG_DEATH2 : Z := 0x10000000.
Definition GTF_VAR_MULTIREG_DEATH3 : Z := 0x20000000.
Definition GTF_VAR_DEATH_MASK : Z :=
  flags_or (flags_or (flags_or GTF_VAR_MULTIREG_DEATH0 GTF_VAR_MULTIREG_DEATH1)
              GTF_VAR_MULTIREG_DEATH2) GTF_VAR_MULTIREG_DEATH3.

Definition MULTIREG_LAST_USE_SHIFT : Z := 26.

(** [GetLastUseBit(regIndex)]: [1 << (MULTIREG_LAST_USE_SHIFT + regIndex)]. *)
Definition GetLastUseBit (regIndex : Z) : Z := Z.shiftl 1 (MULTIREG_LAST_USE_SHIFT + regIndex).

Definition IsLastUse (regIndex : Z) (this : GenTree) : bool :=
  negb (flags_and (gtFlags this) (GetLastUseBit regIndex) =? 0).

Definition HasLastUse (this : GenTree) : bool :=
  negb (flags_and (gtFlags this) GTF_VAR_DEATH_MASK =? 0).

Definition SetLastUse (regIndex : Z) (this : GenTree) : GenTree :=
  with_flags (flags_or (gtFlags this) (GetLastUseBit regIndex)) this.

Definition ClearLastUse (regIndex : Z) (this : GenTree) : GenTree :=
  with_flags (flags_and (gtFlags this) (flags_not (GetLastUseBit regIndex))) this.

(** [CanCSE], [SetDoNotCSE] and [ClearDoNotCSE]. *)
Definition CanCSE (this : GenTree) : bool := flags_and (gtFlags this) GTF_DONT_CSE =? 0.
Definition SetDoNotCSE (this : GenTree) : GenTree :=
  with_flags (flags_or (gtFlags this) GTF_DONT_CSE) this.
Definition ClearDoNotCSE (this : GenTree) : GenTree :=
  with_flags (flags_and (gtFlags this) (flags_not GTF_DONT_CSE)) this.

(** [isUsedFromSpillTemp]. *)
Definition isUsedFromSpillTemp (this : GenTree) : bool :=
  negb (flags_and (gtFlags this) GTF_SPILLED =? 0)
  && negb (flags_and (gtFlags this) GTF_NOREG_AT_USE =? 0).

(** *** The packed spill flags of multi-register nodes *)

(** [MultiRegSpillFlags] is an [unsigned char]. *)
Definition to_uchar (x : Z) : Z := x mod 256.

Definition PACKED_GTF_SPILL : Z := 1.
Definition PACKED_GTF_SPILLED : Z := 2.

(** [GetMultiRegSpillFlagsByIdx(flags, idx)]. *)
Definition GetMultiRegSpillFlagsByIdx (flags : Z) (idx : Z) : Z :=
  let bits := Z.shiftr flags (idx * 2) in
  let spillFlags := GTF_EMPTY in
  let spillFlags :=
    if negb (Z.land bits PACKED_GTF_SPILL =? 0) then flags_or spillFlags GTF_SPILL
    else spillFlags in
  let spillFlags :=
    if negb (Z.land bits PACKED_GTF_SPILLED =? 0) then flags_or spillFlags GTF_SPILLED
    else spillFlags in
  spillFlags.

(** [SetMultiRegSpillFlagsByIdx(oldFlags, flagsToSet, idx)]. *)
Definition SetMultiRegSpillFlagsByIdx (oldFlags : Z) (flagsToSet : Z) (idx : Z) : Z :=
  let newFlags := oldFlags in
  let bits := 0 in
  let bits :=
    if negb (flags_and flagsToSet GTF_SPILL =? 0) then Z.lor bits PACKED_GTF_SPILL else bits in
  let bits :=
    if negb (flags_and flagsToSet GTF_SPILLED =? 0) then Z.lor bits PACKED_GTF_SPILLED
    else bits in
  let packedFlags := Z.lor PACKED_GTF_SPILL PACKED_GTF_SPILLED in
  to_uchar (Z.lor (Z.land newFlags (Z.lnot (Z.shiftl packedFlags (idx * 2))))
              (Z.shiftl bits (idx * 2))).

(** The part of a flag word the packed array can hold. *)
Definition spill_part (f : Z) : Z :=
  flags_or (if negb (flags_and f GTF_SPILL =? 0) then GTF_SPILL else GTF_EMPTY)
           (if negb (flags_and f GTF_SPILLED =? 0) then GTF_SPILLED else GTF_EMPTY).

(** Exhaustive check of the packed array over all bytes and positions,
    for each of the four spill states written. *)
Definition spill_flags_check (s1 s2 : bool) : bool :=
  let f := flags_or (if s1 then GTF_SPILL else 0) (if s2 then GTF_SPILLED else 0) in
  forallb (fun old =>
    forallb (fun idx =>
      let new := SetMultiRegSpillFlagsByIdx (Z.of_nat old) f (Z.of_nat idx) in
      (0 <=? new) && (new <? 256)
      && (GetMultiRegSpillFlagsByIdx new (Z.of_nat idx) =? f)
      && forallb (fun j =>
           Nat.eqb j idx
           || (GetMultiRegSpillFlagsByIdx new (Z.of_nat j)
               =? GetMultiRegSpillFlagsByIdx (Z.of_nat old) (Z.of_nat j)))
           (seq 0 4))
      (seq 0 4))
    (seq 0 256).

End NodeBits.

(** ** Copying register arrays; the return type descriptor *)

Module MultiRegDesc.
Import GTF Node.

Section CopyOtherRegs.
Variable MAX_RET_REG_COUNT : nat.
(** Whether the build defines [UNIX_AMD64_ABI]. *)
Variable UNIX_AMD64_ABI : bool.

(** The loop [for (i = 0; i < MAX_RET_REG_COUNT - 1; ++i)
    gtOtherRegs[i] = from->gtOtherRegs[i]]; a read or write outside an
    array gives [None]. *)
Definition copy_regs (from regs : list Z) : option (list Z) :=
  foldl (fun acc i =>
           rs ← acc;
           r ← from !! i;
           if decide (i < length rs)%nat then Some (<[i := r]> rs) else None)
    (Some regs) (seq 0 (MAX_RET_REG_COUNT - 1)).

(** [GenTreeCopyOrReload::CopyOtherRegs(from)]: the loop is compiled only
    under [UNIX_AMD64_ABI]. *)
Definition CopyOtherRegs (from this : GenTree) : option GenTree :=
  if UNIX_AMD64_ABI then
    src ← gtOtherRegs_of from;
    regs ← gtOtherRegs_of this;
    regs' ← copy_regs src regs;
    Some (with_otherRegs regs' this)
  else Some this.
End CopyOtherRegs.

Section ReturnTypeDesc.
Variable MAX_RET_REG_COUNT : nat.
(** [TYP_UNKNOWN], an enumerator of [var_types]. *)
Variable TYP_UNKNOWN : var_types.

Record ReturnTypeDesc := mkReturnTypeDesc {
  m_regType : list Z;
  m_isEnclosingType : bool
}.

(** The counting loop of [GetReturnRegCount], at index [i] with [regCount]
    counted so far and [todo] iterations left before [i] reaches
    [MAX_RET_REG_COUNT]. *)
Fixpoint count_regs (regs : list Z) (todo : nat) (i : nat) (regCount : Z) : option Z :=
  match todo with
  | O => Some regCount
  | S todo' =>
      t ← regs !! i;
      if decide (t = TYP_UNKNOWN) then Some regCount
      else count_regs regs todo' (S i) (regCount + 1)
  end.

Definition GetReturnRegCount (this : ReturnTypeDesc) : option Z :=
  count_regs (m_regType this) MAX_RET_REG_COUNT 0 0.

(** [IsMultiRegRetType]. *)
Definition IsMultiRegRetType (this : ReturnTypeDesc) : option bool :=
  if decide (MAX_RET_REG_COUNT < 2)%nat then Some false
  else
    t0 ← m_regType this !! 0%nat;
    t1 ← m_regType this !! 1%nat;
    Some (bool_decide (t0 ≠ TYP_UNKNOWN) && bool_decide (t1 ≠ TYP_UNKNOWN)).

(** [GetReturnRegType(index)]. *)
Definition GetReturnRegType (index : nat) (this : ReturnTypeDesc) : option var_types :=
  m_regType this !! index.
End ReturnTypeDesc.

End MultiRegDesc.

(** ** What an operand slot adds to its parent *)

Module Operands.
Import GTF Node.

(** The effect flags read through an operand pointer; a null pointer has
    none. *)
Definition operand_effects (h : gmap N GenTree) (p : option N) : Z :=
  match deref h p with
  | Some a => effects a
  | None => GTF_EMPTY
  end.

(** The value of a flag word as a set of bits is below another. *)
Definition flags_subset (f g : Z) : Prop := flags_and f g = f.

End Operands.

(** ** Fields that pack without loss *)

Module FieldSeqWords.
Import FieldSeq.

(** A (field identifier, field kind) pair whose two parts do not overlap
    in the node's word: the identifier is a pointer-sized value with the
    two bits of [FIELD_KIND_MASK] clear, the kind is one of the three
    enumerators of [FieldKind]. *)
Definition packable (fk : Z * Z) : Prop :=
  0 <= fst fk < 2 ^ UINTPTR_BITS
  ∧ Z.land (fst fk) FIELD_KIND_MASK = 0
  ∧ Instance <= snd fk <= SharedStatic.

End FieldSeqWords.

(** ** The tail of a field sequence *)

Module FieldSeqTail.
Import FieldSeq.

(** The loop of [FieldSeqNode::GetTail], [while (tail->m_next != nullptr)
    tail = tail->m_next], with [fuel] iterations allowed; reading through
    a null or dangling pointer gives [None]. *)
Fixpoint GetTail_walk (fuel : nat) (st : FieldSeqStore) (tail : FieldSeqPtr)
    : option FieldSeqPtr :=
  n ← load st tail;
  match m_next n with
  | nullptr => Some tail
  | next =>
      match fuel with
      | O => None
      | S fuel' => GetTail_walk fuel' st next
      end
  end.

(** [this->GetTail()]; a chain in the store is no longer than the arena. *)
Definition GetTail (st : FieldSeqStore) (this : FieldSeqPtr) : option FieldSeqPtr :=
  GetTail_walk (length (m_alloc st)) st this.

(** [IsSharedStaticField]. *)
Definition IsSharedStaticField (this : FieldSeqNode) : bool := GetKind this =? SharedStatic.

End FieldSeqTail.

(** ** Assertion indices and CSE numbers *)

Module Assertions.

Definition to_uint32 (x : Z) : Z := x mod 2 ^ 32.
Definition to_ushort (x : Z) : Z := x mod 2 ^ 16.

(** [typedef unsigned short AssertionIndex]. *)
Definition NO_ASSERTION_INDEX : Z := 0.

(** The free function [GetAssertionIndex(unsigned index)]:
    [(AssertionIndex)(index + 1)]. *)
Definition GetAssertionIndex (index : Z) : Z := to_ushort (to_uint32 (index + 1)).

(** The two bit-fields of [class AssertionInfo]: one bit and fifteen bits. *)
Record AssertionInfo := mkAssertionInfo {
  m_isNextEdgeAssertion : Z;
  m_assertionIndex : Z
}.

(** The private constructor; a bit-field keeps the low bits of what is
    stored in it. *)
Definition AssertionInfo_ctor (isNextEdgeAssertion : bool) (assertionIndex : Z)
    : AssertionInfo :=
  mkAssertionInfo ((if isNextEdgeAssertion then 1 else 0) mod 2 ^ 1)
    (assertionIndex mod 2 ^ 15).

Definition AssertionInfo_default : AssertionInfo := AssertionInfo_ctor false 0.
Definition AssertionInfo_of (assertionIndex : Z) : AssertionInfo :=
  AssertionInfo_ctor false assertionIndex.

(** [ForNextEdge]: "ignore the edge information if there's no assertion". *)
Definition ForNextEdge (assertionIndex : Z) : AssertionInfo :=
  let isNextEdge := negb (assertionIndex =? NO_ASSERTION_INDEX) in
  AssertionInfo_ctor isNextEdge assertionIndex.

Definition Clear (this : AssertionInfo) : AssertionInfo :=
  mkAssertionInfo 0 NO_ASSERTION_INDEX.
Definition HasAssertion (this : AssertionInfo) : bool :=
  negb (m_assertionIndex this =? NO_ASSERTION_INDEX).
Definition AssertionIndex_of (this : AssertionInfo) : Z := m_assertionIndex this.
Definition IsNextEdgeAssertion (this : AssertionInfo) : bool :=
  negb (m_isNextEdgeAssertion this =? 0).

(** The CSE macros over [gtCSEnum]: "0 or the CSE index (negated if def)". *)
Definition NO_CSE : Z := 0.
Definition IS_CSE_INDEX (x : Z) : bool := negb (x =? 0).
Definition IS_CSE_USE (x : Z) : bool := x >? 0.
Definition IS_CSE_DEF (x : Z) : bool := x <? 0.
Definition GET_CSE_INDEX (x : Z) : Z := if x >? 0 then x else - x.
Definition TO_CSE_DEF (x : Z) : Z := - x.

(** A value that fits [signed char], the type of [gtCSEnum]. *)
Definition fits_schar (x : Z) : Prop := -128 <= x <= 127.

End Assertions.

(** ** Field lists *)

Module FieldList.
Import Node.

Definition UINT16_MAX : Z := 65535.
Definition to_uint16 (x : Z) : Z := x mod 2 ^ 16.

(** A [Use*]: null or the address of a [Use]. *)
Abbreviation UsePtr := (option addr) (only parsing).

(** [GenTreeFieldList::Use]. *)
Record Use := mkUse {
  m_node : GenTreePtr;
  m_next : UsePtr;
  m_offset : Z;
  m_type : var_types
}.

(** [Use(node, offset, type)]: the offset is stored as [uint16_t]. *)
Definition Use_ctor (node : GenTreePtr) (offset : Z) (type : var_types) : Use :=
  mkUse node None (to_uint16 offset) type.

Definition GetNode (this : Use) : GenTreePtr := m_node this.
Definition GetNext (this : Use) : UsePtr := m_next this.
Definition SetNext (this : Use) (next : UsePtr) : Use :=
  mkUse (m_node this) next (m_offset this) (m_type this).
Definition GetOffset (this : Use) : Z := m_offset this.
Definition GetType (this : Use) : var_types := m_type this.

(** What a use carries besides its link. *)
Definition use_payload (u : Use) : GenTreePtr * Z * var_types :=
  (GetNode u, GetOffset u, GetType u).

(** The uses live in memory, and every list links them in place. *)
Abbreviation UseHeap := (gmap addr Use) (only parsing).

(** [GenTreeFieldList::UseList]. *)
Record UseList := mkUseList {
  m_head : UsePtr;
  m_tail : UsePtr
}.

Definition UseList_ctor : UseList := mkUseList None None.
Definition GetHead (this : UseList) : UsePtr := m_head this.

(** [AddUse]; reading through a null or dangling pointer gives [None]. *)
Definition AddUse (h : UseHeap) (this : UseList) (newUse : UsePtr)
    : option (UseHeap * UseList) :=
  match m_head this with
  | None => Some (h, mkUseList newUse newUse)
  | Some _ =>
      t ← m_tail this;
      u ← h !! t;
      Some (<[t := SetNext u newUse]> h, mkUseList (m_head this) newUse)
  end.

(** [InsertUse]: the two stores happen in the source's order, the second
    one reading the memory the first one left. *)
Definition InsertUse (h : UseHeap) (this : UseList) (insertAfter newUse : UsePtr)
    : option (UseHeap * UseList) :=
  a ← insertAfter;
  ua ← h !! a;
  n ← newUse;
  un ← h !! n;
  let h1 := <[n := SetNext un (GetNext ua)]> h in
  ua' ← h1 !! a;
  let h2 := <[a := SetNext ua' newUse]> h1 in
  Some (h2, if bool_decide (m_tail this = insertAfter)
            then mkUseList (m_head this) newUse
            else this).

(** The loop of [Reverse]: [use] walks the old list while [m_head]
    collects the nodes already turned around. *)
Fixpoint Reverse_loop (fuel : nat) (h : UseHeap) (head use : UsePtr)
    : option (UseHeap * UsePtr) :=
  match use with
  | None => Some (h, head)
  | Some a =>
      match fuel with
      | O => None
      | S fuel' =>
          u ← h !! a;
          let next := GetNext u in
          Reverse_loop fuel' (<[a := SetNext u head]> h) (Some a) next
      end
  end.

(** [Reverse]; a list has no more uses than the memory holds. *)
Definition Reverse (h : UseHeap) (this : UseList) : option (UseHeap * UseList) :=
  '(h', head) ← Reverse_loop (size h) h None (m_head this);
  Some (h', mkUseList head (m_head this)).

(** The loop of [IsSorted], from [begin()] to [end()], which is null. *)
Fixpoint IsSorted_loop (fuel : nat) (h : UseHeap) (use : UsePtr) (offset : Z)
    : option bool :=
  match use with
  | None => Some true
  | Some a =>
      match fuel with
      | O => None
      | S fuel' =>
          u ← h !! a;
          if GetOffset u <? offset then Some false
          else IsSorted_loop fuel' h (GetNext u) (GetOffset u)
      end
  end.

Definition IsSorted (h : UseHeap) (this : UseList) : option bool :=
  IsSorted_loop (size h) h (m_head this) 0.

Section Equals.

(** [GenTree::Compare(op1, op2)], declared in the header and defined
    elsewhere. *)
Variable Compare : GenTreePtr -> GenTreePtr -> bool.

(** The test of one pair of uses in [Equals]. *)
Definition uses_differ (u1 u2 : Use) : bool :=
  negb (Compare (GetNode u1) (GetNode u2))
  || negb (GetOffset u1 =? GetOffset u2)
  || negb (GetType u1 =? GetType u2).

Fixpoint Equals_loop (fuel : nat) (h : UseHeap) (i1 i2 : UsePtr) : option bool :=
  match i1, i2 with
  | Some a1, Some a2 =>
      match fuel with
      | O => None
      | S fuel' =>
          u1 ← h !! a1;
          u2 ← h !! a2;
          if uses_differ u1 u2 then Some false
          else Equals_loop fuel' h (GetNext u1) (GetNext u2)
      end
  | _, _ => Some (bool_decide (i1 = None) && bool_decide (i2 = None))
  end.

(** Two uses that [Equals] takes for equal. *)
Definition uses_match (h : UseHeap) (a1 a2 : addr) : Prop :=
  exists u1 u2, h !! a1 = Some u1 /\ h !! a2 = Some u2
                /\ Compare (GetNode u1) (GetNode u2) = true
                /\ GetOffset u1 = GetOffset u2
                /\ GetType u1 = GetType u2.

(** [GenTreeFieldList::Equals], on the use lists of the two nodes. *)
Definition Equals (h : UseHeap) (uses1 uses2 : UseList) : option bool :=
  Equals_loop (size h) h (m_head uses1) (m_head uses2).

End Equals.

(** *** What a use list is *)

(** The uses linked from [p] up to [q], in order. *)
Fixpoint chain_seg (h : UseHeap) (p : UsePtr) (l : list addr) (q : UsePtr) : Prop :=
  match l with
  | [] => p = q
  | a :: l' => p = Some a ∧ ∃ u, h !! a = Some u ∧ chain_seg h (m_next u) l' q
  end.

(** A list: linked from [p] and closed by null. *)
Definition chain_from (h : UseHeap) (p : UsePtr) (l : list addr) : Prop :=
  chain_seg h p l None.

(** A well-formed [UseList] over the uses [l]: linked from [m_head], with
    [m_tail] the last use when there is one. *)
Definition list_ok (h : UseHeap) (ul : UseList) (l : list addr) : Prop :=
  chain_from h (m_head ul) l ∧ (l ≠ [] → m_tail ul = last l).

(** The second memory has the same uses as the first, up to their links. *)
Definition same_payload (h h' : UseHeap) : Prop :=
  ∀ a, use_payload <$> (h' !! a) = use_payload <$> (h !! a).

Definition offset_at (h : UseHeap) (a : addr) : Z :=
  from_option GetOffset 0 (h !! a).

End FieldList.

(** ** Chains of commas and other wrappers *)

Module CommaChains.
Import GTF Node.

Definition with_type (t : var_types) (n : GenTree) : GenTree :=
  mkGenTree (gtOper n) t (gtFlags n) (gtVNPair n) (_gtRegNum n) (payload n).

(** [AsOp()->gtOp1] and [AsOp()->gtOp2]: the operand fields of a node laid
    out as a [GenTreeOp]; a node that has no such field gives [None]. *)
Definition AsOp_gtOp1 (n : GenTree) : option GenTreePtr :=
  match payload n with
  | OpPayload op1 _ => Some op1
  | CopyOrReloadPayload op1 _ => Some op1
  | _ => None
  end.

Definition AsOp_gtOp2 (n : GenTree) : option GenTreePtr :=
  match payload n with
  | OpPayload _ op2 => Some op2
  | _ => None
  end.

(** [gtGetOp2]; its assertions are debug-only checks. *)
Definition gtGetOp2 (this : GenTree) : option GenTreePtr := AsOp_gtOp2 this.

Section Wrappers.

(** [GT_COMMA] and [GT_NOP] are enumerators of [genTreeOps], declared in
    another header. *)
Variable GT_COMMA : genTreeOps.
Variable GT_NOP : genTreeOps.

(** The loop of [gtEffectiveVal]; reading through a null or dangling
    pointer gives [None]. *)
Fixpoint gtEffectiveVal_loop (fuel : nat) (h : Heap) (commaOnly : bool)
    (effectiveVal : GenTreePtr) : option GenTreePtr :=
  n ← deref h effectiveVal;
  if gtOper n =? GT_COMMA then
    match fuel with
    | O => None
    | S fuel' =>
        op2 ← gtGetOp2 n;
        gtEffectiveVal_loop fuel' h commaOnly op2
    end
  else if negb commaOnly && (gtOper n =? GT_NOP) then
    op1 ← AsOp_gtOp1 n;
    match op1 with
    | Some _ =>
        match fuel with
        | O => None
        | S fuel' => gtEffectiveVal_loop fuel' h commaOnly op1
        end
    | None => Some effectiveVal
    end
  else Some effectiveVal.

(** [this->gtEffectiveVal(commaOnly)]; a chain of wrappers has no more
    nodes than the memory holds. *)
Definition gtEffectiveVal (h : Heap) (this : addr) (commaOnly : bool) : option GenTreePtr :=
  gtEffectiveVal_loop (size h) h commaOnly (Some this).

(** The loop of [ChangeType]. *)
Fixpoint ChangeType_loop (fuel : nat) (h : Heap) (newType : var_types) (node : GenTreePtr)
    : option Heap :=
  n ← deref h node;
  if gtOper n =? GT_COMMA then
    match fuel with
    | O => None
    | S fuel' =>
        op2 ← gtGetOp2 n;
        n2 ← deref h op2;
        a2 ← op2;
        let h' := if negb (gtType n2 =? newType)
                  then <[a2 := with_type newType n2]> h
                  else h in
        ChangeType_loop fuel' h' newType op2
    end
  else Some h.

(** [this->ChangeType(newType)]. *)
Definition ChangeType (h : Heap) (this : addr) (newType : var_types) : option Heap :=
  n ← h !! this;
  ChangeType_loop (size h) (<[this := with_type newType n]> h) newType (Some this).

(** *** The nodes a wrapper chain goes through *)

(** The loop of [gtEffectiveVal] moves from a node [n] on to [b]. *)
Definition moves_to (commaOnly : bool) (n : GenTree) (b : addr) : Prop :=
  if gtOper n =? GT_COMMA then gtGetOp2 n = Some (Some b)
  else negb commaOnly && (gtOper n =? GT_NOP) = true ∧ AsOp_gtOp1 n = Some (Some b).

(** The loop returns the node [n]. *)
Definition stops_at (commaOnly : bool) (n : GenTree) : Prop :=
  (gtOper n =? GT_COMMA) = false
  ∧ (negb commaOnly && (gtOper n =? GT_NOP) = true → AsOp_gtOp1 n = Some None).

(** From [a] the loop goes through the nodes [l] and ends at [last]. *)
Fixpoint wrapper_path (commaOnly : bool) (h : Heap) (a : addr) (l : list addr) (last : addr)
    : Prop :=
  match l with
  | [] => a = last ∧ ∃ n, h !! a = Some n ∧ stops_at commaOnly n
  | b :: l' =>
      (∃ n, h !! a = Some n ∧ moves_to commaOnly n b)
      ∧ wrapper_path commaOnly h b l' last
  end.

End Wrappers.

End CommaChains.

(** ** More sample data *)

Module MoreSamples.
Import GTF Node Samples.

(** A multi-register local whose second field dies here. *)
Definition multireg_local : GenTree :=
  mkGenTree 70 3 (flags_or GTF_GLOB_REF (NodeBits.GetLastUseBit 1)) (mkVNPair 0 0) 0 LeafPayload.

(** What the binary constructor builds over the two sample leaves. *)
Definition built_parent : GenTree :=
  mkGenTree 9 3 (flags_or GTF_CALL (flags_or GTF_EXCEPT GTF_GLOB_REF)) (mkVNPair 0 0) 0
    (OpPayload (Some 1%N) (Some 2%N)).

(** A copy whose only register is at position 2: position 0 is empty. *)
Definition gap_copy : GenTree :=
  mkGenTree 60 3 GTF_CALL (mkVNPair 0 0) 64 (CopyOrReloadPayload (Some 1%N) [64; 6; 64]).

(** A copy with registers at positions 1 and 3, on a target with four
    return registers and [REG_NA = 64]. *)
Definition filled_copy : GenTree :=
  mkGenTree 60 3 GTF_EMPTY (mkVNPair 0 0) 3 (CopyOrReloadPayload (Some 1%N) [5; 64; 7]).

(** A descriptor of a value returned in two registers, with
    [TYP_UNKNOWN = 0]. *)
Definition two_reg_desc : MultiRegDesc.ReturnTypeDesc :=
  MultiRegDesc.mkReturnTypeDesc [10; 10; 0; 0] false.

(** A shared static field and an instance field with the same handle. *)
Definition shared_static_node : FieldSeq.FieldSeqNode :=
  FieldSeq.mkFieldSeqNode 4098 FieldSeq.nullptr.
Definition instance_node : FieldSeq.FieldSeqNode :=
  FieldSeq.mkFieldSeqNode 4096 FieldSeq.nullptr.

(** The store after building the chain [a.b.c]. *)
Definition built_store : FieldSeq.FieldSeqStore :=
  match FieldSeq.build left_nested FieldSeq.FieldSeqStore_ctor with
  | Some (st, _) => st
  | None => FieldSeq.FieldSeqStore_ctor
  end.

(** A field list of three uses at offsets 0, 8 and 16, a second list with
    the same nodes, offsets and types, and two uses not yet linked. *)
Definition sample_uses : gmap N FieldList.Use :=
  <[10%N := FieldList.mkUse (Some 1%N) (Some 11%N) 0 3]>
    (<[11%N := FieldList.mkUse (Some 2%N) (Some 12%N) 8 3]>
       (<[12%N := FieldList.mkUse (Some 3%N) None 16 3]>
          (<[13%N := FieldList.Use_ctor (Some 2%N) 4 3]>
             (<[20%N := FieldList.mkUse (Some 1%N) (Some 21%N) 0 3]>
                (<[21%N := FieldList.mkUse (Some 2%N) (Some 22%N) 8 3]>
                   (<[22%N := FieldList.mkUse (Some 3%N) None 16 3]> ∅)))))).

Definition sample_use_list : FieldList.UseList := FieldList.mkUseList (Some 10%N) (Some 12%N).
Definition second_use_list : FieldList.UseList := FieldList.mkUseList (Some 20%N) (Some 22%N).

(** A comparison of nodes that holds for identical pointers only. *)
Definition same_node (op1 op2 : option N) : bool := bool_decide (op1 = op2).

(** Two commas over a [GT_NOP] over a leaf, with [GT_COMMA = 90] and
    [GT_NOP = 2]: node 1 is [COMMA(5, 2)], node 2 is [COMMA(6, 3)], node 3
    is [NOP(4)]. *)
Definition comma_heap : gmap N GenTree :=
  <[1%N := mkGenTree 90 3 GTF_EMPTY (mkVNPair 0 0) 0 (OpPayload (Some 5%N) (Some 2%N))]>
    (<[2%N := mkGenTree 90 3 GTF_EMPTY (mkVNPair 0 0) 0 (OpPayload (Some 6%N) (Some 3%N))]>
       (<[3%N := mkGenTree 2 3 GTF_EMPTY (mkVNPair 0 0) 0 (OpPayload (Some 4%N) None)]>
          (<[4%N := mkGenTree 7 3 GTF_EMPTY (mkVNPair 0 0) 0 LeafPayload]>
             (<[5%N := mkGenTree 7 1 GTF_EMPTY (mkVNPair 0 0) 0 LeafPayload]>
                (<[6%N := mkGenTree 7 1 GTF_EMPTY (mkVNPair 0 0) 0 LeafPayload]> ∅))))).

End MoreSamples.

(** * Properties *)

(** ** Bit-level facts about the flag word *)

Module FlagFacts.
Import GTF.

Lemma all_effect_ones : GTF_ALL_EFFECT = Z.ones 5.
Proof. reflexivity. Qed.

Lemma uint_max_ones : UINT_MAX = Z.ones 32.
Proof. reflexivity. Qed.

Lemma all_effect_bit (i : Z) : 0 <= i -> Z.testbit GTF_ALL_EFFECT i = (i <? 5).
Proof.
  intros Hi. rewrite all_effect_ones.
  destruct (Z.ltb_spec i 5).
  - apply Z.ones_spec_low. lia.
  - apply Z.ones_spec_high. lia.
Qed.

Lemma not_all_effect_bit (i : Z) :
  0 <= i -> Z.testbit (flags_not GTF_ALL_EFFECT) i = (5 <=? i) && (i <? 32).
Proof.
  intros Hi. unfold flags_not.
  rewrite Z.land_spec, Z.lnot_spec, all_effect_bit, uint_max_ones by lia.
  destruct (Z.ltb_spec i 32).
  - rewrite Z.ones_spec_low by lia. destruct (Z.ltb_spec i 5), (Z.leb_spec 5 i); simpl; lia.
  - rewrite Z.ones_spec_high by lia. now rewrite !andb_false_r.
Qed.

Lemma is_flags_high_bit (f i : Z) : is_flags f -> 32 <= i -> Z.testbit f i = false.
Proof.
  intros Hf Hi. unfold is_flags, UINT_BITS in Hf.
  destruct (Z.eq_dec f 0) as [->|Hne]; [apply Z.bits_0|].
  apply Z.bits_above_log2; [lia|].
  assert (Z.log2 f < 32) by (apply Z.log2_lt_pow2; lia). lia.
Qed.

Lemma land_low_nibble (f m : Z) : Z.land 15 m = m -> Z.land f m = Z.land (f mod 16) m.
Proof.
  intros Hm. change 16 with (2 ^ 4). rewrite <- Z.land_ones by lia.
  rewrite <- Z.land_assoc. change (Z.ones 4) with 15. now rewrite Hm.
Qed.

Lemma testbit_low_nibble (f i : Z) : 0 <= i < 4 -> Z.testbit f i = Z.testbit (f mod 16) i.
Proof. intros Hi. change 16 with (2 ^ 4). symmetry. apply Z.mod_pow2_bits_low. lia. Qed.

(** C4: on every flag word the macro [GTF_GLOBALLY_VISIBLE_SIDE_EFFECTS] is
    true exactly when the may-call bit is set, or the may-throw bit is set,
    or the may-assign and reads-global-state bits are both set; no other
    bit matters. *)
Theorem globally_visible_side_effects_iff (f : GenTreeFlags) :
  GTF_GLOBALLY_VISIBLE_SIDE_EFFECTS f
  = may_call f || may_throw f || (may_assign f && reads_global f).
Proof.
  unfold GTF_GLOBALLY_VISIBLE_SIDE_EFFECTS, may_call, may_throw, may_assign, reads_global,
    flags_and, flags_or.
  rewrite (land_low_nibble f (Z.lor GTF_CALL GTF_EXCEPT)) by reflexivity.
  rewrite (land_low_nibble f (Z.lor GTF_ASG GTF_GLOB_REF)) by reflexivity.
  rewrite (testbit_low_nibble f 0), (testbit_low_nibble f 1),
    (testbit_low_nibble f 2), (testbit_low_nibble f 3) by lia.
  assert (Hr : 0 <= f mod 16 < 16) by (apply Z.mod_pos_bound; lia).
  generalize dependent (f mod 16). intros r Hr.
  assert (Hcases : r = 0 \/ r = 1 \/ r = 2 \/ r = 3 \/ r = 4 \/ r = 5 \/ r = 6 \/ r = 7
                   \/ r = 8 \/ r = 9 \/ r = 10 \/ r = 11 \/ r = 12 \/ r = 13 \/ r = 14
                   \/ r = 15) by lia.
  repeat (destruct Hcases as [-> | Hcases]; [reflexivity|]).
  subst r. reflexivity.
Qed.

End FlagFacts.

(** ** Side-effect flags of nodes *)

Module EffectFacts.
Import GTF Node FlagFacts.

(** Goals between flag words, bit by bit. *)
Ltac flag_bits i Hi :=
  apply Z.bits_inj'; intros i Hi;
  unfold effects, flags_and, flags_or;
  repeat first [rewrite Z.land_spec | rewrite Z.lor_spec];
  rewrite ?not_all_effect_bit, ?all_effect_bit by assumption.

Lemma gtFlags_with_flags (f : GenTreeFlags) (n : GenTree) : gtFlags (with_flags f n) = f.
Proof. reflexivity. Qed.

Lemma gtFlags_with_payload (p : Payload) (n : GenTree) : gtFlags (with_payload p n) = gtFlags n.
Proof. reflexivity. Qed.

Lemma SetAllEffectsFlags_outside (src : GenTreeFlags) (n : GenTree) :
  flags_and (gtFlags (SetAllEffectsFlags (flags_and src GTF_ALL_EFFECT) n))
    (flags_not GTF_ALL_EFFECT)
  = flags_and (gtFlags n) (flags_not GTF_ALL_EFFECT).
Proof.
  unfold SetAllEffectsFlags. rewrite gtFlags_with_flags.
  flag_bits i Hi.
  destruct (Z.testbit (gtFlags n) i), (Z.testbit src i), (i <? 5) eqn:E5, (5 <=? i) eqn:E,
    (i <? 32); simpl; try reflexivity; lia.
Qed.

Lemma SetAllEffectsFlags_effects (src : GenTreeFlags) (n : GenTree) :
  effects (SetAllEffectsFlags (flags_and src GTF_ALL_EFFECT) n) = flags_and src GTF_ALL_EFFECT.
Proof.
  unfold SetAllEffectsFlags, effects. rewrite gtFlags_with_flags.
  flag_bits i Hi.
  destruct (Z.testbit (gtFlags n) i), (Z.testbit src i), (i <? 5) eqn:E5, (5 <=? i) eqn:E,
    (i <? 32); simpl; try reflexivity; lia.
Qed.

Lemma SetAllEffectsFlags_bit (src : GenTreeFlags) (n : GenTree) (i : Z) :
  0 <= i ->
  Z.testbit (gtFlags (SetAllEffectsFlags (flags_and src GTF_ALL_EFFECT) n)) i
  = if i <? 5 then Z.testbit src i else Z.testbit (gtFlags n) i && (i <? 32).
Proof.
  intros Hi. unfold SetAllEffectsFlags. rewrite gtFlags_with_flags.
  unfold flags_or, flags_and. rewrite Z.lor_spec, !Z.land_spec.
  rewrite not_all_effect_bit, all_effect_bit by assumption.
  destruct (Z.testbit (gtFlags n) i), (Z.testbit src i), (i <? 5) eqn:E5, (5 <=? i) eqn:E,
    (i <? 32); simpl; try reflexivity; lia.
Qed.

(** C10: [SetAllEffectsFlags] replaces, it does not accumulate.  The node's
    bits outside [GTF_ALL_EFFECT] are what they were before the call, its
    effect bits become the sources' effect bits, and so every effect bit
    that was set on the node and is not set in the union of the sources'
    flags is cleared.  No other node changes. *)
Theorem SetAllEffectsFlags_replaces (h : Heap) (this : addr) (s : Sources)
    (n : GenTree) (src : GenTreeFlags) :
  h !! this = Some n ->
  sources_flags h s = Some src ->
  is_flags (gtFlags n) ->
  exists n',
    SetAllEffectsFlags_nodes h this s = Some (<[this := n']> h)
    /\ flags_and (gtFlags n') (flags_not GTF_ALL_EFFECT)
       = flags_and (gtFlags n) (flags_not GTF_ALL_EFFECT)
    /\ (forall i, 0 <= i -> Z.testbit GTF_ALL_EFFECT i = false ->
                  Z.testbit (gtFlags n') i = Z.testbit (gtFlags n) i)
    /\ effects n' = flags_and src GTF_ALL_EFFECT
    /\ (forall i, 0 <= i -> Z.testbit GTF_ALL_EFFECT i = true ->
                  Z.testbit (gtFlags n) i = true -> Z.testbit src i = false ->
                  Z.testbit (gtFlags n') i = false).
Proof.
  intros Hn Hs Hf.
  exists (SetAllEffectsFlags (flags_and src GTF_ALL_EFFECT) n).
  split; [|split; [|split; [|split]]].
  - unfold SetAllEffectsFlags_nodes. rewrite Hn, Hs. reflexivity.
  - apply SetAllEffectsFlags_outside.
  - intros i Hi Hout. rewrite SetAllEffectsFlags_bit by assumption.
    rewrite all_effect_bit in Hout by assumption. rewrite Hout.
    destruct (Z.ltb_spec i 32); [apply andb_true_r|].
    rewrite (is_flags_high_bit (gtFlags n) i) by (assumption || lia). reflexivity.
  - apply SetAllEffectsFlags_effects.
  - intros i Hi Hin _ Hsrc. rewrite SetAllEffectsFlags_bit by assumption.
    rewrite all_effect_bit in Hin by assumption. now rewrite Hin.
Qed.

Section Constructors.
Variable GenTree_ctor : genTreeOps -> var_types -> GenTree.

Lemma GenTreeUnOp_ctor_flags (h : Heap) (oper : genTreeOps) (type : var_types)
    (p1 : addr) (a : GenTree) :
  h !! p1 = Some a ->
  exists n, GenTreeUnOp_ctor GenTree_ctor h oper type (Some p1) = Some n
            /\ gtFlags n = flags_or (gtFlags (GenTree_ctor oper type)) (effects a).
Proof.
  intros Ha. unfold GenTreeUnOp_ctor. simpl. rewrite Ha. simpl.
  eexists. split; reflexivity.
Qed.

(** C1: a binary node built from operands [a] and [b] has, as soon as the
    constructor returns, composite side-effect flags equal to the union of
    [a]'s, [b]'s and those of its own operator (the effect bits the base
    constructor gives a node of that operator and type). *)
Theorem GenTreeOp_ctor_effects (h : Heap) (oper : genTreeOps) (type : var_types)
    (p1 p2 : addr) (a b : GenTree) :
  h !! p1 = Some a ->
  h !! p2 = Some b ->
  exists n,
    GenTreeOp_ctor GenTree_ctor h oper type (Some p1) (Some p2) = Some n
    /\ payload n = OpPayload (Some p1) (Some p2)
    /\ effects n
       = flags_or (flags_or (effects a) (effects b))
           (operatorIntrinsicEffects GenTree_ctor oper type).
Proof.
  intros Ha Hb.
  destruct (GenTreeUnOp_ctor_flags h oper type p1 a Ha) as (n1 & Hn1 & Hf1).
  unfold GenTreeOp_ctor. rewrite Hn1. simpl. rewrite Hb. simpl.
  eexists. split; [reflexivity|]. split; [reflexivity|].
  unfold effects at 1. simpl. rewrite Hf1.
  unfold operatorIntrinsicEffects.
  flag_bits i Hi.
  destruct (Z.testbit (gtFlags (GenTree_ctor oper type)) i), (Z.testbit (gtFlags a) i),
    (Z.testbit (gtFlags b) i), (i <? 5); reflexivity.
Qed.
End Constructors.

End EffectFacts.

(** ** Value numbers across an operator change *)

Module ValueNumberFacts.
Import Node.

(** C9: changing a node's operator with [PRESERVE_VN] leaves the
    value-number pair as it was, so either value number reads as before;
    with [CLEAR_VN], which is the default, both value numbers read as
    [NoVN] afterwards.  In both cases the operator is the new one. *)
Theorem SetOper_value_numbers (NoVN : ValueNum) (oper : genTreeOps) (n : GenTree) :
  gtVNPair (SetOper NoVN oper PRESERVE_VN n) = gtVNPair n
  /\ (forall vnk, GetVN vnk (SetOper NoVN oper PRESERVE_VN n) = GetVN vnk n)
  /\ gtVNPair (SetOper NoVN oper CLEAR_VN n) = ValueNumPair_default NoVN
  /\ (forall vnk, GetVN vnk (SetOper NoVN oper CLEAR_VN n) = NoVN)
  /\ SetOper_default NoVN oper n = SetOper NoVN oper CLEAR_VN n
  /\ (forall vnUpdate, gtOper (SetOper NoVN oper vnUpdate n) = oper).
Proof.
  repeat split.
  - intros vnk. destruct vnk; reflexivity.
  - intros vnUpdate. destruct vnUpdate; reflexivity.
Qed.

End ValueNumberFacts.

(** ** Register positions of copy/reload nodes *)

Module CopyOrReloadFacts.
Import GTF Node.

Section Registers.
Variable GenTree_ctor : genTreeOps -> var_types -> GenTree.
Variable MAX_RET_REG_COUNT : nat.
Variable REG_NA : regNumber.

#[local] Abbreviation GetRegCount := (GetRegCount MAX_RET_REG_COUNT REG_NA).
#[local] Abbreviation GetRegCount_from := (GetRegCount_from REG_NA).
#[local] Abbreviation GetRegNumByIdx := (GetRegNumByIdx MAX_RET_REG_COUNT).
#[local] Abbreviation SetRegNumByIdx := (SetRegNumByIdx MAX_RET_REG_COUNT).

Lemma to_regNumberSmall_id (r : Z) : 0 <= r < 256 -> to_regNumberSmall r = r.
Proof. intros Hr. unfold to_regNumberSmall. apply Z.mod_small. lia. Qed.

(** The clearing loop writes every slot it visits. *)
Lemma clear_loop_lookup (v : Z) (k s : nat) (regs : list Z) (i : nat) :
  foldl (fun rs j => <[j := v]> rs) regs (seq s k) !! i
  = if decide (s <= i < s + k)%nat then (fun _ => v) <$> regs !! i else regs !! i.
Proof.
  revert s regs. induction k as [|k IH]; intros s regs; simpl.
  - destruct (decide _); [lia | reflexivity].
  - rewrite IH. destruct (decide (S s <= i < S s + k)%nat) as [Hin|Hout].
    + rewrite list_lookup_insert_ne by lia.
      destruct (decide _); [reflexivity | lia].
    + destruct (decide (s <= i < s + S k)%nat) as [Hin'|Hout'].
      * assert (i = s) as -> by lia.
        destruct (decide (s < length regs)%nat) as [Hlt|Hge].
        -- rewrite list_lookup_insert_eq by assumption.
           destruct (lookup_lt_is_Some_2 regs s Hlt) as [x ->]. reflexivity.
        -- rewrite list_insert_ge by lia.
           rewrite (lookup_ge_None_2 regs s) by lia. reflexivity.
      * rewrite list_lookup_insert_ne by lia. reflexivity.
Qed.

Lemma clear_loop_replicate (v : Z) (k : nat) (regs : list Z) :
  length regs = k ->
  foldl (fun rs j => <[j := v]> rs) regs (seq 0 k) = replicate k v.
Proof.
  intros Hlen. apply list_eq. intros i. rewrite clear_loop_lookup.
  destruct (decide (0 <= i < 0 + k)%nat) as [Hin|Hout].
  - rewrite lookup_replicate_2 by lia.
    destruct (lookup_lt_is_Some_2 regs i ltac:(lia)) as [x ->]. reflexivity.
  - rewrite (lookup_ge_None_2 regs i) by lia.
    symmetry. apply lookup_ge_None_2. rewrite length_replicate. lia.
Qed.

Lemma GetRegCount_from_step (regs : list Z) (j : nat) :
  GetRegCount_from regs (S (S j))
  = r ← regs !! j;
    if decide (r ≠ REG_NA) then Some (S (S j)) else GetRegCount_from regs (S j).
Proof. reflexivity. Qed.

(** The counting loop started at [i]: its result is the highest position
    below [i] whose slot holds a register, plus one. *)
Lemma GetRegCount_from_spec (regs : list Z) (i : nat) :
  (i <= S (length regs))%nat ->
  exists c,
    GetRegCount_from regs i = Some c
    /\ (1 <= c)%nat /\ (c <= Nat.max 1 i)%nat
    /\ (forall j, (c <= S j)%nat -> (S (S j) <= i)%nat -> regs !! j = Some REG_NA)
    /\ ((2 <= c)%nat -> exists r, regs !! (c - 2)%nat = Some r /\ r <> REG_NA).
Proof.
  induction i as [|i' IH]; intros Hi.
  - exists 1%nat. simpl. repeat split; intros; lia.
  - destruct i' as [|j'].
    + exists 1%nat. simpl. repeat split; intros; lia.
    + destruct (lookup_lt_is_Some_2 regs j' ltac:(lia)) as [r Hr].
      rewrite GetRegCount_from_step, Hr. simpl.
      destruct (decide (r ≠ REG_NA)) as [Hne|Heq].
      * exists (S (S j')). split; [reflexivity|]. split; [lia|]. split; [lia|]. split.
        -- intros j H1 H2. lia.
        -- intros _. exists r. replace (S (S j') - 2)%nat with j' by lia. auto.
      * assert (r = REG_NA) as -> by (destruct (decide (r = REG_NA)); [assumption|contradiction]).
        destruct IH as (c & Hc & H1 & H2 & H3 & H4); [lia|].
        exists c. split; [assumption|]. split; [lia|]. split; [lia|]. split; [|assumption].
        intros j Hj1 Hj2. destruct (decide (j = j')) as [->|Hnej]; [assumption|].
        apply H3; lia.
Qed.

(** The count of a copy/reload node is derived from its slots: it is one
    more than the highest position that holds a register. *)
Lemma GetRegCount_highest (n : GenTree) (regs : list Z) :
  gtOtherRegs_of n = Some regs ->
  length regs = (MAX_RET_REG_COUNT - 1)%nat ->
  (1 <= MAX_RET_REG_COUNT)%nat ->
  GetRegNum n <> REG_NA ->
  exists c,
    GetRegCount n = Some c
    /\ (1 <= c <= MAX_RET_REG_COUNT)%nat
    /\ (exists r, GetRegNumByIdx (c - 1) n = Some r /\ r <> REG_NA)
    /\ (forall idx, (c <= idx < MAX_RET_REG_COUNT)%nat -> GetRegNumByIdx idx n = Some REG_NA).
Proof.
  intros Hregs Hlen Hmax H0.
  destruct (GetRegCount_from_spec regs MAX_RET_REG_COUNT ltac:(lia))
    as (c & Hc & H1 & H2 & H3 & H4).
  exists c. unfold Node.GetRegCount. rewrite Hregs. simpl.
  split; [assumption|]. split; [lia|]. split.
  - unfold Node.GetRegNumByIdx.
    destruct (decide (c - 1 < MAX_RET_REG_COUNT)%nat); [|lia].
    destruct (decide (c - 1 = 0)%nat) as [Hz|Hnz].
    + exists (GetRegNum n). auto.
    + rewrite Hregs. simpl. destruct H4 as (r & Hr & Hne); [lia|].
      exists r. replace (c - 1 - 1)%nat with (c - 2)%nat by lia. auto.
  - intros idx Hidx. unfold Node.GetRegNumByIdx.
    destruct (decide (idx < MAX_RET_REG_COUNT)%nat); [|lia].
    destruct (decide (idx = 0)%nat); [lia|].
    rewrite Hregs. simpl. apply H3; lia.
Qed.

(** The same for every node that holds a register at some position,
    position 0 or a later one: the loop looks at position 0 only when all
    later positions are empty. *)
Lemma GetRegCount_highest_assigned (n : GenTree) (regs : list Z) :
  gtOtherRegs_of n = Some regs ->
  length regs = (MAX_RET_REG_COUNT - 1)%nat ->
  (exists idx r, GetRegNumByIdx idx n = Some r /\ r <> REG_NA) ->
  exists c,
    GetRegCount n = Some c
    /\ (1 <= c <= MAX_RET_REG_COUNT)%nat
    /\ (exists r, GetRegNumByIdx (c - 1) n = Some r /\ r <> REG_NA)
    /\ (forall idx, (c <= idx < MAX_RET_REG_COUNT)%nat -> GetRegNumByIdx idx n = Some REG_NA).
Proof.
  intros Hregs Hlen (idx & r & Hidx & Hr).
  assert (idx < MAX_RET_REG_COUNT)%nat as Hlt.
  { unfold Node.GetRegNumByIdx in Hidx.
    destruct (decide (idx < MAX_RET_REG_COUNT)%nat); [assumption | discriminate]. }
  destruct (GetRegCount_from_spec regs MAX_RET_REG_COUNT ltac:(lia))
    as (c & Hc & H1 & H2 & H3 & H4).
  exists c. unfold Node.GetRegCount. rewrite Hregs. simpl.
  split; [assumption|]. split; [lia|]. split.
  - unfold Node.GetRegNumByIdx in *.
    destruct (decide (idx < MAX_RET_REG_COUNT)%nat); [|lia].
    destruct (decide (c - 1 < MAX_RET_REG_COUNT)%nat); [|lia].
    destruct (decide (c - 1 = 0)%nat) as [Hz|Hnz].
    + exists (GetRegNum n). split; [reflexivity|].
      destruct (decide (idx = 0)%nat) as [->|Hpos]; [congruence|].
      rewrite Hregs in Hidx. simpl in Hidx.
      rewrite (H3 (idx - 1)%nat) in Hidx by lia. congruence.
    + rewrite Hregs. simpl. destruct H4 as (r' & Hr' & Hne); [lia|].
      exists r'. replace (c - 1 - 1)%nat with (c - 2)%nat by lia. auto.
  - intros j Hj. unfold Node.GetRegNumByIdx.
    destruct (decide (j < MAX_RET_REG_COUNT)%nat); [|lia].
    destruct (decide (j = 0)%nat); [lia|].
    rewrite Hregs. simpl. apply H3; lia.
Qed.

(** *** The node with registers at positions 0 and 2 *)

Lemma filter_none {A} (P : A -> Prop) `{forall x, Decision (P x)} (l : list A) :
  (forall x, x ∈ l -> ~ P x) -> filter P l = [].
Proof.
  induction l as [|x l IH]; intros Hl; [reflexivity|].
  rewrite filter_cons. destruct (decide (P x)) as [HP|_].
  - exfalso. apply (Hl x); [left | assumption].
  - apply IH. intros y Hy. apply Hl. now right.
Qed.

Lemma ctor_regs (uninit : Z) (h : Heap) (oper : genTreeOps) (type : var_types)
    (op1 : GenTreePtr) (n0 : GenTree) :
  0 <= REG_NA < 256 ->
  GenTreeCopyOrReload_ctor GenTree_ctor MAX_RET_REG_COUNT REG_NA uninit h oper type op1
  = Some n0 ->
  GetRegNum n0 = REG_NA
  /\ gtOtherRegs_of n0 = Some (replicate (MAX_RET_REG_COUNT - 1) REG_NA).
Proof.
  intros Hna Hctor. unfold GenTreeCopyOrReload_ctor in Hctor.
  destruct (GenTreeUnOp_ctor GenTree_ctor h oper type op1) as [u|]; [|discriminate].
  simpl in Hctor. injection Hctor as <-.
  unfold ClearOtherRegs, gtOtherRegs_of, with_otherRegs, GetRegNum. simpl.
  rewrite clear_loop_replicate by apply length_replicate.
  rewrite to_regNumberSmall_id by assumption. auto.
Qed.

(** C8: a copy/reload node with registers at positions 0 and 2 only has
    [GetRegCount() = 3], although only two positions hold a register, and
    position 1 reads as [REG_NA].  In general the count of a copy/reload
    node is computed from the slots: for every node that holds a register
    at some position, position 0 or not, it is the highest position that
    holds a register, plus one. *)
Theorem GetRegCount_positions_0_and_2 (uninit : Z) (h : Heap) (oper : genTreeOps)
    (type : var_types) (op1 : GenTreePtr) (n0 : GenTree) (r0 r2 : regNumber) :
  (3 <= MAX_RET_REG_COUNT)%nat ->
  0 <= REG_NA < 256 ->
  0 <= r0 < 256 -> r0 <> REG_NA ->
  0 <= r2 < 256 -> r2 <> REG_NA ->
  GenTreeCopyOrReload_ctor GenTree_ctor MAX_RET_REG_COUNT REG_NA uninit h oper type op1
  = Some n0 ->
  (exists n1 n2,
     SetRegNumByIdx r0 0 n0 = Some n1
     /\ SetRegNumByIdx r2 2 n1 = Some n2
     /\ GetRegCount n2 = Some 3%nat
     /\ GetRegNumByIdx 0 n2 = Some r0
     /\ GetRegNumByIdx 1 n2 = Some REG_NA
     /\ GetRegNumByIdx 2 n2 = Some r2
     /\ assigned_count MAX_RET_REG_COUNT REG_NA n2 = 2%nat)
  /\ (forall (n : GenTree) (regs : list Z),
        gtOtherRegs_of n = Some regs ->
        length regs = (MAX_RET_REG_COUNT - 1)%nat ->
        (exists idx r, GetRegNumByIdx idx n = Some r /\ r <> REG_NA) ->
        exists c,
          GetRegCount n = Some c
          /\ (1 <= c <= MAX_RET_REG_COUNT)%nat
          /\ (exists r, GetRegNumByIdx (c - 1) n = Some r /\ r <> REG_NA)
          /\ (forall idx, (c <= idx < MAX_RET_REG_COUNT)%nat ->
                          GetRegNumByIdx idx n = Some REG_NA)).
Proof.
  intros Hmax Hna Hr0 Hr0' Hr2 Hr2' Hctor.
  split; [|intros n regs Hregs Hlen Hn; apply (GetRegCount_highest_assigned n regs); auto].
  destruct (ctor_regs uninit h oper type op1 n0 Hna Hctor) as [Hreg0 Hregs0].
  set (regs2 := <[1%nat := r2]> (replicate (MAX_RET_REG_COUNT - 1) REG_NA)).
  set (n1 := SetRegNum r0 n0).
  set (n2 := with_otherRegs regs2 n1).
  assert (Hn1 : SetRegNumByIdx r0 0 n0 = Some n1).
  { unfold Node.SetRegNumByIdx. destruct (decide (0 < MAX_RET_REG_COUNT)%nat); [|lia].
    reflexivity. }
  assert (Hregs1 : gtOtherRegs_of n1 = Some (replicate (MAX_RET_REG_COUNT - 1) REG_NA)).
  { exact Hregs0. }
  assert (Hn2 : SetRegNumByIdx r2 2 n1 = Some n2).
  { unfold Node.SetRegNumByIdx. destruct (decide (2 < MAX_RET_REG_COUNT)%nat); [|lia].
    destruct (decide (2 = 0)%nat); [lia|]. rewrite Hregs1. simpl.
    rewrite to_regNumberSmall_id by assumption. reflexivity. }
  assert (Hregs2 : gtOtherRegs_of n2 = Some regs2).
  { unfold n2, with_otherRegs, gtOtherRegs_of in *.
    destruct (payload n1); try discriminate. reflexivity. }
  assert (Hnum2 : GetRegNum n2 = r0).
  { unfold n2, with_otherRegs. unfold gtOtherRegs_of in Hregs1.
    destruct (payload n1); try discriminate. simpl.
    unfold GetRegNum. simpl. apply to_regNumberSmall_id. assumption. }
  assert (Hlen2 : length regs2 = (MAX_RET_REG_COUNT - 1)%nat).
  { unfold regs2. rewrite length_insert. apply length_replicate. }
  assert (Hidx : forall idx, (idx < MAX_RET_REG_COUNT)%nat ->
            GetRegNumByIdx idx n2
            = Some (if decide (idx = 0%nat) then r0
                    else if decide (idx = 2%nat) then r2 else REG_NA)).
  { intros idx Hidx. unfold Node.GetRegNumByIdx.
    destruct (decide (idx < MAX_RET_REG_COUNT)%nat); [|lia].
    destruct (decide (idx = 0%nat)); [now rewrite <- Hnum2|].
    rewrite Hregs2. simpl. unfold regs2.
    destruct (decide (idx = 2%nat)) as [->|Hne2].
    - apply list_lookup_insert_eq. rewrite length_replicate. lia.
    - rewrite list_lookup_insert_ne by lia. apply lookup_replicate_2. lia. }
  exists n1, n2. split; [assumption|]. split; [assumption|].
  split; [|split; [|split; [|split]]].
  - destruct (GetRegCount_highest n2 regs2 Hregs2 Hlen2 ltac:(lia) ltac:(now rewrite Hnum2))
      as (c & Hc & Hrange & (r & Hr & Hrne) & Habove).
    rewrite Hc. f_equal.
    assert (3 <= c)%nat.
    { destruct (decide (3 <= c)%nat); [assumption|].
      specialize (Habove 2%nat ltac:(lia)). rewrite Hidx in Habove by lia.
      simpl in Habove. congruence. }
    destruct (decide (c = 3%nat)); [assumption|].
    rewrite Hidx in Hr by lia.
    destruct (decide (c - 1 = 0)%nat); [lia|].
    destruct (decide (c - 1 = 2)%nat); [lia|]. congruence.
  - now rewrite Hidx by lia.
  - now rewrite Hidx by lia.
  - now rewrite Hidx by lia.
  - unfold assigned_count.
    replace MAX_RET_REG_COUNT with (3 + (MAX_RET_REG_COUNT - 3))%nat at 1 by lia.
    rewrite seq_app. change (seq 0 3) with [0; 1; 2]%nat.
    rewrite filter_app, length_app.
    rewrite (filter_none _ (seq (0 + 3) (MAX_RET_REG_COUNT - 3))).
    + rewrite !filter_cons, filter_nil, !Hidx by lia. simpl.
      destruct (decide (Some r0 ≠ Some REG_NA ∧ Some r0 ≠ None)) as [_|Hbad];
        [|exfalso; apply Hbad; split; congruence].
      destruct (decide (Some REG_NA ≠ Some REG_NA ∧ Some REG_NA ≠ None)) as [[Hbad _]|_];
        [congruence|].
      destruct (decide (Some r2 ≠ Some REG_NA ∧ Some r2 ≠ None)) as [_|Hbad];
        [|exfalso; apply Hbad; split; congruence].
      reflexivity.
    + intros idx Hin [Hne _]. apply elem_of_seq in Hin.
      rewrite Hidx in Hne by lia.
      destruct (decide (idx = 0%nat)); [lia|]. destruct (decide (idx = 2%nat)); [lia|].
      congruence.
Qed.

End Registers.

End CopyOrReloadFacts.

(** ** The use-edge iterator *)

Module UseEdgeFacts.
Import GTF Node UseEdges.

Lemma iter_eq_end (it : GenTreeUseEdgeIterator) : iter_eq it UseEdgesEnd = exhausted it.
Proof.
  unfold iter_eq, exhausted, UseEdgesEnd, GenTreeUseEdgeIterator_default. simpl.
  now rewrite orb_true_r.
Qed.

(** C7: [operator==] is a total function of its two arguments.  Two
    exhausted iterators are equal whatever nodes they came from, and two
    iterators on different nodes are equal only when both are exhausted. *)
Theorem iter_eq_across_nodes (it1 it2 : GenTreeUseEdgeIterator) :
  (exhausted it1 = true -> exhausted it2 = true -> iter_eq it1 it2 = true)
  /\ (m_node it1 <> m_node it2 -> iter_eq it1 it2 = exhausted it1 && exhausted it2).
Proof.
  unfold iter_eq, exhausted. split.
  - intros H1 H2. rewrite H1. simpl.
    apply Z.eqb_eq in H1, H2. apply Z.eqb_eq. congruence.
  - intros Hne.
    destruct (Z.eqb_spec (m_state it1) (-1)) as [E1|E1],
             (Z.eqb_spec (m_state it2) (-1)) as [E2|E2]; simpl.
    + apply Z.eqb_eq. congruence.
    + apply Z.eqb_neq. congruence.
    + apply Z.eqb_neq. congruence.
    + rewrite (bool_decide_eq_false_2 _ Hne). reflexivity.
Qed.

(** C6: a binary node with both operands present yields exactly its two
    operand slots: [gtOp2] and then [gtOp1] when [GTF_REVERSE_OPS] is set,
    [gtOp1] and then [gtOp2] when it is clear. *)
Theorem binop_use_edges_order (fuel : nat) (mem : Memory) (node : addr) (n : GenTree)
    (op1 op2 : addr) :
  nodes mem !! node = Some n ->
  payload n = OpPayload (Some op1) (Some op2) ->
  (2 <= fuel)%nat ->
  UseEdges fuel mem node
  = Some (if IsReverseOp n then [gtOp2_slot node; gtOp1_slot node]
          else [gtOp1_slot node; gtOp2_slot node]).
Proof.
  intros Hn Hp Hfuel.
  destruct fuel as [|[|fuel]]; try lia.
  unfold UseEdges, UseEdgesBegin, GenTreeUseEdgeIterator_ctor.
  rewrite Hn. simpl. rewrite Hp. unfold SetEntryStateForBinOp, IsReverseOp.
  destruct (negb (flags_and (gtFlags n) GTF_REVERSE_OPS =? 0)).
  - cbn -[iter_eq iter_incr].
    rewrite iter_eq_end. unfold exhausted. cbn -[iter_eq].
    rewrite Hn. cbn -[iter_eq]. rewrite iter_eq_end. unfold exhausted. cbn -[iter_eq].
    rewrite Hn. cbn -[iter_eq]. destruct fuel; reflexivity.
  - cbn -[iter_eq iter_incr].
    rewrite iter_eq_end. unfold exhausted. cbn -[iter_eq].
    rewrite Hn. cbn -[iter_eq]. rewrite iter_eq_end. unfold exhausted. cbn -[iter_eq].
    rewrite Hn. cbn -[iter_eq]. destruct fuel; reflexivity.
Qed.

(** *** Call nodes *)

Lemma next_late_spec (args : gmap addr CallArg) (l : list addr) (p : CallArgPtr) (fuel : nat) :
  linked m_lateNext args p l ->
  (length l <= fuel)%nat ->
  match List.filter (live_late args) l with
  | [] => next_late fuel args p = Some None
  | a :: rest =>
      exists q l', next_late fuel args p = Some (Some (a, q))
                   /\ linked m_lateNext args q l'
                   /\ List.filter (live_late args) l' = rest
                   /\ (length l' < length l)%nat
  end.
Proof.
  revert p fuel. induction l as [|a l IH]; intros p fuel Hl Hf; simpl in *.
  - subst p. destruct fuel; reflexivity.
  - destruct Hl as (-> & arg & Harg & Hl).
    destruct fuel as [|fuel]; [lia|]. simpl. rewrite Harg. simpl.
    unfold live_late at 1. rewrite Harg.
    destruct (m_lateNode arg) as [x|] eqn:Hlate.
    + rewrite bool_decide_eq_true_2 by discriminate.
      exists (m_lateNext arg), l. repeat split; auto.
    + rewrite bool_decide_eq_false_2 by (intros H; now apply H).
      specialize (IH (m_lateNext arg) fuel Hl ltac:(lia)).
      destruct (List.filter (live_late args) l) as [|b rest]; [assumption|].
      destruct IH as (q & l' & H1 & H2 & H3 & H4).
      exists q, l'. repeat split; auto; lia.
Qed.

Lemma next_early_spec (args : gmap addr CallArg) (l : list addr) (p : CallArgPtr) (fuel : nat) :
  linked m_next args p l ->
  (length l <= fuel)%nat ->
  match List.filter (live_early args) l with
  | [] => next_early fuel args p = Some None
  | a :: rest =>
      exists q l', next_early fuel args p = Some (Some (a, q))
                   /\ linked m_next args q l'
                   /\ List.filter (live_early args) l' = rest
                   /\ (length l' < length l)%nat
  end.
Proof.
  revert p fuel. induction l as [|a l IH]; intros p fuel Hl Hf; simpl in *.
  - subst p. destruct fuel; reflexivity.
  - destruct Hl as (-> & arg & Harg & Hl).
    destruct fuel as [|fuel]; [lia|]. simpl. rewrite Harg. simpl.
    unfold live_early at 1. rewrite Harg.
    destruct (m_earlyNode arg) as [x|] eqn:Hearly.
    + rewrite bool_decide_eq_true_2 by discriminate.
      exists (m_next arg), l. repeat split; auto.
    + rewrite bool_decide_eq_false_2 by (intros H; now apply H).
      specialize (IH (m_next arg) fuel Hl ltac:(lia)).
      destruct (List.filter (live_early args) l) as [|b rest]; [assumption|].
      destruct IH as (q & l' & H1 & H2 & H3 & H4).
      exists q, l'. repeat split; auto; lia.
Qed.

Section CallEdges.
Variable mem : Memory.
Variable node : addr.
Variable n : GenTree.
Variables (gtArgs : CallArgs) (gtCallType : gtCallTypes).
Variables gtCallCookie gtControlExpr gtCallAddr : GenTreePtr.
Hypothesis Hnode : nodes mem !! node = Some n.
Hypothesis Hcall :
  payload n = CallPayload gtArgs gtCallType gtCallCookie gtControlExpr gtCallAddr.

#[local] Abbreviation after_args :=
  (after_args node gtCallType gtCallCookie gtControlExpr gtCallAddr).

Lemma edges_from_exhausted (fe : nat) (it : GenTreeUseEdgeIterator) :
  m_state it = -1 -> edges_from fe mem it = Some [].
Proof.
  intros Hs. destruct fe; cbn [edges_from]; rewrite iter_eq_end; unfold exhausted; now rewrite Hs.
Qed.

Lemma edges_from_step (fe : nat) (it : GenTreeUseEdgeIterator) :
  m_state it = 0 ->
  edges_from (S fe) mem it
  = e ← m_edge it; it' ← iter_incr (S fe) mem it; l ← edges_from fe mem it'; Some (e :: l).
Proof.
  intros Hs. cbn [edges_from]. rewrite iter_eq_end. unfold exhausted. now rewrite Hs.
Qed.

#[local] Arguments edges_from : simpl never.
#[local] Arguments iter_incr : simpl never.

Lemma iter_incr_call (fa : nat) (adv : CallState) (e : option UseEdge) (sp : option addr) :
  iter_incr fa mem (mkIter (Some (AdvanceCall adv)) (Some node) e sp 0)
  = do_AdvanceCall fa mem node gtArgs gtCallType gtCallCookie gtControlExpr gtCallAddr adv
      (mkIter (Some (AdvanceCall adv)) (Some node) e sp 0).
Proof. unfold iter_incr. simpl. rewrite Hnode. simpl. rewrite Hcall. reflexivity. Qed.

Lemma edges_last (fe : nat) (e : UseEdge) (sp : option addr) :
  (1 <= fe)%nat ->
  edges_from fe mem (mkIter (Some Terminate) (Some node) (Some e) sp 0) = Some [e].
Proof.
  intros Hfe. destruct fe as [|fe]; [lia|].
  rewrite edges_from_step by reflexivity. simpl.
  unfold iter_incr. simpl. rewrite Hnode. simpl.
  rewrite edges_from_exhausted by reflexivity. reflexivity.
Qed.

Lemma address_stage (fe : nat) (adv : option AdvanceFn) (e : option UseEdge)
    (sp : option addr) :
  (1 <= fe)%nat ->
  edges_from fe mem (AdvanceCall_ADDRESS node gtCallType gtCallAddr (mkIter adv (Some node) e sp 0))
  = Some (optional_edge (indirect_target gtCallType gtCallAddr) (gtCallAddr_slot node)).
Proof.
  intros Hfe. unfold AdvanceCall_ADDRESS. clear Hcall.
  destruct gtCallType, gtCallAddr; simpl;
    first [apply edges_from_exhausted; reflexivity | apply edges_last; assumption].
Qed.

Lemma cookie_stage (fe : nat) (adv : option AdvanceFn) (e : option UseEdge)
    (sp : option addr) :
  (2 <= fe)%nat ->
  edges_from fe mem
    (AdvanceCall_COOKIE node gtCallType gtCallCookie gtCallAddr (mkIter adv (Some node) e sp 0))
  = Some (optional_edge (cookie_operand gtCallType gtCallCookie) (gtCallCookie_slot node)
          ++ optional_edge (indirect_target gtCallType gtCallAddr) (gtCallAddr_slot node)).
Proof.
  intros Hfe. unfold AdvanceCall_COOKIE.
  pose proof iter_incr_call as Hincr. pose proof address_stage as Haddr.
  assert (Hskip : forall adv', edges_from fe mem
            (AdvanceCall_ADDRESS node gtCallType gtCallAddr
               (with_advance adv' (mkIter adv (Some node) e sp 0)))
          = Some (optional_edge (indirect_target gtCallType gtCallAddr) (gtCallAddr_slot node))).
  { intros adv'. unfold with_advance. simpl. apply Haddr. lia. }
  clear Hcall.
  destruct gtCallType eqn:Hct; try (simpl; apply Hskip).
  destruct gtCallCookie as [c|]; [|simpl; apply Hskip].
  destruct fe as [|fe]; [lia|].
  unfold with_advance, with_edge. simpl.
  rewrite edges_from_step by reflexivity. simpl.
  rewrite Hincr. cbn [do_AdvanceCall mbind option_bind].
  rewrite Haddr by lia. reflexivity.
Qed.

Lemma control_stage (fe : nat) (adv : option AdvanceFn) (e : option UseEdge)
    (sp : option addr) :
  (3 <= fe)%nat ->
  edges_from fe mem
    (AdvanceCall_CONTROL_EXPR node gtCallType gtCallCookie gtControlExpr gtCallAddr
       (mkIter adv (Some node) e sp 0))
  = Some after_args.
Proof.
  intros Hfe. unfold AdvanceCall_CONTROL_EXPR, UseEdges.after_args.
  pose proof iter_incr_call as Hincr. pose proof cookie_stage as Hcookie.
  destruct gtControlExpr as [c|].
  - destruct fe as [|fe]; [lia|].
    unfold with_advance, with_edge. simpl.
    rewrite edges_from_step by reflexivity. simpl.
    rewrite Hincr. simpl.
    rewrite Hcookie by lia. reflexivity.
  - unfold with_advance. simpl. apply Hcookie. lia.
Qed.

Lemma late_stage (bound : nat) :
  forall (l : list addr) (p : CallArgPtr) (e : option UseEdge) (fa fe : nat),
    (length l <= bound)%nat ->
    linked m_lateNext (callArgs mem) p l ->
    (length l <= fa)%nat ->
    (length l + 3 <= fe)%nat ->
    exists it',
      AdvanceCall_LATE_ARGS fa mem node gtCallType gtCallCookie gtControlExpr gtCallAddr
        (mkIter (Some (AdvanceCall CALL_LATE_ARGS)) (Some node) e p 0) = Some it'
      /\ edges_from fe mem it'
         = Some ((LateNodeRef <$> List.filter (live_late (callArgs mem)) l) ++ after_args).
Proof.
  induction bound as [|bound IH]; intros l p e fa fe Hb Hl Hfa Hfe.
  - destruct l; [|simpl in Hb; lia]. simpl in Hl. subst p.
    unfold AdvanceCall_LATE_ARGS. simpl.
    destruct fa; simpl; (eexists; split; [reflexivity|]); apply control_stage; lia.
  - pose proof (next_late_spec (callArgs mem) l p fa Hl Hfa) as Hnext.
    unfold AdvanceCall_LATE_ARGS. simpl.
    destruct (List.filter (live_late (callArgs mem)) l) as [|a rest] eqn:Hfilter.
    + rewrite Hnext. simpl. eexists; split; [reflexivity|]. apply control_stage. lia.
    + destruct Hnext as (q & l' & Hq & Hl' & Hrest & Hlen).
      rewrite Hq. simpl. eexists; split; [reflexivity|].
      destruct fe as [|fe]; [lia|].
      unfold with_statePtr, with_edge. simpl.
      rewrite edges_from_step by reflexivity. simpl.
      rewrite iter_incr_call. simpl.
      destruct (IH l' q (Some (LateNodeRef a)) (S fe) fe) as (it' & Hit' & Hedges); try lia;
        [assumption|].
      rewrite Hit'. simpl. rewrite Hedges. simpl. now rewrite Hrest.
Qed.

Lemma early_stage (late : list addr) (bound : nat) :
  linked m_lateNext (callArgs mem) (m_lateHead gtArgs) late ->
  forall (l : list addr) (p : CallArgPtr) (e : option UseEdge) (fa fe : nat),
    (length l <= bound)%nat ->
    linked m_next (callArgs mem) p l ->
    (length l + length late <= fa)%nat ->
    (length l + length late + 3 <= fe)%nat ->
    exists it',
      AdvanceCall_ARGS fa mem node gtArgs gtCallType gtCallCookie gtControlExpr gtCallAddr
        (mkIter (Some (AdvanceCall CALL_ARGS)) (Some node) e p 0) = Some it'
      /\ edges_from fe mem it'
         = Some ((EarlyNodeRef <$> List.filter (live_early (callArgs mem)) l)
                 ++ (LateNodeRef <$> List.filter (live_late (callArgs mem)) late)
                 ++ after_args).
Proof.
  intros Hlate.
  induction bound as [|bound IH]; intros l p e fa fe Hb Hl Hfa Hfe.
  - destruct l; [|simpl in Hb; lia]. simpl in Hl. subst p.
    unfold AdvanceCall_ARGS. simpl.
    assert (Hnone : next_early fa (callArgs mem) None = Some None) by (destruct fa; reflexivity).
    rewrite Hnone. simpl.
    apply (late_stage (length late) late); auto; simpl in *; lia.
  - pose proof (next_early_spec (callArgs mem) l p fa Hl ltac:(lia)) as Hnext.
    unfold AdvanceCall_ARGS. simpl.
    destruct (List.filter (live_early (callArgs mem)) l) as [|a rest] eqn:Hfilter.
    + rewrite Hnext. simpl.
      apply (late_stage (length late) late); auto; lia.
    + destruct Hnext as (q & l' & Hq & Hl' & Hrest & Hlen).
      rewrite Hq. simpl. eexists; split; [reflexivity|].
      destruct fe as [|fe]; [lia|].
      unfold with_statePtr, with_edge. simpl.
      rewrite edges_from_step by reflexivity. simpl.
      rewrite iter_incr_call. simpl.
      destruct (IH l' q (Some (EarlyNodeRef a)) (S fe) fe) as (it' & Hit' & Hedges); try lia;
        [assumption|].
      rewrite Hit'. simpl. rewrite Hedges. simpl. now rewrite Hrest.
Qed.

End CallEdges.

(** C5: the use edges of a call node are, in this order and with nothing
    else: the live early-node slots of the arguments on the
    evaluation-order list, in list order; the live late-node slots of the
    arguments on the late list, in list order; the control-expression slot
    if it holds an expression; the cookie slot if the call is indirect
    and the slot holds an expression; the call-address slot if the call is
    indirect and the slot holds an expression.  That is the sequence the
    specification lists, with the cookie of an indirect call between its
    last two items; for every call without a live cookie the two
    sequences are the same. *)
Theorem call_use_edges (fuel : nat) (mem : Memory) (node : addr) (n : GenTree)
    (gtArgs : CallArgs) (gtCallType : gtCallTypes)
    (gtCallCookie gtControlExpr gtCallAddr : GenTreePtr) (early late : list addr) :
  nodes mem !! node = Some n ->
  payload n = CallPayload gtArgs gtCallType gtCallCookie gtControlExpr gtCallAddr ->
  linked m_next (callArgs mem) (m_head gtArgs) early ->
  linked m_lateNext (callArgs mem) (m_lateHead gtArgs) late ->
  (length early + length late + 3 <= fuel)%nat ->
  UseEdges fuel mem node
  = Some (call_edges (callArgs mem) node early late gtCallType
            gtCallCookie gtControlExpr gtCallAddr)
  /\ (cookie_operand gtCallType gtCallCookie = None ->
      UseEdges fuel mem node
      = Some (listed_call_edges (callArgs mem) node early late gtCallType
                gtControlExpr gtCallAddr))
  /\ (cookie_operand gtCallType gtCallCookie <> None ->
      gtCallCookie_slot node
        ∈ call_edges (callArgs mem) node early late gtCallType
            gtCallCookie gtControlExpr gtCallAddr
      /\ gtCallCookie_slot node
           ∉ listed_call_edges (callArgs mem) node early late gtCallType
               gtControlExpr gtCallAddr).
Proof.
  intros Hnode Hcall Hearly Hlate Hfuel.
  assert (UseEdges fuel mem node
          = Some (call_edges (callArgs mem) node early late gtCallType
                    gtCallCookie gtControlExpr gtCallAddr)) as Hedges.
  { unfold UseEdges, UseEdgesBegin, GenTreeUseEdgeIterator_ctor.
    rewrite Hnode. simpl. rewrite Hcall.
    destruct (early_stage mem node n gtArgs gtCallType gtCallCookie gtControlExpr gtCallAddr
                Hnode Hcall late (length early) Hlate early (m_head gtArgs) None fuel fuel)
      as (it' & Hit' & Hedges); auto; try lia.
    unfold with_advance, with_statePtr. simpl. rewrite Hit'. simpl.
    rewrite Hedges. reflexivity. }
  split; [assumption|]. split.
  - intros Hnone. rewrite Hedges. unfold call_edges, listed_call_edges, after_args.
    rewrite Hnone. reflexivity.
  - intros Hsome. split.
    + unfold call_edges, after_args.
      rewrite !elem_of_app. right. right. right. left.
      destruct (cookie_operand gtCallType gtCallCookie); [left | contradiction].
    + unfold listed_call_edges. rewrite !elem_of_app.
      intros [Hin | [Hin | [Hin | Hin]]].
      * apply list_elem_of_fmap in Hin as (a & Ha & _). discriminate.
      * apply list_elem_of_fmap in Hin as (a & Ha & _). discriminate.
      * destruct gtControlExpr; simpl in Hin;
          [apply list_elem_of_singleton in Hin; discriminate | inversion Hin].
      * destruct (indirect_target gtCallType gtCallAddr); simpl in Hin;
          [apply list_elem_of_singleton in Hin; discriminate | inversion Hin].
Qed.

End UseEdgeFacts.

(** ** The field-sequence store *)

Module FieldSeqFacts.
Import FieldSeq.

Lemma FieldSeqPtr_eqb_eq (p q : FieldSeqPtr) : FieldSeqPtr_eqb p q = true <-> p = q.
Proof.
  destruct p as [| |a], q as [| |b]; simpl; split; intros H;
    try reflexivity; try discriminate.
  - apply Nat.eqb_eq in H. now subst.
  - injection H as ->. apply Nat.eqb_refl.
Qed.

(** [Equals] decides equality of node values, as a key comparison must. *)
Lemma Equals_eq (fsn1 fsn2 : FieldSeqNode) : Equals fsn1 fsn2 = true <-> fsn1 = fsn2.
Proof.
  unfold Equals. rewrite andb_true_iff, Z.eqb_eq, FieldSeqPtr_eqb_eq.
  destruct fsn1, fsn2; simpl. split.
  - intros [-> ->]. reflexivity.
  - intros H. injection H as -> ->. auto.
Qed.

Lemma Equals_refl (fsn : FieldSeqNode) : Equals fsn fsn = true.
Proof. now apply Equals_eq. Qed.

Lemma Lookup_Set (m : list (FieldSeqNode * FieldSeqPtr)) (k k' : FieldSeqNode)
    (v : FieldSeqPtr) :
  Lookup (Set_ m k v) k' = if Equals k' k then Some v else Lookup m k'.
Proof. reflexivity. Qed.

Lemma to_uintptr_range (x : Z) : 0 <= to_uintptr x < 2 ^ UINTPTR_BITS.
Proof. unfold to_uintptr. apply Z.mod_pos_bound. reflexivity. Qed.

(** Splitting a node's word into handle and kind and packing it again. *)
Lemma repack (fsn : FieldSeqNode) (next : FieldSeqPtr) :
  0 <= m_fieldHandleAndKind fsn < 2 ^ UINTPTR_BITS ->
  FieldSeqNode_ctor (GetFieldHandleValue fsn) next (GetKind fsn)
  = mkFieldSeqNode (m_fieldHandleAndKind fsn) next.
Proof.
  intros Hx. unfold FieldSeqNode_ctor, GetFieldHandleValue, GetKind. f_equal.
  rewrite <- Z.land_lor_distr_r.
  change (Z.lor (Z.land (Z.lnot FIELD_KIND_MASK) UINTPTR_MAX) FIELD_KIND_MASK)
    with (Z.ones UINTPTR_BITS).
  rewrite Z.land_ones by (unfold UINTPTR_BITS; lia).
  unfold to_uintptr. rewrite Z.mod_mod by (unfold UINTPTR_BITS; lia).
  apply Z.mod_small. assumption.
Qed.

Lemma store_ok_empty : store_ok FieldSeqStore_ctor.
Proof.
  split; simpl.
  - intros k v H. discriminate.
  - intros a n H. rewrite lookup_nil in H. discriminate.
  - intros a n H. rewrite lookup_nil in H. discriminate.
  - intros a n H. rewrite lookup_nil in H. discriminate.
Qed.

#[local] Instance extends_refl : Reflexive extends.
Proof. intros st. unfold extends. reflexivity. Qed.

#[local] Instance extends_trans : Transitive extends.
Proof. intros a b c. unfold extends. intros. etransitivity; eassumption. Qed.

Lemma extends_lookup (st st' : FieldSeqStore) (a : nat) (n : FieldSeqNode) :
  extends st st' -> m_alloc st !! a = Some n -> m_alloc st' !! a = Some n.
Proof. intros Hext Ha. eapply prefix_lookup_Some; eassumption. Qed.

Lemma represents_extends (st st' : FieldSeqStore) (l : list Z) (p : FieldSeqPtr) :
  extends st st' -> represents st p l -> represents st' p l.
Proof.
  intros Hext. revert p. induction l as [|x l IH]; intros p; simpl; [auto|].
  intros (a & n & -> & Ha & Hx & Hl).
  exists a, n. repeat split; eauto using extends_lookup.
Qed.

(** In a consistent store a chain has one handle. *)
Lemma represents_unique (st : FieldSeqStore) (l : list Z) (p q : FieldSeqPtr) :
  store_ok st -> represents st p l -> represents st q l -> p = q.
Proof.
  intros Hok. revert p q. induction l as [|x l IH]; intros p q; simpl.
  - congruence.
  - intros (a & na & -> & Ha & Hxa & Hla) (b & nb & -> & Hb & Hxb & Hlb).
    assert (na = nb) as ->.
    { destruct na as [wa ta], nb as [wb tb]. simpl in *. subst.
      f_equal. apply IH; assumption. }
    pose proof (ok_canon st Hok a nb Ha) as H1.
    pose proof (ok_canon st Hok b nb Hb) as H2.
    congruence.
Qed.

(** And a handle stands for one chain. *)
Lemma represents_functional (st : FieldSeqStore) (l l' : list Z) (p : FieldSeqPtr) :
  represents st p l -> represents st p l' -> l = l'.
Proof.
  revert l' p. induction l as [|x l IH]; intros l' p; destruct l' as [|x' l']; simpl.
  - reflexivity.
  - intros -> (a & n & H & _). discriminate.
  - intros (a & n & -> & _) H. discriminate.
  - intros (a & n & -> & Ha & Hx & Hl) (a' & n' & Heq & Ha' & Hx' & Hl').
    injection Heq as <-. rewrite Ha in Ha'. injection Ha' as <-.
    f_equal; [congruence|]. eapply IH; eassumption.
Qed.

Lemma represents_length (st : FieldSeqStore) (l : list Z) (a : nat) :
  store_ok st -> represents st (arena_ptr a) l -> (length l <= S a)%nat.
Proof.
  intros Hok. revert a. induction l as [|x l IH]; intros a; simpl; [lia|].
  intros (a0 & n & Heq & Ha & _ & Hl). injection Heq as <-.
  destruct l as [|y l]; [simpl; lia|].
  destruct (ok_next st Hok a n Ha) as [Hnull | (a' & Hnext & Hlt)].
  - rewrite Hnull in Hl. simpl in Hl. destruct Hl as (? & ? & ? & _). discriminate.
  - rewrite Hnext in Hl. specialize (IH a' Hl). simpl in *. lia.
Qed.

Lemma represents_bound (st : FieldSeqStore) (l : list Z) (p : FieldSeqPtr) :
  store_ok st -> represents st p l -> (length l <= length (m_alloc st))%nat.
Proof.
  intros Hok Hl. destruct l as [|x l]; [simpl; lia|].
  pose proof Hl as (a & n & -> & Ha & _).
  apply represents_length in Hl; [|assumption].
  apply lookup_lt_Some in Ha. lia.
Qed.

(** One canonicalization step keeps the store consistent. *)
Lemma canonical_ok (st st' : FieldSeqStore) (fsn : FieldSeqNode) (p : FieldSeqPtr) :
  store_ok st ->
  0 <= m_fieldHandleAndKind fsn < 2 ^ UINTPTR_BITS ->
  (m_next fsn = nullptr
   \/ exists a', m_next fsn = arena_ptr a' /\ (a' < length (m_alloc st))%nat) ->
  canonical st fsn = (st', p) ->
  store_ok st' /\ extends st st'
  /\ exists a, p = arena_ptr a /\ m_alloc st' !! a = Some fsn.
Proof.
  intros Hok Hword Hnext. unfold canonical.
  destruct (Lookup (m_canonMap st) fsn) as [res|] eqn:Hlook; intros Heq; injection Heq as <- <-.
  - split; [assumption|]. split; [reflexivity|]. eapply ok_lookup; eassumption.
  - split; [|split].
    + split; cbn [m_alloc m_canonMap].
      * intros k v. rewrite Lookup_Set.
        destruct (Equals k fsn) eqn:Ek.
        -- apply Equals_eq in Ek. subst k. intros Hv. injection Hv as <-.
           eexists. split; [reflexivity|]. apply list_lookup_middle. reflexivity.
        -- intros Hv. destruct (ok_lookup st Hok k v Hv) as (a & -> & Ha).
           exists a. split; [reflexivity|]. apply lookup_app_l_Some. assumption.
      * intros a n Ha. rewrite Lookup_Set.
        apply lookup_app_Some in Ha as [Ha | [Hge Ha]].
        -- destruct (Equals n fsn) eqn:En.
           ++ apply Equals_eq in En. subst n.
              rewrite (ok_canon st Hok a fsn Ha) in Hlook. discriminate.
           ++ apply (ok_canon st Hok). assumption.
        -- apply list_lookup_singleton_Some in Ha as [Hz <-].
           rewrite Equals_refl. do 2 f_equal. lia.
      * intros a n Ha. apply lookup_app_Some in Ha as [Ha | [Hge Ha]].
        -- apply (ok_word st Hok a). assumption.
        -- apply list_lookup_singleton_Some in Ha as [_ <-]. assumption.
      * intros a n Ha. apply lookup_app_Some in Ha as [Ha | [Hge Ha]].
        -- apply (ok_next st Hok a). assumption.
        -- apply list_lookup_singleton_Some in Ha as [Hz <-].
           destruct Hnext as [Hnull | (a' & Ha' & Hlt)]; [now left|].
           right. exists a'. split; [assumption|lia].
    + unfold extends. simpl. apply prefix_app_r. reflexivity.
    + eexists. split; [reflexivity|]. simpl. apply list_lookup_middle. reflexivity.
Qed.

Lemma CreateSingleton_ok (st st' : FieldSeqStore) (fieldHnd fieldKind : Z) (p : FieldSeqPtr) :
  store_ok st ->
  CreateSingleton st fieldHnd fieldKind = (st', p) ->
  store_ok st' /\ extends st st' /\ represents st' p [pack (fieldHnd, fieldKind)].
Proof.
  intros Hok Hc. unfold CreateSingleton in Hc.
  apply canonical_ok in Hc as (Hok' & Hext & a & -> & Ha); try assumption.
  - split; [assumption|]. split; [assumption|].
    simpl. exists a. eexists. repeat split; [eassumption|reflexivity|reflexivity].
  - apply to_uintptr_range.
  - now left.
Qed.

Lemma represents_not_sentinel (st : FieldSeqStore) (l : list Z) (p : FieldSeqPtr) :
  represents st p l -> FieldSeqPtr_eqb p NotAField = false.
Proof.
  destruct l as [|x l]; simpl.
  - intros ->. reflexivity.
  - intros (a & n & -> & _). reflexivity.
Qed.

Lemma Append_walk_unfold (fuel : nat) (st : FieldSeqStore) (a b : FieldSeqPtr) :
  Append_walk fuel st a b
  = if FieldSeqPtr_eqb a NotAField || FieldSeqPtr_eqb b NotAField then Some (st, NotAField)
    else if FieldSeqPtr_eqb a nullptr then Some (st, b)
    else if FieldSeqPtr_eqb b nullptr then Some (st, a)
    else
      match fuel with
      | O => None
      | S fuel' =>
          na ← load st a;
          '(st1, tmp) ← Append_walk fuel' st (GetNext na) b;
          Some (canonical st1 (FieldSeqNode_ctor (GetFieldHandleValue na) tmp (GetKind na)))
      end.
Proof. destruct fuel; reflexivity. Qed.

(** [Append] on two handles of a consistent store returns the handle of
    the concatenated chain. *)
Lemma Append_walk_ok (la : list Z) :
  forall (st : FieldSeqStore) (a b : FieldSeqPtr) (lb : list Z) (fuel : nat),
    store_ok st ->
    represents st a la ->
    represents st b lb ->
    (length la <= fuel)%nat ->
    exists st' p,
      Append_walk fuel st a b = Some (st', p)
      /\ store_ok st' /\ extends st st' /\ represents st' p (la ++ lb).
Proof.
  induction la as [|x la IH]; intros st a b lb fuel Hok Ha Hb Hfuel;
    rewrite Append_walk_unfold;
    rewrite (represents_not_sentinel st _ a Ha), (represents_not_sentinel st _ b Hb);
    cbn [orb].
  - simpl in Ha. subst a. cbn [FieldSeqPtr_eqb].
    exists st, b. split; [reflexivity|]. split; [assumption|]. split; [reflexivity|assumption].
  - pose proof Ha as (a0 & na & -> & Hna & Hx & Hnext). cbn [FieldSeqPtr_eqb].
    destruct lb as [|y lb].
    + simpl in Hb. subst b. cbn [FieldSeqPtr_eqb].
      exists st, (arena_ptr a0). rewrite app_nil_r.
      split; [reflexivity|]. split; [assumption|]. split; [reflexivity|assumption].
    + pose proof Hb as (b0 & nb & -> & Hnb & _). cbn [FieldSeqPtr_eqb].
      destruct fuel as [|fuel]; [simpl in Hfuel; lia|].
      cbn [load]. rewrite Hna. cbn [mbind option_bind].
      destruct (IH st (GetNext na) (arena_ptr b0) (y :: lb) fuel Hok Hnext Hb
                  ltac:(simpl in Hfuel; lia))
        as (st1 & tmp & Hwalk & Hok1 & Hext1 & Htmp).
      rewrite Hwalk. cbn [mbind option_bind].
      rewrite repack by (apply (ok_word st Hok a0); assumption).
      destruct (canonical st1 (mkFieldSeqNode (m_fieldHandleAndKind na) tmp))
        as [st2 p] eqn:Hcanon.
      apply canonical_ok in Hcanon as (Hok2 & Hext2 & c & -> & Hc); try assumption.
      * exists st2, (arena_ptr c). split; [reflexivity|]. split; [assumption|].
        split; [etransitivity; eassumption|].
        simpl. exists c. eexists. split; [reflexivity|]. split; [eassumption|].
        split; [assumption|]. simpl. eapply represents_extends; eassumption.
      * simpl. apply (ok_word st Hok a0). assumption.
      * simpl. right.
        destruct (la ++ y :: lb) as [|z lz] eqn:Hcat; [destruct la; discriminate|].
        destruct Htmp as (t & nt & -> & Ht & _).
        exists t. split; [reflexivity|]. eapply lookup_lt_Some; eassumption.
Qed.

Lemma Append_ok (st : FieldSeqStore) (a b : FieldSeqPtr) (la lb : list Z) :
  store_ok st ->
  represents st a la ->
  represents st b lb ->
  exists st' p,
    Append st a b = Some (st', p)
    /\ store_ok st' /\ extends st st' /\ represents st' p (la ++ lb).
Proof.
  intros Hok Ha Hb. unfold Append. apply (Append_walk_ok la); try assumption.
  pose proof (represents_bound st la a Hok Ha). lia.
Qed.

(** Every build succeeds and returns a handle of its chain. *)
Lemma build_ok (e : Build) :
  forall st, store_ok st ->
    exists st' p,
      build e st = Some (st', p)
      /\ store_ok st' /\ extends st st' /\ represents st' p (pack <$> chain e).
Proof.
  induction e as [f k | e1 IH1 e2 IH2]; intros st Hok.
  - destruct (CreateSingleton st f k) as [st' p] eqn:Hc.
    exists st', p. simpl. rewrite Hc. split; [reflexivity|].
    eapply CreateSingleton_ok; eassumption.
  - destruct (IH1 st Hok) as (st1 & a & H1 & Hok1 & Hext1 & Ha).
    destruct (IH2 st1 Hok1) as (st2 & b & H2 & Hok2 & Hext2 & Hb).
    destruct (Append_ok st2 a b _ _ Hok2 (represents_extends _ _ _ _ Hext2 Ha) Hb)
      as (st3 & p & H3 & Hok3 & Hext3 & Hp).
    exists st3, p. simpl. rewrite H1. simpl. rewrite H2. simpl.
    split; [assumption|]. split; [assumption|].
    split; [etransitivity; [|eassumption]; etransitivity; eassumption|].
    rewrite fmap_app. assumption.
Qed.

Lemma build_all_ok (es : list Build) :
  forall st st', store_ok st -> build_all es st = Some st' -> store_ok st' /\ extends st st'.
Proof.
  induction es as [|e es IH]; intros st st' Hok; simpl.
  - intros H. injection H as <-. split; [assumption|reflexivity].
  - destruct (build_ok e st Hok) as (st1 & p & H1 & Hok1 & Hext1 & _).
    rewrite H1. simpl. intros H. destruct (IH st1 st' Hok1 H) as [Hok' Hext'].
    split; [assumption|]. etransitivity; eassumption.
Qed.

Lemma pack_sum (fk : Z * Z) :
  FieldSeqWords.packable fk -> pack fk = fst fk + snd fk /\ fst fk mod 4 = 0 /\ 0 <= snd fk < 4.
Proof.
  destruct fk as [f k]. unfold FieldSeqWords.packable, pack, Instance, SharedStatic. simpl.
  intros (Hf & Hlow & Hk).
  assert (f mod 4 = 0) as Hmod.
  { change 4 with (2 ^ 2). rewrite <- Z.land_ones by lia. exact Hlow. }
  assert (Z.land k FIELD_KIND_MASK = k) as Hkk.
  { change FIELD_KIND_MASK with (Z.ones 2). rewrite Z.land_ones by lia.
    apply Z.mod_small. change (2 ^ 2) with 4. lia. }
  assert (Z.land f k = 0) as Hdisj.
  { rewrite <- Hkk, (Z.land_comm k), Z.land_assoc, Hlow. apply Z.land_0_l. }
  assert (Z.lor f k = f + k) as ->.
  { pose proof (Z.add_lor_land f k) as Hadd. rewrite Hdisj in Hadd. lia. }
  split; [|split; [assumption | lia]].
  unfold to_uintptr. apply Z.mod_small.
  unfold UINTPTR_BITS in *.
  pose proof (Z.div_mod f 4 ltac:(lia)) as Hd.
  assert (2 ^ 64 = 4 * 2 ^ 62) as Hpow by reflexivity.
  lia.
Qed.

(** Packing loses nothing on such pairs. *)
Lemma pack_inj (a b : Z * Z) :
  FieldSeqWords.packable a -> FieldSeqWords.packable b -> pack a = pack b -> a = b.
Proof.
  intros Ha Hb Heq.
  destruct (pack_sum a Ha) as (Sa & Ma & Ka), (pack_sum b Hb) as (Sb & Mb & Kb).
  rewrite Sa, Sb in Heq. destruct a as [fa ka], b as [fb kb]. simpl in *.
  pose proof (Z.div_mod fa 4 ltac:(lia)) as Da.
  pose proof (Z.div_mod fb 4 ltac:(lia)) as Db.
  assert (ka = kb) by lia. f_equal; lia.
Qed.

Lemma fmap_pack_inj (l1 l2 : list (Z * Z)) :
  Forall FieldSeqWords.packable l1 -> Forall FieldSeqWords.packable l2 ->
  pack <$> l1 = pack <$> l2 -> l1 = l2.
Proof.
  revert l2. induction l1 as [|a l1 IH]; intros [|b l2] H1 H2 Heq;
    try reflexivity; try discriminate.
  apply Forall_cons in H1 as [Ha H1]. apply Forall_cons in H2 as [Hb H2].
  rewrite !fmap_cons in Heq. injection Heq as Hab Hrest.
  f_equal; [now apply pack_inj | now apply IH].
Qed.

(** C2: every build returns a handle whose nodes hold exactly its chain of
    (field identifier, field kind) pairs, and two builds, however each
    one combines [CreateSingleton] and [Append] and whatever the store is
    used for in between, return the same handle when their chains are the
    same, and only then: the handles are identical pointers exactly when
    the chains have the same words, which for pairs that pack without
    loss is when the chains are equal.  Structural equality is identity
    of handles. *)
Theorem same_chain_same_handle (st : FieldSeqStore) (e1 e2 : Build) :
  store_ok st ->
  exists st1 p,
    build e1 st = Some (st1, p)
    /\ represents st1 p (pack <$> chain e1)
    /\ forall (es : list Build) (st1' : FieldSeqStore),
         build_all es st1 = Some st1' ->
         exists st2 q,
           build e2 st1' = Some (st2, q)
           /\ represents st2 p (pack <$> chain e1)
           /\ represents st2 q (pack <$> chain e2)
           /\ (chain e1 = chain e2 -> q = p /\ handle_eq p q = true)
           /\ (handle_eq p q = true <-> pack <$> chain e1 = pack <$> chain e2)
           /\ (Forall FieldSeqWords.packable (chain e1) ->
               Forall FieldSeqWords.packable (chain e2) ->
               (handle_eq p q = true <-> chain e1 = chain e2)).
Proof.
  intros Hok.
  destruct (build_ok e1 st Hok) as (st1 & p & H1 & Hok1 & Hext1 & Hp).
  exists st1, p. split; [assumption|]. split; [assumption|].
  intros es st1' Hall.
  destruct (build_all_ok es st1 st1' Hok1 Hall) as [Hok1' Hext1'].
  destruct (build_ok e2 st1' Hok1') as (st2 & q & H2 & Hok2 & Hext2 & Hq).
  exists st2, q. split; [assumption|].
  assert (represents st2 p (pack <$> chain e1)) as Hp2.
  { eapply represents_extends; [|eassumption]. etransitivity; eassumption. }
  assert (handle_eq p q = true <-> pack <$> chain e1 = pack <$> chain e2) as Hiff.
  { unfold handle_eq. rewrite FieldSeqPtr_eqb_eq. split.
    - intros ->. eapply represents_functional; eassumption.
    - intros Heq. rewrite Heq in Hp2.
      apply (represents_unique st2 (pack <$> chain e2)); assumption. }
  split; [assumption|]. split; [assumption|]. split; [|split; [assumption|]].
  - intros Hchain.
    assert (handle_eq p q = true) as Heq by (apply Hiff; now rewrite Hchain).
    split; [|assumption]. symmetry. now apply FieldSeqPtr_eqb_eq.
  - intros Hw1 Hw2. rewrite Hiff. split.
    + now apply fmap_pack_inj.
    + now intros ->.
Qed.

(** C3: the sentinel absorbs on both sides.  For every handle [s], the
    sentinel included, [Append(NotAField(), s)] and [Append(s, NotAField())]
    return [NotAField()], and the store is left as it was. *)
Theorem Append_NotAField (st : FieldSeqStore) (s : FieldSeqPtr) :
  Append st NotAField s = Some (st, NotAField)
  /\ Append st s NotAField = Some (st, NotAField).
Proof.
  unfold Append. rewrite !Append_walk_unfold. split.
  - reflexivity.
  - replace (FieldSeqPtr_eqb NotAField NotAField) with true by reflexivity.
    now rewrite orb_true_r.
Qed.

End FieldSeqFacts.

(** ** The properties on the sample data *)

Module SampleFacts.
Import GTF Node FieldSeq UseEdges Samples.

Lemma GenTreeOp_ctor_effects_sample :
  sample_heap !! 1%N = Some calling_leaf
  /\ sample_heap !! 2%N = Some throwing_leaf
  /\ exists n,
       GenTreeOp_ctor plain_ctor sample_heap 9 3 (Some 1%N) (Some 2%N) = Some n
       /\ payload n = OpPayload (Some 1%N) (Some 2%N)
       /\ effects n
          = flags_or (flags_or (effects calling_leaf) (effects throwing_leaf))
              (operatorIntrinsicEffects plain_ctor 9 3).
Proof.
  split; [reflexivity|]. split; [reflexivity|].
  apply (EffectFacts.GenTreeOp_ctor_effects plain_ctor sample_heap 9 3 1%N 2%N
           calling_leaf throwing_leaf); reflexivity.
Defined.

Lemma SetAllEffectsFlags_replaces_sample :
  sample_heap !! 3%N = Some stale_parent
  /\ sources_flags sample_heap (TwoSources (Some 1%N) (Some 2%N))
     = Some (flags_or (gtFlags calling_leaf) (gtFlags throwing_leaf))
  /\ is_flags (gtFlags stale_parent)
  /\ exists n',
       SetAllEffectsFlags_nodes sample_heap 3%N (TwoSources (Some 1%N) (Some 2%N))
       = Some (<[3%N := n']> sample_heap)
       /\ flags_and (gtFlags n') (flags_not GTF_ALL_EFFECT)
          = flags_and (gtFlags stale_parent) (flags_not GTF_ALL_EFFECT)
       /\ (forall i, 0 <= i -> Z.testbit GTF_ALL_EFFECT i = false ->
                     Z.testbit (gtFlags n') i = Z.testbit (gtFlags stale_parent) i)
       /\ effects n'
          = flags_and (flags_or (gtFlags calling_leaf) (gtFlags throwing_leaf)) GTF_ALL_EFFECT
       /\ (forall i, 0 <= i -> Z.testbit GTF_ALL_EFFECT i = true ->
                     Z.testbit (gtFlags stale_parent) i = true ->
                     Z.testbit (flags_or (gtFlags calling_leaf) (gtFlags throwing_leaf)) i
                     = false ->
                     Z.testbit (gtFlags n') i = false).
Proof.
  split; [reflexivity|]. split; [reflexivity|].
  split; [split; [vm_compute; discriminate | reflexivity]|].
  apply (EffectFacts.SetAllEffectsFlags_replaces sample_heap 3%N
           (TwoSources (Some 1%N) (Some 2%N)) stale_parent
           (flags_or (gtFlags calling_leaf) (gtFlags throwing_leaf)));
    [reflexivity | reflexivity | split; [vm_compute; discriminate | reflexivity]].
Defined.

(** The stale parent had assign, call and reverse-ops bits (0x23); after
    the call it has the leaves' call, throw and global-reference bits and
    still the reverse-ops bit (0x2E). *)
Example SetAllEffectsFlags_sample_flags :
  gtFlags stale_parent = 0x23
  /\ (h' ← SetAllEffectsFlags_nodes sample_heap 3%N (TwoSources (Some 1%N) (Some 2%N));
      n' ← h' !! 3%N; Some (gtFlags n')) = Some 0x2E.
Proof. split; reflexivity. Qed.

(** The node built with registers 5 and 6 at positions 0 and 2, and, for
    the general rule, a node whose only register is at position 2. *)
Lemma GetRegCount_positions_0_and_2_sample :
  GenTreeCopyOrReload_ctor plain_ctor 4 64 7 sample_heap 60 3 (Some 1%N) = Some fresh_copy
  /\ (exists n1 n2,
        SetRegNumByIdx 4 5 0 fresh_copy = Some n1
        /\ SetRegNumByIdx 4 6 2 n1 = Some n2
        /\ GetRegCount 4 64 n2 = Some 3%nat
        /\ GetRegNumByIdx 4 0 n2 = Some 5
        /\ GetRegNumByIdx 4 1 n2 = Some 64
        /\ GetRegNumByIdx 4 2 n2 = Some 6
        /\ assigned_count 4 64 n2 = 2%nat)
  /\ GetRegNumByIdx 4 0 MoreSamples.gap_copy = Some 64
  /\ GetRegNumByIdx 4 2 MoreSamples.gap_copy = Some 6
  /\ exists c,
       GetRegCount 4 64 MoreSamples.gap_copy = Some c
       /\ (1 <= c <= 4)%nat
       /\ (exists r, GetRegNumByIdx 4 (c - 1) MoreSamples.gap_copy = Some r /\ r <> 64)
       /\ (forall idx, (c <= idx < 4)%nat ->
                       GetRegNumByIdx 4 idx MoreSamples.gap_copy = Some 64).
Proof.
  split; [reflexivity|].
  destruct (CopyOrReloadFacts.GetRegCount_positions_0_and_2 plain_ctor 4 64 7 sample_heap
              60 3 (Some 1%N) fresh_copy 5 6) as [H02 Hrule];
    [lia | lia | lia | lia | lia | lia | reflexivity |].
  split; [exact H02|]. split; [reflexivity|]. split; [reflexivity|].
  apply (Hrule MoreSamples.gap_copy [64; 6; 64]); [reflexivity | reflexivity |].
  exists 2%nat, 6. split; [reflexivity | lia].
Defined.

(** The same by evaluation: registers 5 and 6 at positions 0 and 2. *)
Example GetRegCount_sample_value :
  (n1 ← SetRegNumByIdx 4 5 0 fresh_copy; n2 ← SetRegNumByIdx 4 6 2 n1;
   Some (GetRegCount 4 64 n2, GetRegNumByIdx 4 1 n2, assigned_count 4 64 n2))
  = Some (Some 3%nat, Some 64, 2%nat).
Proof. reflexivity. Qed.

Lemma same_chain_same_handle_sample :
  store_ok FieldSeqStore_ctor
  /\ chain left_nested = chain right_nested
  /\ exists st1 p,
       build left_nested FieldSeqStore_ctor = Some (st1, p)
       /\ represents st1 p (pack <$> chain left_nested)
       /\ forall (es : list Build) (st1' : FieldSeqStore),
            build_all es st1 = Some st1' ->
            exists st2 q,
              build right_nested st1' = Some (st2, q)
              /\ represents st2 p (pack <$> chain left_nested)
              /\ represents st2 q (pack <$> chain right_nested)
              /\ (chain left_nested = chain right_nested -> q = p /\ handle_eq p q = true)
              /\ (handle_eq p q = true
                  <-> pack <$> chain left_nested = pack <$> chain right_nested)
              /\ (Forall FieldSeqWords.packable (chain left_nested) ->
                  Forall FieldSeqWords.packable (chain right_nested) ->
                  (handle_eq p q = true <-> chain left_nested = chain right_nested)).
Proof.
  split; [apply FieldSeqFacts.store_ok_empty|]. split; [reflexivity|].
  apply (FieldSeqFacts.same_chain_same_handle FieldSeqStore_ctor left_nested right_nested).
  apply FieldSeqFacts.store_ok_empty.
Defined.

(** The sample call is indirect and has a cookie: seven edges. *)
Lemma call_use_edges_sample :
  UseEdges 8 sample_memory 10%N
  = Some (call_edges sample_args 10%N [1%N; 2%N; 3%N] [2%N; 3%N] CT_INDIRECT
            (Some 30%N) (Some 31%N) (Some 32%N))
  /\ (cookie_operand CT_INDIRECT (Some 30%N) = None ->
      UseEdges 8 sample_memory 10%N
      = Some (listed_call_edges sample_args 10%N [1%N; 2%N; 3%N] [2%N; 3%N] CT_INDIRECT
                (Some 31%N) (Some 32%N)))
  /\ (cookie_operand CT_INDIRECT (Some 30%N) <> None ->
      gtCallCookie_slot 10%N
        ∈ call_edges sample_args 10%N [1%N; 2%N; 3%N] [2%N; 3%N] CT_INDIRECT
            (Some 30%N) (Some 31%N) (Some 32%N)
      /\ gtCallCookie_slot 10%N
           ∉ listed_call_edges sample_args 10%N [1%N; 2%N; 3%N] [2%N; 3%N] CT_INDIRECT
               (Some 31%N) (Some 32%N)).
Proof.
  apply (UseEdgeFacts.call_use_edges 8 sample_memory 10%N sample_call
           (mkCallArgs (Some 1%N) (Some 2%N)) CT_INDIRECT (Some 30%N) (Some 31%N)
           (Some 32%N) [1%N; 2%N; 3%N] [2%N; 3%N]).
  - reflexivity.
  - reflexivity.
  - simpl. repeat first [reflexivity | split | eexists].
  - simpl. repeat first [reflexivity | split | eexists].
  - simpl. lia.
Defined.

(** The sequence the specification lists is not what the iterator yields
    on the sample call: the cookie's slot comes between the control
    expression and the call address. *)
Lemma call_use_edges_without_cookie_fails :
  UseEdges 8 sample_memory 10%N
  = Some [EarlyNodeRef 1%N; EarlyNodeRef 3%N; LateNodeRef 2%N; LateNodeRef 3%N;
          gtControlExpr_slot 10%N; gtCallCookie_slot 10%N; gtCallAddr_slot 10%N]
  /\ listed_call_edges sample_args 10%N [1%N; 2%N; 3%N] [2%N; 3%N] CT_INDIRECT
       (Some 31%N) (Some 32%N)
     = [EarlyNodeRef 1%N; EarlyNodeRef 3%N; LateNodeRef 2%N; LateNodeRef 3%N;
        gtControlExpr_slot 10%N; gtCallAddr_slot 10%N]
  /\ UseEdges 8 sample_memory 10%N
     <> Some (listed_call_edges sample_args 10%N [1%N; 2%N; 3%N] [2%N; 3%N] CT_INDIRECT
                (Some 31%N) (Some 32%N)).
Proof.
  split; [reflexivity|]. split; [reflexivity|]. vm_compute. discriminate.
Qed.

Lemma binop_use_edges_order_sample :
  UseEdges 2 sample_memory 3%N = Some [gtOp2_slot 3%N; gtOp1_slot 3%N]
  /\ IsReverseOp stale_parent = true.
Proof.
  split; [|reflexivity].
  etransitivity.
  - apply (UseEdgeFacts.binop_use_edges_order 2 sample_memory 3%N stale_parent 1%N 2%N);
      [reflexivity | reflexivity | lia].
  - reflexivity.
Defined.

Lemma iter_eq_across_nodes_sample :
  m_node (iter_on 1%N) <> m_node (iter_on 2%N)
  /\ iter_eq (iter_on 1%N) (iter_on 2%N) = false
  /\ iter_eq (do_Terminate (iter_on 1%N)) (do_Terminate (iter_on 2%N)) = true.
Proof.
  split; [discriminate|]. split.
  - destruct (UseEdgeFacts.iter_eq_across_nodes (iter_on 1%N) (iter_on 2%N)) as [_ H].
    rewrite H; [reflexivity | discriminate].
  - destruct (UseEdgeFacts.iter_eq_across_nodes (do_Terminate (iter_on 1%N))
                (do_Terminate (iter_on 2%N))) as [H _].
    apply H; reflexivity.
Defined.

(** Both groupings of [a.b.c] resolve to the node at address 5 of the
    store; the chain [a.c], built afterwards, gets a node of its own. *)
Example build_sample_handles :
  (r1 ← build left_nested FieldSeqStore_ctor;
   r2 ← build right_nested r1.1;
   r3 ← build (Concat (Singleton 8 Instance) (Singleton 24 Instance)) r2.1;
   Some (r1.2, r2.2, r3.2))
  = Some (arena_ptr 5, arena_ptr 5, arena_ptr 6).
Proof. reflexivity. Qed.

(** A leaf has no use edges; a call walked with too little fuel gives no
    answer rather than a short list. *)
Example UseEdges_sample_leaf : UseEdges 0 sample_memory 1%N = Some [].
Proof. reflexivity. Qed.

Example UseEdges_sample_short_fuel : UseEdges 5 sample_memory 10%N = None.
Proof. reflexivity. Qed.

End SampleFacts.

(** ** Flag bits of single nodes *)

Module NodeBitFacts.
Import GTF Node NodeBits FlagFacts.

(** Masking with a single bit tests that bit. *)
Lemma land_single_bit (f k : Z) :
  0 <= k -> (Z.land f (Z.shiftl 1 k) =? 0) = negb (Z.testbit f k).
Proof.
  intros Hk. rewrite Z.shiftl_1_l.
  destruct (Z.testbit f k) eqn:Hbit; simpl.
  - apply Z.eqb_neq. intros Hz.
    assert (Hb : Z.testbit (Z.land f (2 ^ k)) k = true)
      by (rewrite Z.land_spec, Hbit, Z.pow2_bits_true by lia; reflexivity).
    rewrite Hz, Z.bits_0 in Hb. discriminate.
  - apply Z.eqb_eq. apply Z.bits_inj'. intros i Hi.
    rewrite Z.land_spec, Z.bits_0, Z.pow2_bits_eqb by lia.
    destruct (Z.eqb_spec k i) as [->|Hne]; [now rewrite Hbit | apply andb_false_r].
Qed.

Lemma single_bit_testbit (k i : Z) :
  0 <= k -> Z.testbit (Z.shiftl 1 k) i = (k =? i).
Proof. intros Hk. rewrite Z.shiftl_1_l. apply Z.pow2_bits_eqb. assumption. Qed.

Lemma IsLastUse_bit (regIndex : Z) (n : GenTree) :
  0 <= regIndex -> IsLastUse regIndex n = Z.testbit (gtFlags n) (26 + regIndex).
Proof.
  intros Hi. unfold IsLastUse, GetLastUseBit, MULTIREG_LAST_USE_SHIFT, flags_and.
  rewrite land_single_bit by lia. apply negb_involutive.
Qed.

Lemma death_mask_bit (i : Z) :
  0 <= i -> Z.testbit GTF_VAR_DEATH_MASK i = (26 <=? i) && (i <? 30).
Proof.
  intros Hi. change GTF_VAR_DEATH_MASK with (Z.shiftl (Z.ones 4) 26).
  rewrite Z.shiftl_spec by assumption.
  destruct (Z.leb_spec 26 i) as [Hle|Hlt]; simpl.
  - destruct (Z.ltb_spec i 30).
    + apply Z.ones_spec_low. lia.
    + apply Z.ones_spec_high. lia.
  - apply Z.testbit_neg_r. lia.
Qed.

(** A node has a last use exactly when one of its four register positions
    is a last use. *)
Theorem HasLastUse_iff_some_index (n : GenTree) :
  HasLastUse n = true <-> exists regIndex, 0 <= regIndex < 4 /\ IsLastUse regIndex n = true.
Proof.
  unfold HasLastUse, flags_and. rewrite negb_true_iff, Z.eqb_neq. split.
  - intros Hnz.
    destruct (Z.testbit (gtFlags n) 26) eqn:H0; [exists 0; rewrite IsLastUse_bit by lia; auto with zarith|].
    destruct (Z.testbit (gtFlags n) 27) eqn:H1; [exists 1; rewrite IsLastUse_bit by lia; auto with zarith|].
    destruct (Z.testbit (gtFlags n) 28) eqn:H2; [exists 2; rewrite IsLastUse_bit by lia; auto with zarith|].
    destruct (Z.testbit (gtFlags n) 29) eqn:H3; [exists 3; rewrite IsLastUse_bit by lia; auto with zarith|].
    exfalso. apply Hnz. apply Z.bits_inj'. intros i Hi.
    rewrite Z.land_spec, Z.bits_0, death_mask_bit by assumption.
    destruct (Z.leb_spec 26 i), (Z.ltb_spec i 30); rewrite ?andb_false_r; try reflexivity.
    assert (Hcases : i = 26 \/ i = 27 \/ i = 28 \/ i = 29) by lia.
    destruct Hcases as [-> | [-> | [-> | ->]]]; rewrite ?H0, ?H1, ?H2, ?H3; reflexivity.
  - intros (i & Hi & Hlast) Hz. rewrite IsLastUse_bit in Hlast by lia.
    assert (Hb : Z.testbit (Z.land (gtFlags n) GTF_VAR_DEATH_MASK) (26 + i) = true).
    { rewrite Z.land_spec, Hlast, death_mask_bit by lia.
      destruct (Z.leb_spec 26 (26 + i)), (Z.ltb_spec (26 + i) 30); simpl; try reflexivity; lia. }
    rewrite Hz, Z.bits_0 in Hb. discriminate.
Qed.

(** Setting or clearing the last-use bit of one position reads back at that
    position, leaves the other positions as they were and does not touch
    the side-effect flags. *)
Theorem SetLastUse_ClearLastUse_frame (i j : Z) (n : GenTree) :
  0 <= i < 4 -> 0 <= j < 4 ->
  IsLastUse j (SetLastUse i n) = (i =? j) || IsLastUse j n
  /\ IsLastUse j (ClearLastUse i n) = negb (i =? j) && IsLastUse j n
  /\ effects (SetLastUse i n) = effects n
  /\ effects (ClearLastUse i n) = effects n.
Proof.
  intros Hi Hj. rewrite !IsLastUse_bit by lia.
  unfold SetLastUse, ClearLastUse, effects, GetLastUseBit, MULTIREG_LAST_USE_SHIFT. simpl.
  unfold flags_or, flags_and, flags_not.
  split; [|split; [|split]].
  - rewrite Z.lor_spec, single_bit_testbit by lia.
    destruct (Z.eqb_spec (26 + i) (26 + j)), (Z.eqb_spec i j); try lia; apply orb_comm.
  - rewrite !Z.land_spec, Z.lnot_spec, single_bit_testbit, uint_max_ones by lia.
    rewrite Z.ones_spec_low by lia.
    destruct (Z.eqb_spec (26 + i) (26 + j)), (Z.eqb_spec i j); try lia;
      destruct (Z.testbit (gtFlags n) (26 + j)); reflexivity.
  - apply Z.bits_inj'. intros k Hk.
    rewrite !Z.land_spec, Z.lor_spec, single_bit_testbit, all_effect_bit by lia.
    destruct (Z.eqb_spec (26 + i) k), (Z.ltb_spec k 5); try lia;
      destruct (Z.testbit (gtFlags n) k); reflexivity.
  - apply Z.bits_inj'. intros k Hk.
    rewrite !Z.land_spec, Z.lnot_spec, single_bit_testbit, all_effect_bit, uint_max_ones by lia.
    destruct (Z.ltb_spec k 5).
    + rewrite Z.ones_spec_low by lia.
      destruct (Z.eqb_spec (26 + i) k); try lia.
      destruct (Z.testbit (gtFlags n) k); reflexivity.
    + now rewrite !andb_false_r.
Qed.

(** *** Packed spill flags *)

Lemma spill_flags_check_holds (s1 s2 : bool) : spill_flags_check s1 s2 = true.
Proof. destruct s1, s2; vm_compute; reflexivity. Qed.

Lemma spill_part_cases (f : Z) :
  spill_part f
  = flags_or (if negb (flags_and f GTF_SPILL =? 0) then GTF_SPILL else 0)
             (if negb (flags_and f GTF_SPILLED =? 0) then GTF_SPILLED else 0).
Proof. reflexivity. Qed.

Lemma Set_spill_part (old f idx : Z) :
  SetMultiRegSpillFlagsByIdx old f idx = SetMultiRegSpillFlagsByIdx old (spill_part f) idx.
Proof.
  unfold SetMultiRegSpillFlagsByIdx, spill_part.
  destruct (negb (flags_and f GTF_SPILL =? 0)), (negb (flags_and f GTF_SPILLED =? 0));
    reflexivity.
Qed.

(** Writing the spill state of one register position into the packed byte
    and reading it back gives the [GTF_SPILL]/[GTF_SPILLED] part of what
    was written; the other positions read as before, and the result is
    again a byte. *)
Theorem spill_flags_round_trip (old f idx j : Z) :
  0 <= old < 256 -> 0 <= idx < 4 -> 0 <= j < 4 ->
  let new := SetMultiRegSpillFlagsByIdx old f idx in
  0 <= new < 256
  /\ GetMultiRegSpillFlagsByIdx new idx = spill_part f
  /\ (j <> idx -> GetMultiRegSpillFlagsByIdx new j = GetMultiRegSpillFlagsByIdx old j).
Proof.
  intros Hold Hidx Hj new. subst new. rewrite Set_spill_part, spill_part_cases.
  pose proof (spill_flags_check_holds (negb (flags_and f GTF_SPILL =? 0))
                (negb (flags_and f GTF_SPILLED =? 0))) as Hcheck.
  unfold spill_flags_check in Hcheck.
  rewrite forallb_forall in Hcheck.
  specialize (Hcheck (Z.to_nat old)). rewrite Z2Nat.id in Hcheck by lia.
  assert (Hin : In (Z.to_nat old) (seq 0 256)) by (apply in_seq; lia).
  specialize (Hcheck Hin). rewrite forallb_forall in Hcheck.
  specialize (Hcheck (Z.to_nat idx)). rewrite Z2Nat.id in Hcheck by lia.
  assert (Hin' : In (Z.to_nat idx) (seq 0 4)) by (apply in_seq; lia).
  specialize (Hcheck Hin').
  apply andb_prop in Hcheck as [Hcheck Hothers].
  apply andb_prop in Hcheck as [Hcheck Hback].
  apply andb_prop in Hcheck as [Hlo Hhi].
  apply Z.leb_le in Hlo. apply Z.ltb_lt in Hhi. apply Z.eqb_eq in Hback.
  split; [lia|]. split; [exact Hback|].
  intros Hne. rewrite forallb_forall in Hothers.
  specialize (Hothers (Z.to_nat j)). rewrite Z2Nat.id in Hothers by lia.
  assert (Hin'' : In (Z.to_nat j) (seq 0 4)) by (apply in_seq; lia).
  specialize (Hothers Hin'').
  apply orb_prop in Hothers as [Heq | Hsame].
  - apply Nat.eqb_eq in Heq. lia.
  - apply Z.eqb_eq in Hsame. exact Hsame.
Qed.

End NodeBitFacts.

(** ** Effects of constructors and of [SetAllEffectsFlags], continued *)

Module EffectMoreFacts.
Import GTF Node NodeBits Operands FlagFacts.

Lemma low_mask_bits (f m : Z) (i : Z) :
  0 <= i -> Z.testbit (Z.land f m) i = Z.testbit f i && Z.testbit m i.
Proof. intros _. apply Z.land_spec. Qed.

(** The macro reads only the effect bits. *)
Lemma globally_visible_effect_bits (f : Z) :
  GTF_GLOBALLY_VISIBLE_SIDE_EFFECTS (flags_and f GTF_ALL_EFFECT)
  = GTF_GLOBALLY_VISIBLE_SIDE_EFFECTS f.
Proof.
  unfold GTF_GLOBALLY_VISIBLE_SIDE_EFFECTS, flags_and.
  rewrite <- !Z.land_assoc. reflexivity.
Qed.

(** Adding flags never hides a visible effect. *)
Lemma globally_visible_mono (f g : Z) :
  flags_subset f g ->
  GTF_GLOBALLY_VISIBLE_SIDE_EFFECTS f = true ->
  GTF_GLOBALLY_VISIBLE_SIDE_EFFECTS g = true.
Proof.
  unfold flags_subset, GTF_GLOBALLY_VISIBLE_SIDE_EFFECTS, flags_and. intros Hsub.
  rewrite !orb_true_iff, !negb_true_iff, !Z.eqb_neq, !Z.eqb_eq.
  set (ce := flags_or GTF_CALL GTF_EXCEPT). set (ag := flags_or GTF_ASG GTF_GLOB_REF).
  intros [Hce | Hag].
  - left. intros Hz. apply Hce.
    rewrite <- Hsub, <- Z.land_assoc, (Z.land_comm g ce), Z.land_assoc.
    rewrite (Z.land_comm f ce), <- Z.land_assoc, (Z.land_comm f g), Z.land_assoc.
    rewrite (Z.land_comm ce g), Hz. reflexivity.
  - right. apply Z.bits_inj'. intros i Hi.
    assert (Hbit : Z.testbit (Z.land f ag) i = Z.testbit ag i) by now rewrite Hag.
    assert (Hsubbit : Z.testbit (Z.land f g) i = Z.testbit f i) by now rewrite Hsub.
    rewrite Z.land_spec in *.
    destruct (Z.testbit f i), (Z.testbit g i), (Z.testbit ag i); simpl in *; congruence.
Qed.

Section Constructors.
Variable GenTree_ctor : genTreeOps -> var_types -> GenTree.

Lemma GenTreeOp_ctor_flags (h : gmap N GenTree) (oper : genTreeOps) (type : var_types)
    (op1 op2 : option N) (n : GenTree) :
  GenTreeOp_ctor GenTree_ctor h oper type op1 op2 = Some n ->
  gtFlags n
  = flags_or (flags_or (gtFlags (GenTree_ctor oper type)) (operand_effects h op1))
      (operand_effects h op2)
  /\ payload n = OpPayload op1 op2
  /\ gtOper n = gtOper (GenTree_ctor oper type)
  /\ gtType n = gtType (GenTree_ctor oper type)
  /\ gtVNPair n = gtVNPair (GenTree_ctor oper type).
Proof.
  unfold GenTreeOp_ctor, GenTreeUnOp_ctor, operand_effects.
  destruct op1 as [p1|], op2 as [p2|]; simpl.
  - destruct (h !! p1) as [a|]; [|discriminate]. simpl.
    destruct (h !! p2) as [b|]; [|discriminate]. simpl.
    intros H. injection H as <-. simpl. auto.
  - destruct (h !! p1) as [a|]; [|discriminate]. simpl.
    intros H. injection H as <-. simpl. unfold flags_or. rewrite Z.lor_0_r. auto.
  - destruct (h !! p2) as [b|]; [|discriminate]. simpl.
    intros H. injection H as <-. simpl. unfold flags_or. rewrite Z.lor_0_r. auto.
  - intros H. injection H as <-. simpl. unfold flags_or. rewrite !Z.lor_0_r. auto.
Qed.

(** Whatever operands a node is built from, null ones included, its
    effect flags are the union of the operands' effect flags and its own,
    a null operand adding nothing; and no flag outside [GTF_ALL_EFFECT] is
    ever taken from an operand. *)
Theorem GenTreeOp_ctor_takes_only_effects (h : gmap N GenTree) (oper : genTreeOps)
    (type : var_types) (op1 op2 : option N) (n : GenTree) :
  GenTreeOp_ctor GenTree_ctor h oper type op1 op2 = Some n ->
  effects n
  = flags_or (flags_or (operand_effects h op1) (operand_effects h op2))
      (operatorIntrinsicEffects GenTree_ctor oper type)
  /\ (forall i, 5 <= i ->
        Z.testbit (gtFlags n) i = Z.testbit (gtFlags (GenTree_ctor oper type)) i).
Proof.
  intros Hctor. apply GenTreeOp_ctor_flags in Hctor as (Hf & _).
  assert (Heff : forall p i, 0 <= i ->
            Z.testbit (operand_effects h p) i = Z.testbit (operand_effects h p) i && (i <? 5)).
  { intros p i Hi. unfold operand_effects.
    destruct (deref h p) as [a|].
    - unfold effects, flags_and. rewrite Z.land_spec, all_effect_bit by assumption.
      destruct (Z.testbit (gtFlags a) i), (i <? 5); reflexivity.
    - unfold GTF_EMPTY. rewrite Z.bits_0. reflexivity. }
  split.
  - unfold effects at 1, operatorIntrinsicEffects, effects. rewrite Hf.
    apply Z.bits_inj'. intros i Hi.
    unfold flags_or, flags_and.
    rewrite !Z.land_spec, !Z.lor_spec, !Z.land_spec, all_effect_bit by assumption.
    rewrite (Heff op1 i Hi), (Heff op2 i Hi).
    destruct (Z.testbit (gtFlags (GenTree_ctor oper type)) i),
      (Z.testbit (operand_effects h op1) i), (Z.testbit (operand_effects h op2) i), (i <? 5);
      reflexivity.
  - intros i Hi. rewrite Hf. unfold flags_or. rewrite !Z.lor_spec.
    rewrite (Heff op1 i), (Heff op2 i) by lia.
    destruct (Z.ltb_spec i 5); [lia|]. now rewrite !andb_false_r, !orb_false_r.
Qed.

(** A node built over an operand with a globally visible side effect has a
    globally visible side effect itself. *)
Theorem GenTreeOp_ctor_globally_visible (h : gmap N GenTree) (oper : genTreeOps)
    (type : var_types) (op1 op2 : option N) (n a : GenTree) :
  GenTreeOp_ctor GenTree_ctor h oper type op1 op2 = Some n ->
  deref h op1 = Some a \/ deref h op2 = Some a ->
  GTF_GLOBALLY_VISIBLE_SIDE_EFFECTS (gtFlags a) = true ->
  GTF_GLOBALLY_VISIBLE_SIDE_EFFECTS (gtFlags n) = true.
Proof.
  intros Hctor Hop Hvis. apply GenTreeOp_ctor_flags in Hctor as (Hf & _).
  rewrite <- globally_visible_effect_bits in Hvis.
  apply (globally_visible_mono (flags_and (gtFlags a) GTF_ALL_EFFECT)); [|assumption].
  unfold flags_subset. rewrite Hf. unfold operand_effects.
  apply Z.bits_inj'. intros i Hi. unfold flags_and, flags_or, effects.
  rewrite !Z.land_spec, !Z.lor_spec.
  destruct Hop as [Hop | Hop]; rewrite Hop; unfold effects, flags_and; rewrite Z.land_spec;
    destruct (Z.testbit (gtFlags a) i), (Z.testbit GTF_ALL_EFFECT i);
    simpl; rewrite ?orb_true_r; reflexivity.
Qed.
End Constructors.

(** A second [SetAllEffectsFlags] overwrites the first: with source flags
    inside [GTF_ALL_EFFECT], as the function asserts, only the last call
    counts, and calling it twice with the same flags is calling it once. *)
Theorem SetAllEffectsFlags_last_wins (s1 s2 : Z) (n : GenTree) :
  flags_and s1 (flags_not GTF_ALL_EFFECT) = 0 ->
  SetAllEffectsFlags s2 (SetAllEffectsFlags s1 n) = SetAllEffectsFlags s2 n.
Proof.
  intros Hs1. unfold SetAllEffectsFlags, with_flags. simpl. f_equal.
  unfold flags_or, flags_and in *. f_equal.
  rewrite Z.land_lor_distr_l, Hs1, Z.lor_0_r, <- Z.land_assoc, Z.land_diag. reflexivity.
Qed.

(** Setting and clearing the reverse-evaluation flag reads back through
    [IsReverseOp] and leaves the effect flags and [CanCSE] as they were. *)
Theorem ReverseOp_toggle (n : GenTree) :
  IsReverseOp (SetReverseOp n) = true
  /\ IsReverseOp (ClearReverseOp n) = false
  /\ effects (SetReverseOp n) = effects n
  /\ effects (ClearReverseOp n) = effects n
  /\ CanCSE (SetReverseOp n) = CanCSE n
  /\ CanCSE (ClearReverseOp n) = CanCSE n.
Proof.
  assert (Hrev : GTF_REVERSE_OPS = Z.shiftl 1 5) by reflexivity.
  assert (Hcse : GTF_DONT_CSE = Z.shiftl 1 12) by reflexivity.
  unfold IsReverseOp, CanCSE, SetReverseOp, ClearReverseOp, effects, flags_and, flags_or,
    flags_not. simpl. rewrite Hrev, Hcse.
  rewrite !NodeBitFacts.land_single_bit by lia.
  rewrite !Z.lor_spec, !Z.land_spec, !Z.lnot_spec, !NodeBitFacts.single_bit_testbit by lia.
  rewrite uint_max_ones, !Z.ones_spec_low by lia. simpl.
  rewrite !orb_false_r, !andb_true_r.
  repeat split; try (now rewrite ?orb_true_r, ?andb_false_r).
  - apply Z.bits_inj'. intros i Hi.
    rewrite !Z.land_spec, Z.lor_spec, NodeBitFacts.single_bit_testbit, all_effect_bit by lia.
    destruct (Z.eqb_spec 5 i), (Z.ltb_spec i 5); try lia;
      destruct (Z.testbit (gtFlags n) i); reflexivity.
  - apply Z.bits_inj'. intros i Hi.
    rewrite !Z.land_spec, Z.lnot_spec, NodeBitFacts.single_bit_testbit, all_effect_bit by lia.
    destruct (Z.ltb_spec i 5).
    + rewrite Z.ones_spec_low by lia. destruct (Z.eqb_spec 5 i); try lia.
      destruct (Z.testbit (gtFlags n) i); reflexivity.
    + now rewrite !andb_false_r.
Qed.

End EffectMoreFacts.

(** ** Register arrays and return type descriptors *)

Module MultiRegFacts.
Import GTF Node MultiRegDesc.

Section Registers.
Variable MAX_RET_REG_COUNT : nat.
Variable REG_NA : regNumber.

#[local] Abbreviation GetRegCount := (GetRegCount MAX_RET_REG_COUNT REG_NA).
#[local] Abbreviation GetRegCount_from := (GetRegCount_from REG_NA).
#[local] Abbreviation GetRegNumByIdx := (GetRegNumByIdx MAX_RET_REG_COUNT).
#[local] Abbreviation SetRegNumByIdx := (SetRegNumByIdx MAX_RET_REG_COUNT).

Lemma gtOtherRegs_with_otherRegs (n : GenTree) (regs regs' : list Z) :
  gtOtherRegs_of n = Some regs -> gtOtherRegs_of (with_otherRegs regs' n) = Some regs'.
Proof.
  unfold gtOtherRegs_of, with_otherRegs. destruct (payload n); try discriminate. reflexivity.
Qed.

Lemma header_with_otherRegs (n : GenTree) (regs' : list Z) :
  gtFlags (with_otherRegs regs' n) = gtFlags n
  /\ _gtRegNum (with_otherRegs regs' n) = _gtRegNum n
  /\ gtOper (with_otherRegs regs' n) = gtOper n.
Proof. unfold with_otherRegs. destruct (payload n); auto. Qed.

(** A register written at a valid position of a copy/reload node reads
    back there, the other positions read as before and the flags are
    untouched; a position at or beyond [MAX_RET_REG_COUNT] is refused. *)
Theorem SetRegNumByIdx_round_trip (n : GenTree) (regs : list Z) (reg : regNumber)
    (idx j : nat) :
  gtOtherRegs_of n = Some regs ->
  length regs = (MAX_RET_REG_COUNT - 1)%nat ->
  0 <= reg < 256 ->
  (if decide (idx < MAX_RET_REG_COUNT)%nat then
     exists n',
       SetRegNumByIdx reg idx n = Some n'
       /\ GetRegNumByIdx idx n' = Some reg
       /\ (j <> idx -> GetRegNumByIdx j n' = GetRegNumByIdx j n)
       /\ gtFlags n' = gtFlags n
   else SetRegNumByIdx reg idx n = None /\ GetRegNumByIdx idx n = None).
Proof.
  intros Hregs Hlen Hreg.
  unfold Node.SetRegNumByIdx, Node.GetRegNumByIdx.
  destruct (decide (idx < MAX_RET_REG_COUNT)%nat) as [Hidx|Hidx]; [|auto].
  destruct (decide (idx = 0%nat)) as [->|Hnz].
  - eexists. split; [reflexivity|].
    destruct (decide (0 < MAX_RET_REG_COUNT)%nat); [|lia]. simpl.
    split; [|split; [|reflexivity]].
    + unfold GetRegNum, SetRegNum. simpl. f_equal.
      unfold to_regNumberSmall. apply Z.mod_small. lia.
    + intros Hj. destruct (decide (j < MAX_RET_REG_COUNT)%nat); [|reflexivity].
      destruct (decide (j = 0%nat)); [lia|]. reflexivity.
  - rewrite Hregs. simpl. eexists. split; [reflexivity|].
    rewrite (gtOtherRegs_with_otherRegs n regs _ Hregs). simpl.
    destruct (decide (idx < MAX_RET_REG_COUNT)%nat); [|lia].
    destruct (decide (idx = 0%nat)); [lia|].
    split; [|split].
    + rewrite list_lookup_insert_eq by lia. f_equal.
      unfold to_regNumberSmall. apply Z.mod_small. lia.
    + intros Hj. destruct (decide (j < MAX_RET_REG_COUNT)%nat); [|reflexivity].
      destruct (decide (j = 0%nat)).
      * unfold GetRegNum. f_equal. apply header_with_otherRegs.
      * apply list_lookup_insert_ne. lia.
    + apply header_with_otherRegs.
Qed.

Lemma GetRegCount_from_bound (regs : list Z) (i c : nat) :
  GetRegCount_from regs i = Some c -> (c <= Nat.max 1 i)%nat.
Proof.
  revert c. induction i as [|i' IH]; intros c; [simpl; intros H; injection H as <-; lia|].
  destruct i' as [|j]; [simpl; intros H; injection H as <-; lia|].
  rewrite CopyOrReloadFacts.GetRegCount_from_step.
  destruct (regs !! j) as [r|]; [|discriminate]. simpl.
  destruct (decide (r ≠ REG_NA)).
  - intros H. injection H as <-. lia.
  - intros H. apply IH in H. lia.
Qed.

Lemma GetRegCount_from_insert (regs : list Z) (k : nat) (r : Z) (i c : nat) :
  (k < length regs)%nat ->
  r <> REG_NA ->
  GetRegCount_from regs i = Some c ->
  GetRegCount_from (<[k := r]> regs) i
  = Some (if decide (k + 2 <= i)%nat then Nat.max c (k + 2) else c).
Proof.
  intros Hk Hr. revert c. induction i as [|i' IH]; intros c.
  - simpl. intros H. injection H as <-.
    destruct (decide (k + 2 <= 0)%nat); [lia|reflexivity].
  - destruct i' as [|j].
    + simpl. intros H. injection H as <-.
      destruct (decide (k + 2 <= 1)%nat); [lia|reflexivity].
    + intros Hc. pose proof (GetRegCount_from_bound _ _ _ Hc) as Hbound.
      rewrite CopyOrReloadFacts.GetRegCount_from_step in *.
      destruct (decide (j = k)) as [->|Hne].
      * rewrite list_lookup_insert_eq by assumption. simpl.
        destruct (decide (r ≠ REG_NA)); [|contradiction].
        destruct (decide (k + 2 <= S (S k))%nat); [|lia]. f_equal. lia.
      * rewrite list_lookup_insert_ne by auto.
        destruct (regs !! j) as [x|]; [|discriminate].
        cbn [mbind option_bind] in *.
        destruct (decide (x ≠ REG_NA)).
        -- injection Hc as <-.
           destruct (decide (k + 2 <= S (S j))%nat); f_equal; lia.
        -- rewrite (IH c Hc).
           destruct (decide (k + 2 <= S j)%nat), (decide (k + 2 <= S (S j))%nat);
             try reflexivity; lia.
Qed.

(** Assigning a register at a position after the first raises the count of
    a copy/reload node to that position plus one unless it was higher
    already; assigning the first position never changes the count. *)
Theorem GetRegCount_after_SetRegNumByIdx (n : GenTree) (regs : list Z) (reg : regNumber)
    (idx c : nat) :
  gtOtherRegs_of n = Some regs ->
  length regs = (MAX_RET_REG_COUNT - 1)%nat ->
  (idx < MAX_RET_REG_COUNT)%nat ->
  0 <= reg < 256 -> reg <> REG_NA ->
  GetRegCount n = Some c ->
  exists n',
    SetRegNumByIdx reg idx n = Some n'
    /\ GetRegCount n' = Some (if decide (idx = 0%nat) then c else Nat.max c (idx + 1)).
Proof.
  intros Hregs Hlen Hidx Hreg Hna Hc.
  unfold Node.SetRegNumByIdx. destruct (decide (idx < MAX_RET_REG_COUNT)%nat); [|lia].
  destruct (decide (idx = 0%nat)) as [->|Hnz].
  - eexists. split; [reflexivity|]. exact Hc.
  - rewrite Hregs. simpl. eexists. split; [reflexivity|].
    unfold Node.GetRegCount in *.
    rewrite (gtOtherRegs_with_otherRegs n regs _ Hregs). rewrite Hregs in Hc. simpl in *.
    unfold to_regNumberSmall. rewrite Z.mod_small by lia.
    rewrite (GetRegCount_from_insert regs (idx - 1) reg MAX_RET_REG_COUNT c) by (auto; lia).
    destruct (decide (idx - 1 + 2 <= MAX_RET_REG_COUNT)%nat); [|lia].
    f_equal. lia.
Qed.

Section Copy.
Variable UNIX_AMD64_ABI : bool.

Lemma copy_loop (src : list Z) (k : nat) :
  forall (s : nat) (rs : list Z),
    length rs = length src ->
    (s + k <= length src)%nat ->
    exists rs',
      foldl (fun acc i =>
               rs0 ← acc; r ← src !! i;
               if decide (i < length rs0)%nat then Some (<[i := r]> rs0) else None)
        (Some rs) (seq s k) = Some rs'
      /\ length rs' = length src
      /\ forall i, rs' !! i = if decide (s <= i < s + k)%nat then src !! i else rs !! i.
Proof.
  induction k as [|k IH]; intros s rs Hlen Hk; simpl.
  - exists rs. split; [reflexivity|]. split; [assumption|].
    intros i. destruct (decide _); [lia|reflexivity].
  - destruct (lookup_lt_is_Some_2 src s ltac:(lia)) as [r Hr]. rewrite Hr. simpl.
    destruct (decide (s < length rs)%nat); [|lia].
    destruct (IH (S s) (<[s := r]> rs)) as (rs' & Hfold & Hlen' & Hlook);
      [rewrite length_insert; assumption | lia |].
    exists rs'. split; [assumption|]. split; [assumption|].
    intros i. rewrite Hlook.
    destruct (decide (i = s)) as [->|Hne].
    + rewrite list_lookup_insert_eq by lia.
      destruct (decide (S s <= s < S s + k)%nat), (decide (s <= s < s + S k)%nat);
        try lia. now rewrite Hr.
    + rewrite list_lookup_insert_ne by auto.
      destruct (decide (S s <= i < S s + k)%nat), (decide (s <= i < s + S k)%nat);
        try reflexivity; lia.
Qed.

(** [CopyOtherRegs] is empty unless the build is for the Unix x64 ABI.
    There it copies every position after the first from the source node,
    so the copy has the source's register count, and it leaves the first
    position of the target as it was. *)
Theorem CopyOtherRegs_copies_tail (from this : GenTree) (src regs : list Z) :
  gtOtherRegs_of from = Some src ->
  gtOtherRegs_of this = Some regs ->
  length src = (MAX_RET_REG_COUNT - 1)%nat ->
  length regs = (MAX_RET_REG_COUNT - 1)%nat ->
  exists this',
    CopyOtherRegs MAX_RET_REG_COUNT UNIX_AMD64_ABI from this = Some this'
    /\ GetRegNumByIdx 0 this' = GetRegNumByIdx 0 this
    /\ if UNIX_AMD64_ABI then
         (forall idx, (1 <= idx)%nat -> GetRegNumByIdx idx this' = GetRegNumByIdx idx from)
         /\ GetRegCount this' = GetRegCount from
       else this' = this.
Proof.
  intros Hsrc Hregs Hlsrc Hlregs. unfold CopyOtherRegs.
  destruct UNIX_AMD64_ABI; [|exists this; auto].
  rewrite Hsrc, Hregs. simpl. unfold copy_regs.
  destruct (copy_loop src (MAX_RET_REG_COUNT - 1) 0 regs) as (rs' & Hfold & Hlen' & Hlook);
    [lia | lia |].
  rewrite Hfold. simpl.
  assert (rs' = src) as ->.
  { apply list_eq. intros i. rewrite Hlook.
    destruct (decide (0 <= i < 0 + (MAX_RET_REG_COUNT - 1))%nat); [reflexivity|].
    rewrite (lookup_ge_None_2 regs), (lookup_ge_None_2 src) by lia. reflexivity. }
  eexists. split; [reflexivity|].
  pose proof (gtOtherRegs_with_otherRegs this regs src Hregs) as Hnew.
  split; [|split].
  - unfold Node.GetRegNumByIdx, GetRegNum.
    destruct (decide (0 < MAX_RET_REG_COUNT)%nat); [|reflexivity]. simpl.
    f_equal. apply header_with_otherRegs.
  - intros idx Hidx. unfold Node.GetRegNumByIdx.
    destruct (decide (idx < MAX_RET_REG_COUNT)%nat); [|reflexivity].
    destruct (decide (idx = 0%nat)); [lia|]. now rewrite Hnew, Hsrc.
  - unfold Node.GetRegCount. now rewrite Hnew, Hsrc.
Qed.
End Copy.

End Registers.

Section Descriptor.
Variable MAX_RET_REG_COUNT : nat.
Variable TYP_UNKNOWN : var_types.

#[local] Abbreviation count_regs := (count_regs TYP_UNKNOWN).
#[local] Abbreviation GetReturnRegCount := (GetReturnRegCount MAX_RET_REG_COUNT TYP_UNKNOWN).
#[local] Abbreviation IsMultiRegRetType := (IsMultiRegRetType MAX_RET_REG_COUNT TYP_UNKNOWN).

Lemma count_regs_spec (regs : list Z) (todo : nat) :
  forall (i : nat) (acc : Z),
    (i + todo <= length regs)%nat ->
    exists c : nat,
      count_regs regs todo i acc = Some (acc + Z.of_nat c)
      /\ (c <= todo)%nat
      /\ (forall j, (i <= j < i + c)%nat -> exists t, regs !! j = Some t /\ t <> TYP_UNKNOWN)
      /\ ((c < todo)%nat -> regs !! (i + c)%nat = Some TYP_UNKNOWN).
Proof.
  induction todo as [|todo IH]; intros i acc Hlen; simpl.
  - exists 0%nat. rewrite Z.add_0_r. repeat split; intros; lia.
  - destruct (lookup_lt_is_Some_2 regs i ltac:(lia)) as [t Ht]. rewrite Ht. simpl.
    destruct (decide (t = TYP_UNKNOWN)) as [->|Hne].
    + exists 0%nat. rewrite Z.add_0_r, Nat.add_0_r.
      split; [reflexivity|]. split; [lia|]. split; [intros j Hj; lia | auto].
    + destruct (IH (S i) (acc + 1) ltac:(lia)) as (c & Hc & Hle & Hbelow & Hat).
      exists (S c). split; [rewrite Hc; f_equal; lia|]. split; [lia|]. split.
      * intros j Hj. destruct (decide (j = i)) as [->|Hji]; [eauto|]. apply Hbelow. lia.
      * intros Hlt. replace (i + S c)%nat with (S i + c)%nat by lia. apply Hat. lia.
Qed.

(** The register count of a descriptor is the length of the run of known
    types at the front of its array, and the type is a multi-register type
    exactly when that count is at least two: looking at the first two
    entries is enough. *)
Theorem IsMultiRegRetType_iff_count (d : ReturnTypeDesc) :
  length (m_regType d) = MAX_RET_REG_COUNT ->
  exists c : nat,
    GetReturnRegCount d = Some (Z.of_nat c)
    /\ (c <= MAX_RET_REG_COUNT)%nat
    /\ (forall j, (j < c)%nat -> exists t, m_regType d !! j = Some t /\ t <> TYP_UNKNOWN)
    /\ ((c < MAX_RET_REG_COUNT)%nat -> m_regType d !! c = Some TYP_UNKNOWN)
    /\ IsMultiRegRetType d = Some (bool_decide (2 <= c)%nat).
Proof.
  intros Hlen.
  destruct (count_regs_spec (m_regType d) MAX_RET_REG_COUNT 0 0 ltac:(lia))
    as (c & Hc & Hle & Hbelow & Hat).
  exists c. split; [exact Hc|]. split; [assumption|].
  split; [intros j Hj; apply Hbelow; lia|]. split; [exact Hat|].
  unfold MultiRegDesc.IsMultiRegRetType.
  destruct (decide (MAX_RET_REG_COUNT < 2)%nat) as [Hsmall|Hbig].
  - rewrite bool_decide_eq_false_2 by lia. reflexivity.
  - destruct (lookup_lt_is_Some_2 (m_regType d) 0 ltac:(lia)) as [t0 H0].
    destruct (lookup_lt_is_Some_2 (m_regType d) 1 ltac:(lia)) as [t1 H1].
    rewrite H0, H1. simpl. f_equal.
    destruct (decide (2 <= c)%nat) as [H2|H2].
    + rewrite (bool_decide_eq_true_2 (2 <= c)%nat) by assumption.
      destruct (Hbelow 0%nat ltac:(lia)) as (t & Ht & Hne).
      destruct (Hbelow 1%nat ltac:(lia)) as (t' & Ht' & Hne').
      rewrite H0 in Ht. rewrite H1 in Ht'. injection Ht as <-. injection Ht' as <-.
      rewrite !bool_decide_eq_true_2 by assumption. reflexivity.
    + rewrite (bool_decide_eq_false_2 (2 <= c)%nat) by assumption.
      specialize (Hat ltac:(lia)). simpl in Hat.
      destruct c as [|[|c]]; [| |lia].
      * rewrite H0 in Hat. injection Hat as ->.
        rewrite (bool_decide_eq_false_2 (TYP_UNKNOWN ≠ TYP_UNKNOWN)) by (intros H; now apply H).
        reflexivity.
      * rewrite H1 in Hat. injection Hat as ->.
        rewrite (bool_decide_eq_false_2 (TYP_UNKNOWN ≠ TYP_UNKNOWN)) by (intros H; now apply H).
        apply andb_false_r.
Qed.
End Descriptor.

End MultiRegFacts.

(** * More on field sequence nodes *)

Module FieldSeqMoreFacts.
Import FieldSeq FieldSeqTail.

Lemma handle_mask_bits (k : Z) :
  0 <= k ->
  Z.testbit (Z.land (Z.lnot FIELD_KIND_MASK) UINTPTR_MAX) k
  = (2 <=? k) && (k <? UINTPTR_BITS).
Proof.
  intros Hk. change UINTPTR_MAX with (Z.ones 64). change FIELD_KIND_MASK with (Z.ones 2).
  rewrite Z.land_spec, Z.lnot_spec by assumption. unfold UINTPTR_BITS.
  destruct (Z.leb_spec 2 k), (Z.ltb_spec k 64);
    rewrite ?(Z.ones_spec_low 2 k), ?(Z.ones_spec_high 2 k),
            ?(Z.ones_spec_low 64 k), ?(Z.ones_spec_high 64 k) by lia; reflexivity.
Qed.

Lemma handle_kind_disjoint (fsn : FieldSeqNode) :
  Z.land (GetFieldHandleValue fsn) (GetKind fsn) = 0.
Proof.
  unfold GetFieldHandleValue, GetKind. apply Z.bits_inj'. intros k Hk.
  pose proof (handle_mask_bits k Hk) as Hm.
  set (m := Z.land (Z.lnot FIELD_KIND_MASK) UINTPTR_MAX) in *.
  rewrite !Z.land_spec, Hm, Z.bits_0.
  change FIELD_KIND_MASK with (Z.ones 2). unfold UINTPTR_BITS.
  destruct (Z.leb_spec 2 k).
  - rewrite (Z.ones_spec_high 2 k) by lia. now rewrite !andb_false_r.
  - simpl. now rewrite andb_false_r.
Qed.

Lemma handle_kind_cover (fsn : FieldSeqNode) :
  0 <= m_fieldHandleAndKind fsn < 2 ^ UINTPTR_BITS ->
  Z.lor (GetFieldHandleValue fsn) (GetKind fsn) = m_fieldHandleAndKind fsn.
Proof.
  intros Hx. unfold GetFieldHandleValue, GetKind.
  rewrite <- Z.land_lor_distr_r.
  change (Z.lor (Z.land (Z.lnot FIELD_KIND_MASK) UINTPTR_MAX) FIELD_KIND_MASK)
    with (Z.ones UINTPTR_BITS).
  rewrite Z.land_ones by (unfold UINTPTR_BITS; lia).
  apply Z.mod_small. assumption.
Qed.

Lemma GetKind_range (fsn : FieldSeqNode) : 0 <= GetKind fsn < 4.
Proof.
  unfold GetKind. change FIELD_KIND_MASK with (Z.ones 2).
  rewrite Z.land_ones by lia. apply Z.mod_pos_bound. reflexivity.
Qed.

Lemma word_sum (fsn : FieldSeqNode) :
  0 <= m_fieldHandleAndKind fsn < 2 ^ UINTPTR_BITS ->
  GetFieldHandleValue fsn + GetKind fsn = m_fieldHandleAndKind fsn.
Proof.
  intros Hx. rewrite Z.add_nocarry_lxor by apply handle_kind_disjoint.
  rewrite Z.lxor_lor by apply handle_kind_disjoint.
  now apply handle_kind_cover.
Qed.

(** The word of a node is its field handle plus its kind: the kind is one
    of the four values of the two low bits, the handle has those two bits
    clear, and nothing of a pointer-sized word is lost. *)
Theorem handle_and_kind_partition (fsn : FieldSeqNode) :
  0 <= m_fieldHandleAndKind fsn < 2 ^ UINTPTR_BITS ->
  GetFieldHandleValue fsn + GetKind fsn = m_fieldHandleAndKind fsn
  /\ 0 <= GetKind fsn < 4
  /\ GetFieldHandleValue fsn mod 4 = 0
  /\ 0 <= GetFieldHandleValue fsn < 2 ^ UINTPTR_BITS.
Proof.
  intros Hx. pose proof (word_sum fsn Hx) as Hsum.
  pose proof (GetKind_range fsn) as Hk.
  assert (GetFieldHandleValue fsn mod 4 = 0) as Hmod.
  { change 4 with (2 ^ 2). rewrite <- Z.land_ones by lia.
    unfold GetFieldHandleValue. apply Z.bits_inj'. intros k Hk0.
    pose proof (handle_mask_bits k Hk0) as Hm.
    set (m := Z.land (Z.lnot FIELD_KIND_MASK) UINTPTR_MAX) in *.
    rewrite !Z.land_spec, Hm, Z.bits_0.
    destruct (Z.leb_spec 2 k).
    - rewrite (Z.ones_spec_high 2 k) by lia. now rewrite !andb_false_r.
    - rewrite (Z.ones_spec_low 2 k) by lia. simpl. now rewrite andb_false_r. }
  assert (0 <= GetFieldHandleValue fsn).
  { unfold GetFieldHandleValue. apply Z.land_nonneg. left. lia. }
  repeat split; try assumption; try lia.
Qed.

(** [Equals] compares the packed words, and that is the same as comparing
    handle, kind and tail one by one: the header's remark that the kind
    need not be masked away for comparison. *)
Theorem Equals_iff_fields (fsn1 fsn2 : FieldSeqNode) :
  0 <= m_fieldHandleAndKind fsn1 < 2 ^ UINTPTR_BITS ->
  0 <= m_fieldHandleAndKind fsn2 < 2 ^ UINTPTR_BITS ->
  Equals fsn1 fsn2 = true
  <-> GetFieldHandleValue fsn1 = GetFieldHandleValue fsn2
      /\ GetKind fsn1 = GetKind fsn2
      /\ GetNext fsn1 = GetNext fsn2.
Proof.
  intros H1 H2. unfold Equals, GetNext.
  rewrite andb_true_iff, Z.eqb_eq, FieldSeqFacts.FieldSeqPtr_eqb_eq.
  pose proof (word_sum fsn1 H1) as S1. pose proof (word_sum fsn2 H2) as S2.
  split.
  - intros [Hw Hn]. unfold GetFieldHandleValue, GetKind. rewrite Hw. auto.
  - intros (Hh & Hk & Hn). split; [lia | assumption].
Qed.

Lemma GetTail_walk_represents (st : FieldSeqStore) (x : Z) (l : list Z) :
  forall (p : FieldSeqPtr) (fuel : nat),
    (length l <= fuel)%nat ->
    represents st p (l ++ [x]) ->
    exists t nt, GetTail_walk fuel st p = Some (arena_ptr t)
                 /\ m_alloc st !! t = Some nt
                 /\ m_fieldHandleAndKind nt = x
                 /\ m_next nt = nullptr.
Proof.
  induction l as [|y l IH]; intros p fuel Hfuel Hrep.
  - simpl in Hrep. destruct Hrep as (a & n & -> & Ha & Hx & Hnext).
    exists a, n. repeat split; try assumption.
    destruct fuel; simpl; rewrite Ha; simpl; rewrite Hnext; reflexivity.
  - simpl in Hrep. destruct Hrep as (a & n & -> & Ha & Hy & Hrest).
    destruct fuel as [|fuel]; [simpl in Hfuel; lia|].
    assert (exists a', m_next n = arena_ptr a') as [a' Ha'].
    { destruct l; simpl in Hrest; destruct Hrest as (a' & ? & -> & _); eauto. }
    destruct (IH (m_next n) fuel) as (t & nt & Hw & Ht & Hxt & Hnt);
      [simpl in Hfuel; lia | assumption |].
    exists t, nt. repeat split; try assumption.
    simpl. rewrite Ha. simpl. rewrite Ha'. rewrite Ha' in Hw. exact Hw.
Qed.

(** [GetTail] on a handle of a consistent store returns: the loop ends at
    the node holding the last field of the chain, whose tail pointer is
    null, and asking that node for its tail gives the node itself. *)
Theorem GetTail_last_field (st : FieldSeqStore) (p : FieldSeqPtr) (l : list Z) (x : Z) :
  store_ok st ->
  represents st p (l ++ [x]) ->
  exists t nt, GetTail st p = Some (arena_ptr t)
               /\ m_alloc st !! t = Some nt
               /\ m_fieldHandleAndKind nt = x
               /\ GetNext nt = nullptr
               /\ GetTail st (arena_ptr t) = Some (arena_ptr t).
Proof.
  intros Hok Hrep.
  pose proof (FieldSeqFacts.represents_bound st (l ++ [x]) p Hok Hrep) as Hlen.
  rewrite length_app in Hlen. simpl in Hlen.
  destruct (GetTail_walk_represents st x l p (length (m_alloc st))) as (t & nt & Hw & Ht & Hx & Hn);
    [lia | assumption |].
  exists t, nt. repeat split; try assumption.
  unfold GetTail. destruct (length (m_alloc st)); simpl; rewrite Ht; simpl; rewrite Hn; reflexivity.
Qed.

End FieldSeqMoreFacts.

(** * Assertion indices and CSE numbers *)

Module AssertionFacts.
Import Assertions.

(** [GetAssertionIndex] turns a 0-based index into the 1-based one as long
    as the result fits sixteen bits; it returns [NO_ASSERTION_INDEX]
    exactly for the indices that are 65535 modulo 65536. *)
Theorem GetAssertionIndex_one_based (index : Z) :
  0 <= index < 2 ^ 32 ->
  (index < 65535 -> GetAssertionIndex index = index + 1)
  /\ (GetAssertionIndex index = NO_ASSERTION_INDEX <-> index mod 65536 = 65535).
Proof.
  intros Hi. unfold GetAssertionIndex, to_ushort, to_uint32, NO_ASSERTION_INDEX.
  change (2 ^ 32) with 4294967296 in *. change (2 ^ 16) with 65536.
  split.
  - intros Hlt. rewrite (Z.mod_small (index + 1)) by lia. apply Z.mod_small. lia.
  - destruct (Z.eq_dec index 4294967295) as [->|Hne]; [split; reflexivity|].
    rewrite (Z.mod_small (index + 1) 4294967296) by lia.
    pose proof (Z.div_mod index 65536 ltac:(lia)) as Hd.
    pose proof (Z.mod_pos_bound index 65536 ltac:(lia)) as Hb.
    split.
    + intros H0.
      assert ((index + 1) = 65536 * ((index + 1) / 65536)) as Hm.
      { pose proof (Z.div_mod (index + 1) 65536 ltac:(lia)). lia. }
      destruct (Z.eq_dec (index mod 65536) 65535) as [|Hn]; [assumption|].
      exfalso.
      assert ((index + 1) mod 65536 = index mod 65536 + 1) as Hs.
      { symmetry. apply (Z.mod_unique_pos _ _ (index / 65536)); lia. }
      lia.
    + intros H1. symmetry. apply (Z.mod_unique_pos _ _ (index / 65536 + 1)); lia.
Qed.

(** For an index that fits the fifteen-bit field (what the constructor
    asserts), [ForNextEdge] keeps the index and marks the next edge exactly
    when there is an assertion, while the plain constructor never marks
    it; [Clear] gives back the default value. *)
Theorem ForNextEdge_marks_only_assertions (assertionIndex : Z) :
  0 <= assertionIndex < 2 ^ 15 ->
  AssertionIndex_of (ForNextEdge assertionIndex) = assertionIndex
  /\ IsNextEdgeAssertion (ForNextEdge assertionIndex)
     = HasAssertion (ForNextEdge assertionIndex)
  /\ HasAssertion (ForNextEdge assertionIndex)
     = HasAssertion (AssertionInfo_of assertionIndex)
  /\ IsNextEdgeAssertion (AssertionInfo_of assertionIndex) = false
  /\ Clear (ForNextEdge assertionIndex) = AssertionInfo_default.
Proof.
  intros Hi.
  unfold ForNextEdge, AssertionInfo_of, AssertionInfo_ctor, AssertionIndex_of,
    IsNextEdgeAssertion, HasAssertion, Clear, AssertionInfo_default, NO_ASSERTION_INDEX.
  cbn [m_assertionIndex m_isNextEdgeAssertion].
  rewrite (Z.mod_small assertionIndex) by lia.
  destruct (Z.eqb_spec assertionIndex 0); repeat split; reflexivity.
Qed.

(** A non-zero CSE number is a use or a def and never both; negating it
    with [TO_CSE_DEF] swaps the two and keeps the index, which is
    positive. *)
Theorem CSE_use_def_swap (x : Z) :
  IS_CSE_INDEX x = true ->
  IS_CSE_USE x = negb (IS_CSE_DEF x)
  /\ IS_CSE_DEF (TO_CSE_DEF x) = IS_CSE_USE x
  /\ IS_CSE_USE (TO_CSE_DEF x) = IS_CSE_DEF x
  /\ GET_CSE_INDEX (TO_CSE_DEF x) = GET_CSE_INDEX x
  /\ 0 < GET_CSE_INDEX x
  /\ IS_CSE_INDEX (TO_CSE_DEF x) = true.
Proof.
  unfold IS_CSE_INDEX, IS_CSE_USE, IS_CSE_DEF, GET_CSE_INDEX, TO_CSE_DEF.
  intros H. apply negb_true_iff, Z.eqb_neq in H.
  destruct (Z.gtb_spec x 0), (Z.ltb_spec x 0), (Z.gtb_spec (- x) 0),
    (Z.ltb_spec (- x) 0), (Z.eqb_spec (- x) 0); simpl; repeat split; lia.
Qed.

End AssertionFacts.

(** * Field lists *)

Module FieldListFacts.
Import Node FieldList.

Lemma chain_seg_app (h : gmap N Use) (l1 l2 : list N) :
  forall (p q : option N),
    chain_seg h p (l1 ++ l2) q
    <-> exists m, chain_seg h p l1 m /\ chain_seg h m l2 q.
Proof.
  induction l1 as [|a l1 IH]; intros p q; simpl.
  - split.
    + intros H. exists p. auto.
    + intros (m & -> & H). exact H.
  - split.
    + intros (-> & u & Hu & Hrest). apply IH in Hrest as (m & H1 & H2).
      exists m. split; [|assumption]. split; [reflexivity|]. eauto.
    + intros (m & (-> & u & Hu & H1) & H2). split; [reflexivity|].
      exists u. split; [assumption|]. apply IH. eauto.
Qed.

Lemma chain_seg_frame (h : gmap N Use) (b : N) (ub : Use) (l : list N) :
  forall (p q : option N),
    b ∉ l -> chain_seg h p l q -> chain_seg (<[b := ub]> h) p l q.
Proof.
  induction l as [|a l IH]; intros p q Hb; simpl; [auto|].
  intros (-> & u & Hu & Hrest). split; [reflexivity|].
  exists u. split.
  - rewrite lookup_insert_ne; [assumption|]. intros ->. apply Hb. left.
  - apply IH; [|assumption]. intros Hin. apply Hb. now right.
Qed.

Lemma chain_from_functional (h : gmap N Use) (l l' : list N) :
  forall (p : option N), chain_from h p l -> chain_from h p l' -> l = l'.
Proof.
  unfold chain_from. revert l'.
  induction l as [|a l IH]; intros l' p; destruct l' as [|a' l']; simpl.
  - reflexivity.
  - intros -> (H & _). discriminate.
  - intros (-> & _) H. discriminate.
  - intros (-> & u & Hu & Hl) (Heq & u' & Hu' & Hl').
    injection Heq as <-. rewrite Hu in Hu'. injection Hu' as <-.
    f_equal. eapply IH; eassumption.
Qed.

(** A null-terminated list visits no use twice. *)
Lemma chain_from_NoDup (h : gmap N Use) (l : list N) :
  forall (p : option N), chain_from h p l -> NoDup l.
Proof.
  induction l as [|a l IH]; intros p Hc; [constructor|].
  pose proof Hc as (-> & u & Hu & Hrest).
  constructor; [|eapply IH; exact Hrest].
  intros Hin. apply list_elem_of_split in Hin as (l1 & l2 & ->).
  pose proof Hrest as Hsplit. apply chain_seg_app in Hsplit as (m & H1 & H2).
  pose proof H2 as (-> & _).
  pose proof (chain_from_functional h _ _ (Some a) Hc H2) as Heq.
  apply (f_equal length) in Heq. simpl in Heq. rewrite length_app in Heq. simpl in Heq. lia.
Qed.

Lemma chain_seg_dom (h : gmap N Use) (l : list N) :
  forall (p q : option N) (a : N), chain_seg h p l q -> a ∈ l -> is_Some (h !! a).
Proof.
  induction l as [|b l IH]; intros p q a Hc Hin.
  - inversion Hin.
  - destruct Hc as (-> & u & Hu & Hrest).
    apply elem_of_cons in Hin as [->|Hin]; [eauto|]. eapply IH; eassumption.
Qed.

(** So a list has no more uses than the memory holds. *)
Lemma chain_from_length (h : gmap N Use) (l : list N) (p : option N) :
  chain_from h p l -> (length l <= size h)%nat.
Proof.
  intros Hc. rewrite <- length_map_to_list, <- (length_fmap fst).
  apply submseteq_length, NoDup_submseteq; [eapply chain_from_NoDup; eassumption|].
  intros a Hin. destruct (chain_seg_dom h l p None a Hc Hin) as [u Hu].
  apply list_elem_of_fmap. exists (a, u). split; [reflexivity|].
  now apply elem_of_map_to_list.
Qed.

Lemma chain_head (h : gmap N Use) (l : list N) (p q : option N) :
  chain_seg h p l q -> l <> [] -> p = head l.
Proof. destruct l; simpl; [congruence|]. now intros (-> & _) _. Qed.

Lemma same_payload_refl (h : gmap N Use) : same_payload h h.
Proof. intros a. reflexivity. Qed.

Lemma same_payload_insert (h h' : gmap N Use) (a : N) (u : Use) (next : option N) :
  same_payload h h' -> h' !! a = Some u ->
  same_payload h (<[a := SetNext u next]> h').
Proof.
  intros Hs Hu b. destruct (decide (b = a)) as [->|Hne].
  - rewrite lookup_insert_eq. rewrite <- Hs, Hu. reflexivity.
  - rewrite lookup_insert_ne by congruence. apply Hs.
Qed.

(** [AddUse] of a new, unlinked use to a well-formed list gives the list
    with that use at the end; only one link in memory changes. *)
Theorem AddUse_appends (h : gmap N Use) (ul : UseList) (l : list N) (newUse : N) (u : Use) :
  list_ok h ul l ->
  h !! newUse = Some u ->
  GetNext u = None ->
  newUse ∉ l ->
  exists h' ul',
    AddUse h ul (Some newUse) = Some (h', ul')
    /\ list_ok h' ul' (l ++ [newUse])
    /\ same_payload h h'.
Proof.
  intros [Hc Ht] Hu Hnext Hnew. unfold AddUse.
  destruct l as [|a0 l0] using rev_ind.
  - simpl in Hc. hnf in Hc. simpl in Hc. rewrite Hc.
    eexists _, _. split; [reflexivity|]. split; [|apply same_payload_refl].
    split; simpl.
    + hnf. simpl. split; [reflexivity|]. exists u. split; [assumption|]. exact Hnext.
    + reflexivity.
  - clear IHl0.
    assert (l0 ++ [a0] <> []) as Hne by (destruct l0; discriminate).
    specialize (Ht Hne). rewrite last_snoc in Ht.
    pose proof (chain_head _ _ _ _ Hc Hne) as Hh.
    destruct (m_head ul) as [hd|] eqn:Hhd;
      [|destruct l0; discriminate].
    rewrite Ht. cbn [mbind option_bind].
    pose proof (chain_from_NoDup _ _ _ Hc) as Hnd.
    apply NoDup_app in Hnd as (_ & Hdisj & _).
    apply chain_seg_app in Hc as (m & H1 & H2).
    pose proof H2 as (-> & ua & Hua & Hend). simpl in Hend.
    rewrite Hua. cbn [mbind option_bind].
    eexists _, _. split; [reflexivity|]. split.
    + split; cbn [m_head m_tail].
      * rewrite <- app_assoc. apply chain_seg_app. exists (Some a0). split.
        -- apply chain_seg_frame; [|assumption].
           intros Hin. apply (Hdisj a0 Hin). left.
        -- simpl. split; [reflexivity|]. eexists. split; [apply lookup_insert_eq|].
           simpl. split; [reflexivity|]. exists u. split; [|exact Hnext].
           rewrite lookup_insert_ne; [assumption|].
           intros ->. apply Hnew. apply elem_of_app. right. left.
      * intros _. now rewrite last_snoc.
    + apply same_payload_insert; [apply same_payload_refl | assumption].
Qed.

(** [InsertUse] of a new, unlinked use after a use of a well-formed list
    puts it right behind that use and keeps the rest in order; [m_tail]
    follows when the insertion is at the end. *)
Theorem InsertUse_inserts (h : gmap N Use) (ul : UseList) (l1 l2 : list N)
    (insertAfter newUse : N) (u : Use) :
  list_ok h ul (l1 ++ insertAfter :: l2) ->
  h !! newUse = Some u ->
  GetNext u = None ->
  newUse ∉ l1 ++ insertAfter :: l2 ->
  exists h' ul',
    InsertUse h ul (Some insertAfter) (Some newUse) = Some (h', ul')
    /\ list_ok h' ul' (l1 ++ insertAfter :: newUse :: l2)
    /\ same_payload h h'.
Proof.
  intros [Hc Ht] Hu Hnext Hnew. unfold InsertUse. cbn [mbind option_bind].
  assert (l1 ++ insertAfter :: l2 <> []) as Hne by (destruct l1; discriminate).
  specialize (Ht Hne).
  pose proof (chain_from_NoDup _ _ _ Hc) as Hnd.
  apply NoDup_app in Hnd as (_ & Hdisj & Hnd2).
  apply NoDup_cons in Hnd2 as (Hnotin2 & _).
  pose proof Hc as Hc0.
  apply chain_seg_app in Hc as (m & H1 & H2).
  pose proof H2 as (-> & ua & Hua & Hrest).
  assert (newUse <> insertAfter) as Hneq.
  { intros ->. apply Hnew. apply elem_of_app. right. left. }
  rewrite Hua. cbn [mbind option_bind]. rewrite Hu. cbn [mbind option_bind].
  rewrite lookup_insert_ne by congruence. rewrite Hua. cbn [mbind option_bind].
  eexists _, _. split; [reflexivity|]. split.
  - split.
    + assert (m_head (if bool_decide (m_tail ul = Some insertAfter)
                      then mkUseList (m_head ul) (Some newUse) else ul) = m_head ul) as ->
        by (destruct (bool_decide _); reflexivity).
      apply chain_seg_app. exists (Some insertAfter). split.
      * apply chain_seg_frame; [intros Hin; apply (Hdisj insertAfter Hin); left|].
        apply chain_seg_frame; [|assumption].
        intros Hin. apply Hnew. apply elem_of_app. now left.
      * simpl. split; [reflexivity|]. eexists. split; [apply lookup_insert_eq|].
        simpl. split; [reflexivity|]. eexists. split.
        -- rewrite lookup_insert_ne by congruence. apply lookup_insert_eq.
        -- simpl. apply chain_seg_frame; [assumption|].
           apply chain_seg_frame; [|assumption].
           intros Hin. apply Hnew. apply elem_of_app. right. now right.
    + intros _.
      destruct l2 as [|b l2] using rev_ind.
      * rewrite last_snoc in Ht. rewrite Ht. rewrite bool_decide_eq_true_2 by reflexivity.
        simpl. change (l1 ++ [insertAfter; newUse]) with (l1 ++ [insertAfter] ++ [newUse]).
        rewrite !app_assoc. now rewrite last_snoc.
      * clear IHl2.
        change (l1 ++ insertAfter :: l2 ++ [b]) with (l1 ++ (insertAfter :: l2) ++ [b]) in Ht.
        rewrite app_assoc, last_snoc in Ht.
        assert (b <> insertAfter) as Hb.
        { intros ->. apply Hnotin2. apply elem_of_app. right. left. }
        rewrite bool_decide_eq_false_2 by congruence.
        change (l1 ++ insertAfter :: newUse :: l2 ++ [b])
          with (l1 ++ (insertAfter :: newUse :: l2) ++ [b]).
        rewrite app_assoc, last_snoc. exact Ht.
  - apply same_payload_insert.
    + apply same_payload_insert; [apply same_payload_refl | assumption].
    + rewrite lookup_insert_ne by congruence. assumption.
Qed.

Lemma Reverse_loop_spec (l2 : list N) :
  forall (h : gmap N Use) (head use : option N) (l1 : list N) (fuel : nat),
    (length l2 <= fuel)%nat ->
    chain_from h use l2 ->
    chain_from h head l1 ->
    (forall a, a ∈ l2 -> a ∉ l1) ->
    exists h' head',
      Reverse_loop fuel h head use = Some (h', head')
      /\ chain_from h' head' (reverse l2 ++ l1)
      /\ same_payload h h'
      /\ (forall a, a ∉ l2 -> h' !! a = h !! a).
Proof.
  induction l2 as [|a l2 IH]; intros h head use l1 fuel Hfuel Hc2 Hc1 Hdisj.
  - hnf in Hc2. simpl in Hc2. subst use.
    exists h, head. destruct fuel; simpl; repeat split; auto; apply same_payload_refl.
  - pose proof (chain_from_NoDup _ _ _ Hc2) as Hnd.
    apply NoDup_cons in Hnd as (Hnotin & _).
    destruct Hc2 as (-> & u & Hu & Hrest).
    destruct fuel as [|fuel]; [simpl in Hfuel; lia|].
    cbn [Reverse_loop]. rewrite Hu. cbn [mbind option_bind].
    destruct (IH (<[a := SetNext u head]> h) (Some a) (GetNext u) (a :: l1) fuel)
      as (h' & head' & Hrun & Hc & Hpay & Hframe).
    + simpl in Hfuel. lia.
    + apply chain_seg_frame; assumption.
    + hnf. simpl. split; [reflexivity|]. eexists. split; [apply lookup_insert_eq|].
      simpl. apply chain_seg_frame; [|assumption].
      apply Hdisj. left.
    + intros b Hb Hin. apply elem_of_cons in Hin as [->|Hin]; [contradiction|].
      apply (Hdisj b); [now right | assumption].
    + exists h', head'. split; [assumption|]. split; [|split].
      * rewrite reverse_cons, <- app_assoc. exact Hc.
      * intros b. rewrite Hpay. apply (same_payload_insert h h a u head);
          [apply same_payload_refl | assumption].
      * intros b Hb. rewrite Hframe.
        -- apply lookup_insert_ne. intros ->. apply Hb. left.
        -- intros Hin. apply Hb. now right.
Qed.

Lemma Reverse_spec (h : gmap N Use) (ul : UseList) (l : list N) :
  list_ok h ul l ->
  exists h' ul',
    Reverse h ul = Some (h', ul')
    /\ list_ok h' ul' (reverse l)
    /\ same_payload h h'
    /\ (forall a, a ∉ l -> h' !! a = h !! a).
Proof.
  intros [Hc Ht]. unfold Reverse.
  destruct (Reverse_loop_spec l h None (m_head ul) [] (size h))
    as (h' & head' & Hrun & Hc' & Hpay & Hframe).
  - eapply chain_from_length. eassumption.
  - assumption.
  - reflexivity.
  - intros a _ Hin. inversion Hin.
  - rewrite Hrun. cbn [mbind option_bind].
    eexists _, _. split; [reflexivity|]. rewrite app_nil_r in Hc'.
    split; [|split; assumption].
    split; cbn [m_head m_tail]; [assumption|].
    intros Hne. rewrite last_reverse. eapply chain_head; [eassumption|].
    intros ->. apply Hne. reflexivity.
Qed.

(** [Reverse] of a well-formed list returns, and gives the well-formed
    list of the same uses in the opposite order; uses outside the list
    are not touched. *)
Theorem Reverse_reverses (h : gmap N Use) (ul : UseList) (l : list N) :
  list_ok h ul l ->
  exists h' ul',
    Reverse h ul = Some (h', ul')
    /\ list_ok h' ul' (reverse l)
    /\ same_payload h h'
    /\ (forall a, a ∉ l -> h' !! a = h !! a).
Proof.
  intros [Hc Ht]. unfold Reverse.
  destruct (Reverse_loop_spec l h None (m_head ul) [] (size h))
    as (h' & head' & Hrun & Hc' & Hpay & Hframe).
  - eapply chain_from_length. eassumption.
  - assumption.
  - reflexivity.
  - intros a _ Hin. inversion Hin.
  - rewrite Hrun. cbn [mbind option_bind].
    eexists _, _. split; [reflexivity|]. rewrite app_nil_r in Hc'.
    split; [|split; assumption].
    split; cbn [m_head m_tail]; [assumption|].
    intros Hne. rewrite last_reverse. eapply chain_head; [eassumption|].
    intros ->. apply Hne. reflexivity.
Qed.

(** In a list, the link of each use is the next use of the list. *)
Lemma chain_from_next (h : gmap N Use) (l : list N) :
  forall (p : option N) (i : nat) (a : N),
    chain_from h p l -> l !! i = Some a ->
    exists u, h !! a = Some u /\ GetNext u = l !! S i.
Proof.
  induction l as [|b l IH]; intros p i a Hc Hi; [discriminate|].
  destruct Hc as (-> & u & Hu & Hrest).
  destruct i as [|i].
  - injection Hi as <-. exists u. split; [assumption|].
    destruct l as [|c l]; [exact Hrest | destruct Hrest as (Hn & _); exact Hn].
  - simpl in Hi. apply (IH (m_next u) i a Hrest Hi).
Qed.

Lemma Use_eq (u v : Use) :
  use_payload u = use_payload v -> GetNext u = GetNext v -> u = v.
Proof.
  destruct u, v. unfold use_payload, GetNode, GetOffset, GetType, GetNext. simpl.
  intros H ->. injection H as -> -> ->. reflexivity.
Qed.

(** Two memories that hold the same list with the same uses agree on
    every use of the list. *)
Lemma chain_from_same (h h' : gmap N Use) (l : list N) (p p' : option N) (a : N) :
  chain_from h p l -> chain_from h' p' l -> same_payload h h' ->
  a ∈ l -> h' !! a = h !! a.
Proof.
  intros Hc Hc' Hpay Hin. apply list_elem_of_lookup in Hin as [i Hi].
  destruct (chain_from_next h l p i a Hc Hi) as (u & Hu & Hn).
  destruct (chain_from_next h' l p' i a Hc' Hi) as (u' & Hu' & Hn').
  rewrite Hu, Hu'. f_equal. apply Use_eq; [|congruence].
  pose proof (Hpay a) as Ha. rewrite Hu, Hu' in Ha. simpl in Ha. congruence.
Qed.

(** Reversing a well-formed list twice gives back the memory as it was,
    link by link, and the list header of a list that has uses. *)
Theorem Reverse_twice (h : gmap N Use) (ul : UseList) (l : list N) :
  list_ok h ul l ->
  exists h1 ul1 ul2,
    Reverse h ul = Some (h1, ul1)
    /\ Reverse h1 ul1 = Some (h, ul2)
    /\ GetHead ul2 = GetHead ul
    /\ (l <> [] -> ul2 = ul).
Proof.
  intros Hok.
  destruct (Reverse_spec h ul l Hok) as (h1 & ul1 & Hr1 & Hok1 & Hpay1 & Hout1).
  destruct (Reverse_spec h1 ul1 (reverse l) Hok1) as (h2 & ul2 & Hr2 & Hok2 & Hpay2 & Hout2).
  rewrite reverse_involutive in Hok2.
  assert (h2 = h) as ->.
  { apply map_eq. intros a. destruct (decide (a ∈ l)) as [Hin|Hnin].
    - destruct Hok as [Hc _], Hok2 as [Hc2 _].
      apply (chain_from_same h h2 l _ _ a Hc Hc2); [|assumption].
      intros b. rewrite Hpay2. apply Hpay1.
    - rewrite Hout2 by (rewrite elem_of_reverse; assumption). now apply Hout1. }
  exists h1, ul1, ul2. split; [assumption|]. split; [assumption|].
  destruct Hok as [Hc Ht], Hok2 as [Hc2 Ht2].
  assert (m_head ul2 = m_head ul) as Hhead.
  { destruct l as [|a l].
    - hnf in Hc, Hc2. simpl in Hc, Hc2. congruence.
    - destruct Hc as (-> & _), Hc2 as (-> & _). reflexivity. }
  split; [exact Hhead|].
  intros Hne. specialize (Ht Hne). specialize (Ht2 Hne).
  destruct ul, ul2. simpl in *. congruence.
Qed.

Lemma IsSorted_loop_spec (h : gmap N Use) (l : list N) :
  forall (p : option N) (fuel : nat) (offset : Z),
    (length l <= fuel)%nat ->
    chain_from h p l ->
    exists b, IsSorted_loop fuel h p offset = Some b
              /\ (b = true <-> StronglySorted Z.le (offset :: (offset_at h <$> l))).
Proof.
  induction l as [|a l IH]; intros p fuel offset Hfuel Hc.
  - hnf in Hc. simpl in Hc. subst p. exists true.
    split; [destruct fuel; reflexivity|]. split; [|reflexivity].
    intros _. repeat constructor.
  - destruct Hc as (-> & u & Hu & Hrest).
    destruct fuel as [|fuel]; [simpl in Hfuel; lia|].
    cbn [IsSorted_loop]. rewrite Hu. cbn [mbind option_bind].
    assert (offset_at h a = GetOffset u) as Hoff by (unfold offset_at; now rewrite Hu).
    rewrite fmap_cons, Hoff.
    destruct (Z.ltb_spec (GetOffset u) offset) as [Hlt|Hge].
    + exists false. split; [reflexivity|]. split; [discriminate|].
      intros Hs. apply StronglySorted_inv in Hs as [_ Hall].
      apply Forall_cons in Hall as [Hle _]. lia.
    + destruct (IH (GetNext u) fuel (GetOffset u)) as (b & Hrun & Hb);
        [simpl in Hfuel; lia | assumption |].
      exists b. split; [assumption|]. rewrite Hb. split.
      * intros Hs. constructor; [assumption|].
        constructor; [assumption|].
        apply StronglySorted_inv in Hs as [_ Hall].
        eapply Forall_impl; [eassumption|]. intros x Hx. simpl in Hx. lia.
      * intros Hs. now apply StronglySorted_inv in Hs as [Hs _].
Qed.

(** [IsSorted] on a list of uses whose offsets are unsigned returns, and
    says whether every offset is at most all the later ones. *)
Theorem IsSorted_iff_offsets_ascend (h : gmap N Use) (ul : UseList) (l : list N) :
  chain_from h (GetHead ul) l ->
  Forall (fun o => 0 <= o) (offset_at h <$> l) ->
  exists b, IsSorted h ul = Some b
            /\ (b = true <-> StronglySorted Z.le (offset_at h <$> l)).
Proof.
  intros Hc Hpos. unfold IsSorted.
  destruct (IsSorted_loop_spec h l (m_head ul) (size h) 0) as (b & Hrun & Hb).
  - eapply chain_from_length. eassumption.
  - assumption.
  - exists b. split; [assumption|]. rewrite Hb. split.
    + intros Hs. now apply StronglySorted_inv in Hs as [Hs _].
    + intros Hs. constructor; assumption.
Qed.

Section Equals.

Variable Compare : option N -> option N -> bool.

Lemma uses_differ_false (u1 u2 : Use) :
  uses_differ Compare u1 u2 = false
  <-> Compare (GetNode u1) (GetNode u2) = true
      /\ GetOffset u1 = GetOffset u2 /\ GetType u1 = GetType u2.
Proof.
  unfold uses_differ. rewrite !orb_false_iff, !negb_false_iff, !Z.eqb_eq. tauto.
Qed.

Lemma Equals_loop_spec (h : gmap N Use) (l1 : list N) :
  forall (l2 : list N) (i1 i2 : option N) (fuel : nat),
    (length l1 <= fuel)%nat ->
    chain_from h i1 l1 ->
    chain_from h i2 l2 ->
    exists b, Equals_loop Compare fuel h i1 i2 = Some b
              /\ (b = true <-> Forall2 (uses_match Compare h) l1 l2).
Proof.
  induction l1 as [|a1 l1 IH]; intros l2 i1 i2 fuel Hfuel Hc1 Hc2.
  - hnf in Hc1. simpl in Hc1. subst i1.
    destruct l2 as [|a2 l2].
    + hnf in Hc2. simpl in Hc2. subst i2. exists true.
      split; [destruct fuel; reflexivity|]. split; [constructor | reflexivity].
    + destruct Hc2 as (-> & _). exists false.
      split; [destruct fuel; reflexivity|]. split; [discriminate|].
      intros Hf. inversion Hf.
  - destruct Hc1 as (-> & u1 & Hu1 & Hrest1).
    destruct l2 as [|a2 l2].
    + hnf in Hc2. simpl in Hc2. subst i2. exists false.
      split; [destruct fuel; reflexivity|]. split; [discriminate|].
      intros Hf. inversion Hf.
    + destruct Hc2 as (-> & u2 & Hu2 & Hrest2).
      destruct fuel as [|fuel]; [simpl in Hfuel; lia|].
      cbn [Equals_loop]. rewrite Hu1. cbn [mbind option_bind].
      rewrite Hu2. cbn [mbind option_bind].
      destruct (uses_differ Compare u1 u2) eqn:Hd.
      * exists false. split; [reflexivity|]. split; [discriminate|].
        intros Hf. apply Forall2_cons in Hf as [(v1 & v2 & Hv1 & Hv2 & Hm) _].
        rewrite Hu1 in Hv1. rewrite Hu2 in Hv2.
        injection Hv1 as <-. injection Hv2 as <-.
        apply uses_differ_false in Hm. congruence.
      * destruct (IH l2 (GetNext u1) (GetNext u2) fuel) as (b & Hrun & Hb);
          [simpl in Hfuel; lia | assumption | assumption |].
        exists b. split; [assumption|]. rewrite Hb.
        apply uses_differ_false in Hd. split.
        -- intros Hf. constructor; [|assumption]. exists u1, u2. tauto.
        -- intros Hf. now apply Forall2_cons in Hf as [_ Hf].
Qed.

(** [Equals] on two field lists returns, and holds exactly when the lists
    have the same number of uses and the uses match pairwise, in order:
    nodes that [Compare] equal, same offset, same type. *)
Theorem Equals_iff_uses_match (h : gmap N Use) (uses1 uses2 : UseList) (l1 l2 : list N) :
  chain_from h (GetHead uses1) l1 ->
  chain_from h (GetHead uses2) l2 ->
  exists b, Equals Compare h uses1 uses2 = Some b
            /\ (b = true <-> length l1 = length l2 /\ Forall2 (uses_match Compare h) l1 l2).
Proof.
  intros Hc1 Hc2. unfold Equals.
  destruct (Equals_loop_spec h l1 l2 (m_head uses1) (m_head uses2) (size h))
    as (b & Hrun & Hb); [eapply chain_from_length; eassumption | assumption | assumption |].
  exists b. split; [assumption|]. rewrite Hb. split.
  - intros Hf. split; [eapply Forall2_length; eassumption | assumption].
  - tauto.
Qed.

End Equals.

End FieldListFacts.

(** * Chains of commas *)

Module CommaChainFacts.
Import GTF Node CommaChains.

Section Wrappers.

Variable GT_COMMA : Z.
Variable GT_NOP : Z.

#[local] Abbreviation moves := (moves_to GT_COMMA GT_NOP).
#[local] Abbreviation stops := (stops_at GT_COMMA GT_NOP).
#[local] Abbreviation path := (wrapper_path GT_COMMA GT_NOP).

Lemma moves_functional (c : bool) (n : GenTree) (b b' : N) :
  moves c n b -> moves c n b' -> b = b'.
Proof.
  unfold moves_to. destruct (gtOper n =? GT_COMMA).
  - congruence.
  - intros [_ H1] [_ H2]. congruence.
Qed.

Lemma moves_not_stops (c : bool) (n : GenTree) (b : N) :
  moves c n b -> stops c n -> False.
Proof.
  unfold moves_to, stops_at. destruct (gtOper n =? GT_COMMA).
  - intros _ [H _]. discriminate.
  - intros [Hc H1] [_ H2]. specialize (H2 Hc). congruence.
Qed.

Lemma path_lookup (c : bool) (h : gmap N GenTree) (a : N) (l : list N) (last : N) :
  path c h a l last -> is_Some (h !! a).
Proof. destruct l; simpl; [intros (_ & m & Hm & _) | intros ((m & Hm & _) & _)]; eauto. Qed.

Lemma path_functional (c : bool) (h : gmap N GenTree) (l : list N) :
  forall (l' : list N) (a last last' : N),
    path c h a l last -> path c h a l' last' -> l = l'.
Proof.
  induction l as [|b l IH]; intros l' a last last'; destruct l' as [|b' l']; simpl.
  - reflexivity.
  - intros (_ & n & Hn & Hs) ((n' & Hn' & Hm) & _).
    rewrite Hn in Hn'. injection Hn' as <-. destruct (moves_not_stops _ _ _ Hm Hs).
  - intros ((n & Hn & Hm) & _) (_ & n' & Hn' & Hs).
    rewrite Hn in Hn'. injection Hn' as <-. destruct (moves_not_stops _ _ _ Hm Hs).
  - intros ((n & Hn & Hm) & Hrest) ((n' & Hn' & Hm') & Hrest').
    rewrite Hn in Hn'. injection Hn' as <-.
    pose proof (moves_functional _ _ _ _ Hm Hm') as <-.
    f_equal. eapply IH; eassumption.
Qed.

Lemma path_suffix (c : bool) (h : gmap N GenTree) (l1 l2 : list N) (b last : N) :
  forall (a : N), path c h a (l1 ++ b :: l2) last -> path c h b l2 last.
Proof.
  induction l1 as [|x l1 IH]; intros a; simpl.
  - now intros (_ & H).
  - intros (_ & H). eapply IH. eassumption.
Qed.

(** A chain that ends visits no node twice. *)
Lemma path_NoDup (c : bool) (h : gmap N GenTree) (l : list N) :
  forall (a last : N), path c h a l last -> NoDup (a :: l).
Proof.
  induction l as [|b l IH]; intros a last Hp.
  - repeat constructor. intros H. inversion H.
  - constructor; [|destruct Hp as (_ & Hrest); eapply IH; eassumption].
    intros Hin. apply list_elem_of_split in Hin as (l1 & l2 & Heq).
    pose proof Hp as Hp'. rewrite Heq in Hp'. apply path_suffix in Hp'.
    pose proof (path_functional _ _ _ _ _ _ _ Hp Hp') as Hl.
    apply (f_equal length) in Hl. apply (f_equal length) in Heq.
    rewrite length_app in Heq. simpl in Heq, Hl. lia.
Qed.

Lemma path_dom (c : bool) (h : gmap N GenTree) (l : list N) :
  forall (a last x : N), path c h a l last -> x ∈ a :: l -> is_Some (h !! x).
Proof.
  induction l as [|b l IH]; intros a last x Hp Hin.
  - apply list_elem_of_singleton in Hin as ->. eapply path_lookup. eassumption.
  - apply elem_of_cons in Hin as [->|Hin]; [eapply path_lookup; eassumption|].
    destruct Hp as (_ & Hrest). eapply IH; eassumption.
Qed.

Lemma path_length (c : bool) (h : gmap N GenTree) (l : list N) (a last : N) :
  path c h a l last -> (length l < size h)%nat.
Proof.
  intros Hp. rewrite <- length_map_to_list, <- (length_fmap fst).
  change (length (a :: l) <= length ((map_to_list h).*1))%nat.
  apply submseteq_length, NoDup_submseteq; [eapply path_NoDup; eassumption|].
  intros x Hin. destruct (path_dom c h l a last x Hp Hin) as [n Hn].
  apply list_elem_of_fmap. exists (x, n). split; [reflexivity|].
  now apply elem_of_map_to_list.
Qed.

(** Changing the type of a node changes no chain. *)
Lemma path_retype (c : bool) (h : gmap N GenTree) (b : N) (nb : GenTree) (t : Z)
    (l : list N) :
  forall (a last : N),
    h !! b = Some nb ->
    path c h a l last -> path c (<[b := with_type t nb]> h) a l last.
Proof.
  induction l as [|x l IH]; intros a last Hb; simpl.
  - intros (-> & n & Hn & Hs). split; [reflexivity|].
    destruct (decide (last = b)) as [->|Hne].
    + rewrite lookup_insert_eq. rewrite Hb in Hn. injection Hn as ->.
      eexists. split; [reflexivity|]. exact Hs.
    + rewrite lookup_insert_ne by congruence. eauto.
  - intros ((n & Hn & Hm) & Hrest). split; [|apply IH; assumption].
    destruct (decide (a = b)) as [->|Hne].
    + rewrite lookup_insert_eq. rewrite Hb in Hn. injection Hn as ->.
      eexists. split; [reflexivity|]. exact Hm.
    + rewrite lookup_insert_ne by congruence. eauto.
Qed.

Lemma gtEffectiveVal_loop_path (c : bool) (h : gmap N GenTree) (l : list N) :
  forall (a last : N) (fuel : nat),
    (length l <= fuel)%nat ->
    path c h a l last ->
    gtEffectiveVal_loop GT_COMMA GT_NOP fuel h c (Some a) = Some (Some last).
Proof.
  induction l as [|b l IH]; intros a last fuel Hfuel Hp.
  - destruct Hp as (-> & n & Hn & Hc & Hs).
    destruct fuel; simpl; rewrite Hn; simpl; rewrite Hc;
      (destruct (negb c && (gtOper n =? GT_NOP)); [rewrite (Hs eq_refl)|]; reflexivity).
  - destruct Hp as ((n & Hn & Hm) & Hrest).
    destruct fuel as [|fuel]; [simpl in Hfuel; lia|].
    assert (gtEffectiveVal_loop GT_COMMA GT_NOP fuel h c (Some b) = Some (Some last)) as Hrec
      by (apply IH; [simpl in Hfuel; lia | assumption]).
    simpl. rewrite Hn. simpl. unfold moves_to in Hm.
    destruct (gtOper n =? GT_COMMA).
    + rewrite Hm. simpl. exact Hrec.
    + destruct Hm as [-> Hm]. rewrite Hm. simpl. exact Hrec.
Qed.

Lemma gtEffectiveVal_path (c : bool) (h : gmap N GenTree) (this : N) (l : list N) (last : N) :
  path c h this l last ->
  gtEffectiveVal GT_COMMA GT_NOP h this c = Some (Some last).
Proof.
  intros Hp. unfold gtEffectiveVal.
  pose proof (path_length _ _ _ _ _ Hp) as Hlen.
  apply (gtEffectiveVal_loop_path c h l); [lia | assumption].
Qed.

(** [gtEffectiveVal] on a chain of wrappers returns, and gives the node at
    the end of the chain: no comma and, unless [commaOnly], no [GT_NOP]
    with an operand.  On that node it is the identity. *)
Theorem gtEffectiveVal_end_of_chain (c : bool) (h : gmap N GenTree) (this : N)
    (l : list N) (last : N) :
  path c h this l last ->
  gtEffectiveVal GT_COMMA GT_NOP h this c = Some (Some last)
  /\ gtEffectiveVal GT_COMMA GT_NOP h last c = Some (Some last)
  /\ exists n, h !! last = Some n
               /\ gtOper n <> GT_COMMA
               /\ (c = false -> gtOper n = GT_NOP -> AsOp_gtOp1 n = Some None).
Proof.
  intros Hp. unfold gtEffectiveVal.
  pose proof (path_length _ _ _ _ _ Hp) as Hlen.
  assert (path c h last [] last /\ exists n, h !! last = Some n /\ stops c n) as [Hlast Hn].
  { clear Hlen. revert this Hp. induction l as [|b l IH]; intros a Hp.
    - destruct Hp as (-> & n & Hn & Hs). simpl. split; [split; [reflexivity|]|]; eauto.
    - destruct Hp as (_ & Hrest). eapply IH. eassumption. }
  split; [apply (gtEffectiveVal_loop_path c h l); [lia | assumption]|].
  split; [apply (gtEffectiveVal_loop_path c h []); [simpl; lia | assumption]|].
  destruct Hn as (n & Hn & Hc & Hs). exists n. split; [assumption|]. split.
  - now apply Z.eqb_neq.
  - intros -> Hnop. apply Hs. simpl. now apply Z.eqb_eq.
Qed.

Lemma with_type_id (t : Z) (n : GenTree) : gtType n = t -> with_type t n = n.
Proof. destruct n. unfold with_type. simpl. now intros ->. Qed.

Lemma ChangeType_loop_path (newType : Z) (l : list N) :
  forall (h : gmap N GenTree) (a last : N) (fuel : nat),
    (length l <= fuel)%nat ->
    path true h a l last ->
    exists h',
      ChangeType_loop GT_COMMA fuel h newType (Some a) = Some h'
      /\ forall x, h' !! x = if bool_decide (x ∈ l)
                             then with_type newType <$> h !! x
                             else h !! x.
Proof.
  induction l as [|b l IH]; intros h a last fuel Hfuel Hp.
  - destruct Hp as (-> & n & Hn & Hc & _). exists h. split.
    + destruct fuel; simpl; rewrite Hn; simpl; rewrite Hc; reflexivity.
    + intros x. rewrite bool_decide_eq_false_2; [reflexivity|]. intros H. inversion H.
  - pose proof Hp as ((n & Hn & Hm) & Hrest).
    destruct fuel as [|fuel]; [simpl in Hfuel; lia|].
    destruct (path_lookup _ _ _ _ _ Hrest) as [n2 Hn2].
    unfold moves_to in Hm.
    destruct (gtOper n =? GT_COMMA) eqn:Hc; [|destruct Hm as [Hm _]; discriminate].
    set (h1 := <[b := with_type newType n2]> h).
    assert ((if negb (gtType n2 =? newType)
             then <[b := with_type newType n2]> h else h) = h1) as Hh1.
    { destruct (Z.eqb_spec (gtType n2) newType) as [Heq|]; [|reflexivity].
      simpl. unfold h1. rewrite with_type_id by assumption.
      symmetry. now apply insert_id. }
    destruct (IH h1 b last fuel) as (h' & Hrun & Hspec).
    + simpl in Hfuel. lia.
    + apply path_retype; assumption.
    + exists h'. split.
      * simpl. rewrite Hn. simpl. rewrite Hc, Hm. simpl. rewrite Hn2. simpl.
        rewrite Hh1. exact Hrun.
      * intros x. rewrite Hspec. unfold h1.
        destruct (decide (x = b)) as [->|Hne].
        -- rewrite lookup_insert_eq, Hn2.
           rewrite (bool_decide_eq_true_2 (b ∈ b :: l)) by left.
           destruct (bool_decide (b ∈ l)); reflexivity.
        -- rewrite lookup_insert_ne by congruence.
           destruct (decide (x ∈ l)) as [Hin|Hnin].
           ++ rewrite !bool_decide_eq_true_2; [reflexivity | now right | assumption].
           ++ rewrite !bool_decide_eq_false_2; [reflexivity | | assumption].
              intros Hin. apply elem_of_cons in Hin as [|]; contradiction.
Qed.

(** [ChangeType] on a node returns, and gives the new type to the node and
    to every node of the comma chain under it, down to the value the
    commas stand for; nothing else in memory changes, and no node changes
    anything but its type. *)
Theorem ChangeType_retypes_comma_chain (h : gmap N GenTree) (this : N) (newType : Z)
    (l : list N) (last : N) :
  path true h this l last ->
  exists h',
    ChangeType GT_COMMA h this newType = Some h'
    /\ (forall x, h' !! x = if bool_decide (x ∈ this :: l)
                            then with_type newType <$> h !! x
                            else h !! x)
    /\ gtEffectiveVal GT_COMMA GT_NOP h' this true = Some (Some last)
    /\ gtType <$> h' !! last = Some newType.
Proof.
  intros Hp. unfold ChangeType.
  pose proof (path_length _ _ _ _ _ Hp) as Hlen.
  destruct (path_lookup _ _ _ _ _ Hp) as [n Hn]. rewrite Hn. cbn [mbind option_bind].
  destruct (ChangeType_loop_path newType l (<[this := with_type newType n]> h) this last (size h))
    as (h' & Hrun & Hspec); [lia | apply path_retype; assumption |].
  assert (forall x, h' !! x = if bool_decide (x ∈ this :: l)
                              then with_type newType <$> h !! x else h !! x) as Hall.
  { intros x. rewrite Hspec.
    destruct (decide (x = this)) as [->|Hne].
    - rewrite lookup_insert_eq, Hn.
      rewrite (bool_decide_eq_true_2 (this ∈ this :: l)) by left.
      destruct (bool_decide (this ∈ l)); reflexivity.
    - rewrite lookup_insert_ne by congruence.
      destruct (decide (x ∈ l)) as [Hin|Hnin].
      + rewrite !bool_decide_eq_true_2; [reflexivity | now right | assumption].
      + rewrite !bool_decide_eq_false_2; [reflexivity | | assumption].
        intros Hin. apply elem_of_cons in Hin as [|]; contradiction. }
  exists h'. split; [assumption|]. split; [assumption|].
  assert (path true h' this l last) as Hp'.
  { clear Hrun Hspec Hlen Hn n. revert this Hp Hall.
    assert (forall (l0 : list N) (a : N), (forall x, h' !! x = if bool_decide (x ∈ l0)
                                     then with_type newType <$> h !! x else h !! x) ->
                         path true h a l last -> path true h' a l last) as Hgen.
    { intros l0 a Hall. revert a. induction l as [|b l IH]; intros a; simpl.
      - intros (-> & m & Hm & Hs). split; [reflexivity|]. rewrite Hall, Hm.
        destruct (bool_decide _); eexists; (split; [reflexivity|]); exact Hs.
      - intros ((m & Hm & Hmv) & Hrest). split; [|apply IH; assumption].
        rewrite Hall, Hm.
        destruct (bool_decide _); eexists; (split; [reflexivity|]); exact Hmv. }
    intros this Hp Hall. eapply Hgen; eassumption. }
  split.
  - apply (gtEffectiveVal_path true h' this l last Hp').
  - rewrite Hall.
    assert (last ∈ this :: l) as Hin.
    { clear -Hp. revert this Hp. induction l as [|b l IH]; intros a; simpl.
      - intros (-> & _). left.
      - intros (_ & Hrest). right. now apply IH. }
    rewrite bool_decide_eq_true_2 by assumption.
    assert (is_Some (h !! last)) as [nl ->]
      by (eapply path_dom; eassumption).
    reflexivity.
Qed.

End Wrappers.

End CommaChainFacts.

(** * More on the iterator's equality *)

Module UseEdgeMoreFacts.
Import Node UseEdges.

(** [operator==] is an equivalence on iterators, and it never looks at
    the advance function: any two exhausted iterators are one class, and
    the others are told apart by node, edge, state pointer and state. *)
Theorem iter_eq_equivalence (a b c : GenTreeUseEdgeIterator) (f : option AdvanceFn) :
  iter_eq a a = true
  /\ iter_eq a b = iter_eq b a
  /\ (iter_eq a b = true -> iter_eq b c = true -> iter_eq a c = true)
  /\ iter_eq (mkIter f (m_node a) (m_edge a) (m_statePtr a) (m_state a)) b = iter_eq a b.
Proof.
  unfold iter_eq. cbn [m_node m_edge m_statePtr m_state].
  split; [|split; [|split]].
  - destruct (Z.eqb_spec (m_state a) (-1)); simpl.
    + apply Z.eqb_refl.
    + rewrite !bool_decide_eq_true_2 by reflexivity. simpl. apply Z.eqb_refl.
  - rewrite (Z.eqb_sym (m_state b) (m_state a)), (orb_comm (m_state b =? -1)).
    destruct ((m_state a =? -1) || (m_state b =? -1)); [reflexivity|].
    f_equal. f_equal; [f_equal|]; apply bool_decide_ext; split; congruence.
  - destruct (Z.eqb_spec (m_state a) (-1)) as [Ha|Ha],
      (Z.eqb_spec (m_state b) (-1)) as [Hb|Hb],
      (Z.eqb_spec (m_state c) (-1)) as [Hc|Hc]; simpl;
      rewrite ?andb_true_iff, ?Z.eqb_eq, ?bool_decide_eq_true; intros H1 H2;
      try lia.
    destruct H1 as [[[? ?] ?] ?], H2 as [[[? ?] ?] ?]. repeat split; congruence.
  - reflexivity.
Qed.

End UseEdgeMoreFacts.

(** * More samples *)

Module MoreSampleFacts.
Import GTF Node Samples MoreSamples.

Lemma SetLastUse_ClearLastUse_frame_sample :
  NodeBits.IsLastUse 1 (NodeBits.SetLastUse 2 multireg_local) = true
  /\ NodeBits.IsLastUse 1 (NodeBits.ClearLastUse 2 multireg_local) = true
  /\ effects (NodeBits.SetLastUse 2 multireg_local) = effects multireg_local
  /\ effects (NodeBits.ClearLastUse 2 multireg_local) = effects multireg_local.
Proof.
  apply (NodeBitFacts.SetLastUse_ClearLastUse_frame 2 1 multireg_local); lia.
Defined.

Lemma spill_flags_round_trip_sample :
  let new := NodeBits.SetMultiRegSpillFlagsByIdx 27 GTF_SPILLED 2 in
  0 <= new < 256
  /\ NodeBits.GetMultiRegSpillFlagsByIdx new 2 = NodeBits.spill_part GTF_SPILLED
  /\ (0 <> 2 -> NodeBits.GetMultiRegSpillFlagsByIdx new 0
                = NodeBits.GetMultiRegSpillFlagsByIdx 27 0).
Proof.
  apply (NodeBitFacts.spill_flags_round_trip 27 GTF_SPILLED 2 0); lia.
Defined.

Lemma GenTreeOp_ctor_takes_only_effects_sample :
  effects built_parent
  = flags_or (flags_or (Operands.operand_effects sample_heap (Some 1%N))
                (Operands.operand_effects sample_heap (Some 2%N)))
      (operatorIntrinsicEffects plain_ctor 9 3)
  /\ (forall i, 5 <= i ->
        Z.testbit (gtFlags built_parent) i = Z.testbit (gtFlags (plain_ctor 9 3)) i).
Proof.
  apply (EffectMoreFacts.GenTreeOp_ctor_takes_only_effects plain_ctor sample_heap 9 3
           (Some 1%N) (Some 2%N) built_parent).
  reflexivity.
Defined.

Lemma GenTreeOp_ctor_globally_visible_sample :
  GTF_GLOBALLY_VISIBLE_SIDE_EFFECTS (gtFlags built_parent) = true.
Proof.
  apply (EffectMoreFacts.GenTreeOp_ctor_globally_visible plain_ctor sample_heap 9 3
           (Some 1%N) (Some 2%N) built_parent calling_leaf).
  - reflexivity.
  - left. reflexivity.
  - reflexivity.
Defined.

Lemma SetAllEffectsFlags_last_wins_sample :
  SetAllEffectsFlags GTF_EXCEPT (SetAllEffectsFlags GTF_CALL stale_parent)
  = SetAllEffectsFlags GTF_EXCEPT stale_parent.
Proof.
  apply (EffectMoreFacts.SetAllEffectsFlags_last_wins GTF_CALL GTF_EXCEPT stale_parent).
  reflexivity.
Defined.

Lemma SetRegNumByIdx_round_trip_sample :
  (exists n',
     SetRegNumByIdx 4 5 2 fresh_copy = Some n'
     /\ GetRegNumByIdx 4 2 n' = Some 5
     /\ (1%nat <> 2%nat -> GetRegNumByIdx 4 1 n' = GetRegNumByIdx 4 1 fresh_copy)
     /\ gtFlags n' = gtFlags fresh_copy)
  /\ SetRegNumByIdx 4 5 4 fresh_copy = None
  /\ GetRegNumByIdx 4 4 fresh_copy = None.
Proof.
  split.
  - apply (MultiRegFacts.SetRegNumByIdx_round_trip 4 fresh_copy [64; 64; 64] 5 2 1);
      [reflexivity | reflexivity | lia].
  - apply (MultiRegFacts.SetRegNumByIdx_round_trip 4 fresh_copy [64; 64; 64] 5 4 1);
      [reflexivity | reflexivity | lia].
Defined.

Lemma GetRegCount_after_SetRegNumByIdx_sample :
  exists n',
    SetRegNumByIdx 4 5 2 fresh_copy = Some n'
    /\ GetRegCount 4 64 n' = Some 3%nat.
Proof.
  apply (MultiRegFacts.GetRegCount_after_SetRegNumByIdx 4 64 fresh_copy [64; 64; 64] 5 2 1);
    [reflexivity | reflexivity | lia | lia | lia | reflexivity].
Defined.

Lemma CopyOtherRegs_copies_tail_sample :
  exists this',
    MultiRegDesc.CopyOtherRegs 4 true filled_copy fresh_copy = Some this'
    /\ GetRegNumByIdx 4 0 this' = GetRegNumByIdx 4 0 fresh_copy
    /\ (forall idx, (1 <= idx)%nat -> GetRegNumByIdx 4 idx this' = GetRegNumByIdx 4 idx filled_copy)
    /\ GetRegCount 4 64 this' = GetRegCount 4 64 filled_copy.
Proof.
  apply (MultiRegFacts.CopyOtherRegs_copies_tail 4 64 true filled_copy fresh_copy
           [5; 64; 7] [64; 64; 64]); reflexivity.
Defined.

Lemma IsMultiRegRetType_iff_count_sample :
  exists c : nat,
    MultiRegDesc.GetReturnRegCount 4 0 two_reg_desc = Some (Z.of_nat c)
    /\ (c <= 4)%nat
    /\ (forall j, (j < c)%nat ->
          exists t, MultiRegDesc.m_regType two_reg_desc !! j = Some t /\ t <> 0)
    /\ ((c < 4)%nat -> MultiRegDesc.m_regType two_reg_desc !! c = Some 0)
    /\ MultiRegDesc.IsMultiRegRetType 4 0 two_reg_desc = Some (bool_decide (2 <= c)%nat).
Proof.
  apply (MultiRegFacts.IsMultiRegRetType_iff_count 4 0 two_reg_desc). reflexivity.
Defined.

Lemma handle_and_kind_partition_sample :
  FieldSeq.GetFieldHandleValue shared_static_node + FieldSeq.GetKind shared_static_node
  = FieldSeq.m_fieldHandleAndKind shared_static_node
  /\ 0 <= FieldSeq.GetKind shared_static_node < 4
  /\ FieldSeq.GetFieldHandleValue shared_static_node mod 4 = 0
  /\ 0 <= FieldSeq.GetFieldHandleValue shared_static_node < 2 ^ FieldSeq.UINTPTR_BITS.
Proof.
  apply (FieldSeqMoreFacts.handle_and_kind_partition shared_static_node).
  split; [vm_compute; discriminate | reflexivity].
Defined.

Lemma Equals_iff_fields_sample :
  FieldSeq.Equals shared_static_node instance_node = true
  <-> FieldSeq.GetFieldHandleValue shared_static_node = FieldSeq.GetFieldHandleValue instance_node
      /\ FieldSeq.GetKind shared_static_node = FieldSeq.GetKind instance_node
      /\ FieldSeq.GetNext shared_static_node = FieldSeq.GetNext instance_node.
Proof.
  apply (FieldSeqMoreFacts.Equals_iff_fields shared_static_node instance_node);
    (split; [vm_compute; discriminate | reflexivity]).
Defined.

Lemma built_store_ok : FieldSeq.store_ok built_store.
Proof.
  destruct (FieldSeqFacts.build_ok left_nested FieldSeq.FieldSeqStore_ctor
              FieldSeqFacts.store_ok_empty) as (st' & p & Hb & Hok & _).
  unfold built_store. rewrite Hb. exact Hok.
Qed.

Lemma GetTail_last_field_sample :
  exists t nt,
    FieldSeqTail.GetTail built_store (FieldSeq.arena_ptr 5) = Some (FieldSeq.arena_ptr t)
    /\ FieldSeq.m_alloc built_store !! t = Some nt
    /\ FieldSeq.m_fieldHandleAndKind nt = 24
    /\ FieldSeq.GetNext nt = FieldSeq.nullptr
    /\ FieldSeqTail.GetTail built_store (FieldSeq.arena_ptr t) = Some (FieldSeq.arena_ptr t).
Proof.
  apply (FieldSeqMoreFacts.GetTail_last_field built_store (FieldSeq.arena_ptr 5) [8; 17] 24).
  - apply built_store_ok.
  - vm_compute. eexists _, _. split; [reflexivity|]. split; [reflexivity|].
    split; [reflexivity|].
    eexists _, _. split; [reflexivity|]. split; [reflexivity|].
    split; [reflexivity|].
    eexists _, _. split; [reflexivity|]. split; [reflexivity|].
    split; reflexivity.
Defined.

Lemma GetAssertionIndex_one_based_sample :
  (41 < 65535 -> Assertions.GetAssertionIndex 41 = 41 + 1)
  /\ (Assertions.GetAssertionIndex 41 = Assertions.NO_ASSERTION_INDEX
      <-> 41 mod 65536 = 65535).
Proof.
  apply (AssertionFacts.GetAssertionIndex_one_based 41).
  split; [vm_compute; discriminate | reflexivity].
Defined.

Lemma ForNextEdge_marks_only_assertions_sample :
  Assertions.AssertionIndex_of (Assertions.ForNextEdge 7) = 7
  /\ Assertions.IsNextEdgeAssertion (Assertions.ForNextEdge 7)
     = Assertions.HasAssertion (Assertions.ForNextEdge 7)
  /\ Assertions.HasAssertion (Assertions.ForNextEdge 7)
     = Assertions.HasAssertion (Assertions.AssertionInfo_of 7)
  /\ Assertions.IsNextEdgeAssertion (Assertions.AssertionInfo_of 7) = false
  /\ Assertions.Clear (Assertions.ForNextEdge 7) = Assertions.AssertionInfo_default.
Proof.
  apply (AssertionFacts.ForNextEdge_marks_only_assertions 7).
  split; [vm_compute; discriminate | reflexivity].
Defined.

Lemma CSE_use_def_swap_sample :
  Assertions.IS_CSE_USE (-5) = negb (Assertions.IS_CSE_DEF (-5))
  /\ Assertions.IS_CSE_DEF (Assertions.TO_CSE_DEF (-5)) = Assertions.IS_CSE_USE (-5)
  /\ Assertions.IS_CSE_USE (Assertions.TO_CSE_DEF (-5)) = Assertions.IS_CSE_DEF (-5)
  /\ Assertions.GET_CSE_INDEX (Assertions.TO_CSE_DEF (-5)) = Assertions.GET_CSE_INDEX (-5)
  /\ 0 < Assertions.GET_CSE_INDEX (-5)
  /\ Assertions.IS_CSE_INDEX (Assertions.TO_CSE_DEF (-5)) = true.
Proof.
  apply (AssertionFacts.CSE_use_def_swap (-5)). reflexivity.
Defined.

Lemma sample_use_list_ok :
  FieldList.list_ok sample_uses sample_use_list [10%N; 11%N; 12%N].
Proof.
  split.
  - hnf. simpl. split; [reflexivity|]. eexists. split; [reflexivity|].
    simpl. split; [reflexivity|]. eexists. split; [reflexivity|].
    simpl. split; [reflexivity|]. eexists. split; reflexivity.
  - intros _. reflexivity.
Qed.

Lemma AddUse_appends_sample :
  exists h' ul',
    FieldList.AddUse sample_uses sample_use_list (Some 13%N) = Some (h', ul')
    /\ FieldList.list_ok h' ul' ([10%N; 11%N; 12%N] ++ [13%N])
    /\ FieldList.same_payload sample_uses h'.
Proof.
  apply (FieldListFacts.AddUse_appends sample_uses sample_use_list [10%N; 11%N; 12%N] 13%N
           (FieldList.Use_ctor (Some 2%N) 4 3)).
  - apply sample_use_list_ok.
  - reflexivity.
  - reflexivity.
  - apply not_elem_of_cons. split; [discriminate|].
    apply not_elem_of_cons. split; [discriminate|].
    apply not_elem_of_cons. split; [discriminate|]. apply not_elem_of_nil.
Defined.

Lemma InsertUse_inserts_sample :
  exists h' ul',
    FieldList.InsertUse sample_uses sample_use_list (Some 10%N) (Some 13%N) = Some (h', ul')
    /\ FieldList.list_ok h' ul' ([] ++ 10%N :: 13%N :: [11%N; 12%N])
    /\ FieldList.same_payload sample_uses h'.
Proof.
  apply (FieldListFacts.InsertUse_inserts sample_uses sample_use_list [] [11%N; 12%N]
           10%N 13%N (FieldList.Use_ctor (Some 2%N) 4 3)).
  - apply sample_use_list_ok.
  - reflexivity.
  - reflexivity.
  - apply not_elem_of_cons. split; [discriminate|].
    apply not_elem_of_cons. split; [discriminate|].
    apply not_elem_of_cons. split; [discriminate|]. apply not_elem_of_nil.
Defined.

Lemma Reverse_reverses_sample :
  exists h' ul',
    FieldList.Reverse sample_uses sample_use_list = Some (h', ul')
    /\ FieldList.list_ok h' ul' (reverse [10%N; 11%N; 12%N])
    /\ FieldList.same_payload sample_uses h'
    /\ (forall a, a ∉ [10%N; 11%N; 12%N] -> h' !! a = sample_uses !! a).
Proof.
  apply (FieldListFacts.Reverse_reverses sample_uses sample_use_list [10%N; 11%N; 12%N]).
  apply sample_use_list_ok.
Defined.

Lemma Reverse_twice_sample :
  exists h1 ul1 ul2,
    FieldList.Reverse sample_uses sample_use_list = Some (h1, ul1)
    /\ FieldList.Reverse h1 ul1 = Some (sample_uses, ul2)
    /\ FieldList.GetHead ul2 = FieldList.GetHead sample_use_list
    /\ ([10%N; 11%N; 12%N] <> [] -> ul2 = sample_use_list).
Proof.
  apply (FieldListFacts.Reverse_twice sample_uses sample_use_list [10%N; 11%N; 12%N]).
  apply sample_use_list_ok.
Defined.

Lemma IsSorted_iff_offsets_ascend_sample :
  exists b,
    FieldList.IsSorted sample_uses sample_use_list = Some b
    /\ (b = true
        <-> StronglySorted Z.le (FieldList.offset_at sample_uses <$> [10%N; 11%N; 12%N])).
Proof.
  apply (FieldListFacts.IsSorted_iff_offsets_ascend sample_uses sample_use_list
           [10%N; 11%N; 12%N]).
  - apply sample_use_list_ok.
  - repeat constructor; vm_compute; discriminate.
Defined.

Lemma Equals_iff_uses_match_sample :
  exists b,
    FieldList.Equals same_node sample_uses sample_use_list second_use_list = Some b
    /\ (b = true
        <-> length [10%N; 11%N; 12%N] = length [20%N; 21%N; 22%N]
            /\ Forall2 (FieldList.uses_match same_node sample_uses)
                 [10%N; 11%N; 12%N] [20%N; 21%N; 22%N]).
Proof.
  apply (FieldListFacts.Equals_iff_uses_match same_node sample_uses sample_use_list
           second_use_list [10%N; 11%N; 12%N] [20%N; 21%N; 22%N]).
  - apply sample_use_list_ok.
  - hnf. simpl. split; [reflexivity|]. eexists. split; [reflexivity|].
    simpl. split; [reflexivity|]. eexists. split; [reflexivity|].
    simpl. split; [reflexivity|]. eexists. split; reflexivity.
Defined.

Lemma comma_heap_path (c : bool) :
  CommaChains.wrapper_path 90 2 c comma_heap 1%N
    (if c then [2%N; 3%N] else [2%N; 3%N; 4%N]) (if c then 3%N else 4%N).
Proof.
  destruct c; simpl.
  - split; [eexists; split; [reflexivity | reflexivity]|].
    split; [eexists; split; [reflexivity | reflexivity]|].
    split; [reflexivity|]. eexists. split; [reflexivity|].
    split; [reflexivity | discriminate].
  - split; [eexists; split; [reflexivity | reflexivity]|].
    split; [eexists; split; [reflexivity | reflexivity]|].
    split; [eexists; split; [reflexivity | split; reflexivity]|].
    split; [reflexivity|]. eexists. split; [reflexivity|].
    split; [reflexivity | discriminate].
Qed.

Lemma gtEffectiveVal_end_of_chain_sample :
  CommaChains.gtEffectiveVal 90 2 comma_heap 1%N false = Some (Some 4%N)
  /\ CommaChains.gtEffectiveVal 90 2 comma_heap 4%N false = Some (Some 4%N)
  /\ exists n, comma_heap !! 4%N = Some n
               /\ gtOper n <> 90
               /\ (false = false -> gtOper n = 2 -> CommaChains.AsOp_gtOp1 n = Some None).
Proof.
  apply (CommaChainFacts.gtEffectiveVal_end_of_chain 90 2 false comma_heap 1%N
           [2%N; 3%N; 4%N] 4%N).
  apply (comma_heap_path false).
Defined.

Lemma ChangeType_retypes_comma_chain_sample :
  exists h',
    CommaChains.ChangeType 90 comma_heap 1%N 9 = Some h'
    /\ (forall x, h' !! x = if bool_decide (x ∈ [1%N; 2%N; 3%N])
                            then CommaChains.with_type 9 <$> comma_heap !! x
                            else comma_heap !! x)
    /\ CommaChains.gtEffectiveVal 90 2 h' 1%N true = Some (Some 3%N)
    /\ gtType <$> h' !! 3%N = Some 9.
Proof.
  apply (CommaChainFacts.ChangeType_retypes_comma_chain 90 2 comma_heap 1%N 9
           [2%N; 3%N] 3%N).
  apply (comma_heap_path true).
Defined.

Lemma iter_eq_equivalence_sample :
  UseEdges.iter_eq (iter_on 1%N) (iter_on 1%N) = true
  /\ UseEdges.iter_eq (iter_on 1%N) (iter_on 2%N)
     = UseEdges.iter_eq (iter_on 2%N) (iter_on 1%N)
  /\ (UseEdges.iter_eq (iter_on 1%N) (iter_on 2%N) = true ->
      UseEdges.iter_eq (iter_on 2%N) (iter_on 3%N) = true ->
      UseEdges.iter_eq (iter_on 1%N) (iter_on 3%N) = true)
  /\ UseEdges.iter_eq
       (UseEdges.mkIter None (UseEdges.m_node (iter_on 1%N)) (UseEdges.m_edge (iter_on 1%N))
          (UseEdges.m_statePtr (iter_on 1%N)) (UseEdges.m_state (iter_on 1%N)))
       (iter_on 2%N)
     = UseEdges.iter_eq (iter_on 1%N) (iter_on 2%N).
Proof.
  apply (UseEdgeMoreFacts.iter_eq_equivalence (iter_on 1%N) (iter_on 2%N) (iter_on 3%N) None).
Defined.

End MoreSampleFacts.
